(** * National scaling analysis: the cleaning and regression pipeline

    A shallow embedding of [scaling_analysis/{data,features,models,viz,pipeline}.py].
    The routines of pandas, numpy and scipy that these files call
    ([pd.merge], [groupby], [interpolate], [np.interp], [linregress]) are
    modelled after their documented behaviour, next to the functions that
    call them.

    - A pandas [DataFrame] of the panel is a list of rows; a row carries the
      three identifier columns [Entity], [Code], [Year] and its numeric
      measurement cells by column name.
    - A float64 cell is [NaN], an infinity or a real number: rounding, overflow
      and the sign of zero are not modelled, the special values of IEEE
      division and of the logarithm are.
    - A Python call either returns or raises: [outcome].  A function that
      assigns into its dataframe argument returns the dataframe as it is left
      together with the outcome.
    - Null fractions are exact rationals, so the two entity filters compute;
      the code holds them in float64.
    - The merge follows pandas 2, the regression scipy up to release 1.15. *)

From Stdlib Require Import List String ZArith QArith Reals Lra Lia Bool Sorted.
From Stdlib Require Lqa.
Import ListNotations.

Local Open Scope string_scope.
Local Open Scope list_scope.

(** ** Python outcomes *)

Inductive exn : Type :=
| KeyError (name : string)
| IndexError (msg : string)
| ValueError (msg : string)
| TypeError (msg : string)
| MergeError (msg : string)
| ZeroDivisionError.

Inductive outcome (A : Type) : Type :=
| Return (a : A)
| Raise (e : exn).

Arguments Return {A} a.
Arguments Raise {A} e.

Definition bind {A B : Type} (m : outcome A) (k : A -> outcome B) : outcome B :=
  match m with
  | Return a => k a
  | Raise e => Raise e
  end.

Notation "x <- m ;; k" := (bind m (fun x => k))
  (at level 61, m at next level, right associativity).

Definition raises {A : Type} (m : outcome A) : Prop := exists e, m = Raise e.

(** ** float64 cells *)

Inductive float64 : Type :=
| NaN
| PInf
| NInf
| Fin (r : R).

Definition isnan (v : float64) : bool :=
  match v with NaN => true | _ => false end.

(** pandas [isnull]: an infinity is not a null marker. *)
Definition isnull (v : float64) : bool := isnan v.

Definition Rltb (a b : R) : bool := if Rlt_dec a b then true else false.
Definition Reqb (a b : R) : bool := if Req_dec_T a b then true else false.

Definition inf_of_sign (negative : bool) : float64 :=
  if negative then NInf else PInf.

Definition fneg (v : float64) : float64 :=
  match v with
  | NaN => NaN
  | PInf => NInf
  | NInf => PInf
  | Fin r => Fin (- r)
  end.

Definition fadd (a b : float64) : float64 :=
  match a, b with
  | NaN, _ | _, NaN => NaN
  | PInf, NInf | NInf, PInf => NaN
  | PInf, _ | _, PInf => PInf
  | NInf, _ | _, NInf => NInf
  | Fin x, Fin y => Fin (x + y)
  end.

Definition fsub (a b : float64) : float64 := fadd a (fneg b).

(** An infinity times zero is NaN, otherwise the signs multiply. *)
Definition fmul_inf (negative : bool) (r : R) : float64 :=
  if Reqb r 0 then NaN else inf_of_sign (xorb negative (Rltb r 0)).

Definition fmul (a b : float64) : float64 :=
  match a, b with
  | NaN, _ | _, NaN => NaN
  | PInf, PInf | NInf, NInf => PInf
  | PInf, NInf | NInf, PInf => NInf
  | PInf, Fin r | Fin r, PInf => fmul_inf false r
  | NInf, Fin r | Fin r, NInf => fmul_inf true r
  | Fin x, Fin y => Fin (x * y)
  end.

(** numpy division: [x/0] is an infinity for [x <> 0] and NaN for [x = 0];
    nothing is raised. *)
Definition fdiv (a b : float64) : float64 :=
  match a, b with
  | NaN, _ | _, NaN => NaN
  | (PInf | NInf), (PInf | NInf) => NaN
  | PInf, Fin r => inf_of_sign (Rltb r 0)
  | NInf, Fin r => inf_of_sign (negb (Rltb r 0))
  | Fin _, (PInf | NInf) => Fin 0
  | Fin x, Fin y =>
      if Reqb y 0 then
        if Reqb x 0 then NaN else inf_of_sign (Rltb x 0)
      else Fin (x / y)
  end.

Definition fsqrt (v : float64) : float64 :=
  match v with
  | NaN | NInf => NaN
  | PInf => PInf
  | Fin r => if Rltb r 0 then NaN else Fin (sqrt r)
  end.

(** [v < w], [v > w] and [v == w] on floats: false as soon as a NaN is involved. *)
Definition fltb (a b : float64) : bool :=
  match a, b with
  | NaN, _ | _, NaN => false
  | _, NInf | PInf, _ => false
  | NInf, _ | _, PInf => true
  | Fin x, Fin y => Rltb x y
  end.

Definition fgtb (a b : float64) : bool := fltb b a.

Definition feqb (a b : float64) : bool :=
  match a, b with
  | PInf, PInf | NInf, NInf => true
  | Fin x, Fin y => Reqb x y
  | _, _ => false
  end.

(** [np.log]. *)
Definition flog (v : float64) : float64 :=
  match v with
  | NaN | NInf => NaN
  | PInf => PInf
  | Fin r => if Rltb r 0 then NaN else if Reqb r 0 then NInf else Fin (ln r)
  end.

(** [np.log1p]. *)
Definition flog1p (v : float64) : float64 :=
  match v with
  | NaN | NInf => NaN
  | PInf => PInf
  | Fin r =>
      if Rltb r (-1) then NaN else if Reqb r (-1) then NInf else Fin (ln (1 + r))
  end.

Definition of_Z (z : Z) : float64 := Fin (IZR z).

(** [np.e]. *)
Definition np_e : R := exp 1.

(** Sum of a column with pandas' default [skipna=True, min_count=0]. *)
Definition nansum (l : list float64) : float64 :=
  fold_left fadd (filter (fun v => negb (isnan v)) l) (Fin 0).

(** [np.sum] and [np.mean]: no value is skipped. *)
Definition fsum (l : list float64) : float64 := fold_left fadd l (Fin 0).

Definition fmean (l : list float64) : float64 :=
  fdiv (fsum l) (of_Z (Z.of_nat (List.length l))).

(** [np.amax] and [np.amin] of a non-empty array: a NaN propagates. *)
Definition fmax2 (a b : float64) : float64 :=
  if isnan a || isnan b then NaN else if fltb a b then b else a.
Definition fmin2 (a b : float64) : float64 :=
  if isnan a || isnan b then NaN else if fltb b a then b else a.

Definition amax (l : list float64) : float64 :=
  match l with [] => NaN | v :: l' => fold_left fmax2 l' v end.
Definition amin (l : list float64) : float64 :=
  match l with [] => NaN | v :: l' => fold_left fmin2 l' v end.

(** ** Rationals as booleans *)

Definition Qltb (a b : Q) : bool :=
  (Qnum a * QDen b <? Qnum b * QDen a)%Z.

Definition Qsum (l : list Q) : Q := fold_right Qplus 0%Q l.

Definition Qmean (l : list Q) : Q :=
  (Qsum l / inject_Z (Z.of_nat (List.length l)))%Q.

(** ** The panel *)

Record Row : Type := mkRow {
  Entity : string;
  Code : option string;      (* [None] is the null marker *)
  Year : Z;
  vals : list (string * float64)
}.

Record DataFrame : Type := mkDataFrame {
  columns : list string;     (* the measurement columns, in order *)
  rows : list Row
}.

Definition mem (s : string) (l : list string) : bool :=
  existsb (String.eqb s) l.

Fixpoint lookup (c : string) (l : list (string * float64)) : option float64 :=
  match l with
  | [] => None
  | (k, v) :: l' => if String.eqb c k then Some v else lookup c l'
  end.

Fixpoint update (c : string) (v : float64) (l : list (string * float64))
  : list (string * float64) :=
  match l with
  | [] => [(c, v)]
  | (k, w) :: l' =>
      if String.eqb c k then (k, v) :: l' else (k, w) :: update c v l'
  end.

(** The cell of row [r] in measurement column [c]. *)
Definition cell (r : Row) (c : string) : float64 :=
  match lookup c (vals r) with
  | Some v => v
  | None => NaN
  end.

Definition set_cell (c : string) (v : float64) (r : Row) : Row :=
  mkRow (Entity r) (Code r) (Year r) (update c v (vals r)).

(** [df[c] = f(row)], elementwise: an existing column is overwritten in place,
    a new one is appended. *)
Definition assign (df : DataFrame) (c : string) (f : Row -> float64) : DataFrame :=
  mkDataFrame
    (if mem c (columns df) then columns df else columns df ++ [c])
    (map (fun r => set_cell c (f r) r) (rows df)).

(** [l] is [l'] with some elements left out, the others in their order. *)
Inductive Subsequence {A : Type} : list A -> list A -> Prop :=
| sub_nil : Subsequence [] []
| sub_skip a l l' : Subsequence l l' -> Subsequence l (a :: l')
| sub_keep a l l' : Subsequence l l' -> Subsequence (a :: l) (a :: l').

(** [df[mask]]. *)
Definition select (keep : Row -> bool) (df : DataFrame) : DataFrame :=
  mkDataFrame (columns df) (filter keep (rows df)).

(** The group keys of [groupby] come out unique and sorted. *)
Fixpoint insert_string (s : string) (l : list string) : list string :=
  match l with
  | [] => [s]
  | t :: l' => if String.leb s t then s :: l else t :: insert_string s l'
  end.

Definition sorted_unique (l : list string) : list string :=
  fold_right insert_string [] (nodup string_dec l).

Fixpoint insert_Z (z : Z) (l : list Z) : list Z :=
  match l with
  | [] => [z]
  | t :: l' => if (z <=? t)%Z then z :: l else t :: insert_Z z l'
  end.

Definition sorted_unique_Z (l : list Z) : list Z :=
  fold_right insert_Z [] (nodup Z.eq_dec l).

(** [df.groupby("Entity")]: the keys, and the rows of one group in frame order. *)
Definition entities (df : DataFrame) : list string :=
  sorted_unique (map Entity (rows df)).

Definition group (df : DataFrame) (e : string) : list Row :=
  filter (fun r => String.eqb (Entity r) e) (rows df).

(** ** data.py *)

(** The [how] of [pd.merge]. *)
Inductive join : Type := JLeft | JRight | JOuter | JInner | JCross.

Definition option_string_eqb (a b : option string) : bool :=
  match a, b with
  | None, None => true
  | Some s, Some t => String.eqb s t
  | _, _ => false
  end.

(** The merge key is the triple [MERGE_COLUMNS = ['Entity', 'Code', 'Year']];
    two null codes match each other, as in pandas. *)
Definition key_eqb (a b : Row) : bool :=
  String.eqb (Entity a) (Entity b)
  && option_string_eqb (Code a) (Code b)
  && (Year a =? Year b)%Z.

(** Order of the keys of an outer join: by [Entity], then [Code] with the
    null last, then [Year]. *)
Definition code_compare (a b : option string) : comparison :=
  match a, b with
  | None, None => Eq
  | None, Some _ => Gt
  | Some _, None => Lt
  | Some s, Some t => String.compare s t
  end.

Definition key_compare (a b : Row) : comparison :=
  match String.compare (Entity a) (Entity b) with
  | Eq =>
      match code_compare (Code a) (Code b) with
      | Eq => Z.compare (Year a) (Year b)
      | o => o
      end
  | o => o
  end.

Definition key_leb (a b : Row) : bool :=
  match key_compare a b with Gt => false | _ => true end.

Fixpoint insert_row (r : Row) (l : list Row) : list Row :=
  match l with
  | [] => [r]
  | t :: l' => if key_leb r t then r :: l else t :: insert_row r l'
  end.

Definition sort_by_key (l : list Row) : list Row :=
  fold_right insert_row [] l.

(** A measurement column found in both frames gets a suffix on each side. *)
Definition rename (overlap : list string) (sfx : string) (c : string) : string :=
  if mem c overlap then (c ++ sfx)%string else c.

Definition rename_vals (overlap : list string) (sfx : string)
  (l : list (string * float64)) : list (string * float64) :=
  map (fun kv => (rename overlap sfx (fst kv), snd kv)) l.

Definition nan_vals (cols : list string) : list (string * float64) :=
  map (fun c => (c, NaN)) cols.

Definition has_key (l : list Row) (r : Row) : bool := existsb (key_eqb r) l.

(** The identifier triple of a row. *)
Definition key (r : Row) : string * option string * Z :=
  (Entity r, Code r, Year r).

(** The columns found on both sides of a merge. *)
Definition overlap (L R : DataFrame) : list string :=
  filter (fun c => mem c (columns R)) (columns L).

Definition left_columns (L R : DataFrame) : list string :=
  map (rename (overlap L R) "_x") (columns L).

Definition right_columns (L R : DataFrame) : list string :=
  map (rename (overlap L R) "_y") (columns R).

(** The three kinds of rows of a join: a left row with a matching right row,
    a left row without any, a right row without any. *)
Definition both (L R : DataFrame) (l r : Row) : Row :=
  mkRow (Entity l) (Code l) (Year l)
    (rename_vals (overlap L R) "_x" (vals l)
     ++ rename_vals (overlap L R) "_y" (vals r)).

Definition left_only (L R : DataFrame) (l : Row) : Row :=
  mkRow (Entity l) (Code l) (Year l)
    (rename_vals (overlap L R) "_x" (vals l) ++ nan_vals (right_columns L R)).

Definition right_only (L R : DataFrame) (r : Row) : Row :=
  mkRow (Entity r) (Code r) (Year r)
    (nan_vals (left_columns L R) ++ rename_vals (overlap L R) "_y" (vals r)).

Definition from_left (L R : DataFrame) (keep : bool) : list Row :=
  flat_map (fun l =>
    match filter (key_eqb l) (rows R) with
    | [] => if keep then [left_only L R l] else []
    | ms => map (both L R l) ms
    end) (rows L).

Definition from_right (L R : DataFrame) (keep : bool) : list Row :=
  flat_map (fun r =>
    match filter (fun l => key_eqb l r) (rows L) with
    | [] => if keep then [right_only L R r] else []
    | ms => map (fun l => both L R l r) ms
    end) (rows R).

Definition unmatched_right (L R : DataFrame) : list Row :=
  map (right_only L R) (filter (fun r => negb (has_key (rows L) r)) (rows R)).

(** [labels.duplicated()]: the positions whose label occurs at an earlier
    position. *)
Fixpoint duplicated (seen l : list string) : list bool :=
  match l with
  | [] => []
  | c :: l' => mem c seen :: duplicated (c :: seen) l'
  end.

(** The labels of one side that the suffix turned into a duplicate: the
    renamed label repeats an earlier one of its side, the original label
    did not. *)
Definition suffix_duplicates (old new : list string) : list string :=
  map fst
    (filter (fun p => fst (snd p) && negb (snd (snd p)))
       (combine new (combine (duplicated [] new) (duplicated [] old)))).

Definition duplicate_columns_error : exn :=
  MergeError "Passing 'suffixes' which cause duplicate columns is not allowed.".

(** The frame that a join returns, unless a suffix made a duplicate column
    on either side (pandas 2). *)
Definition merge_result (L R : DataFrame) (joined : list Row) : outcome DataFrame :=
  match suffix_duplicates (columns L) (left_columns L R)
        ++ suffix_duplicates (columns R) (right_columns L R) with
  | [] => Return (mkDataFrame (left_columns L R ++ right_columns L R) joined)
  | _ :: _ => Raise duplicate_columns_error
  end.

(** [pd.merge(L, R, on=MERGE_COLUMNS, how=how)]. *)
Definition pd_merge (L R : DataFrame) (how : join) : outcome DataFrame :=
  match how with
  | JInner => merge_result L R (from_left L R false)
  | JLeft => merge_result L R (from_left L R true)
  | JRight => merge_result L R (from_right L R true)
  | JOuter =>
      merge_result L R (sort_by_key (from_left L R true ++ unmatched_right L R))
  | JCross => Raise (MergeError "Can not pass on with how=cross")
  end.

(** [merged] is Python's [None] until the first table is seen. *)
Fixpoint merge_loop (merged : option DataFrame) (dfs : list DataFrame)
  (how : join) : outcome (option DataFrame) :=
  match dfs with
  | [] => Return merged
  | df :: rest =>
      match merged with
      | None => merge_loop (Some df) rest how
      | Some m => m' <- pd_merge m df how ;; merge_loop (Some m') rest how
      end
  end.

Definition merge_dict_datasets (datasets : list (string * DataFrame)) (how : join)
  : outcome (option DataFrame) :=
  merge_loop None (map snd datasets) how.

(** ** features.py *)

(** [get_col] is [df[c]] for a measurement column [c]; the transforms and the
    regressions below address measurement columns only. *)
Definition get_col (df : DataFrame) (c : string) : outcome (list float64) :=
  if mem c (columns df) then Return (map (fun r => cell r c) (rows df))
  else Raise (KeyError c).

Fixpoint compute_per_capita (df : DataFrame) (numerators : list string)
  (population_col : string) (suffix : string) : DataFrame * outcome unit :=
  match numerators with
  | [] => (df, Return tt)
  | col :: rest =>
      let new_col := (col ++ suffix)%string in
      match get_col df col, get_col df population_col with
      | Raise e, _ => (df, Raise e)
      | _, Raise e => (df, Raise e)
      | Return _, Return _ =>
          compute_per_capita
            (assign df new_col (fun r => fdiv (cell r col) (cell r population_col)))
            rest population_col suffix
      end
  end.

Definition code_present (r : Row) : bool :=
  match Code r with
  | None => false
  | Some s => negb (String.eqb s "")
  end.

Definition remove_entities_without_iso (df : DataFrame) : DataFrame :=
  select code_present df.

Definition select_year_range (df : DataFrame) (year_min year_max : option Z)
  : DataFrame :=
  let df :=
    match year_min with
    | Some lo => select (fun r => (lo <=? Year r)%Z) df
    | None => df
    end in
  match year_max with
  | Some hi => select (fun r => (Year r <=? hi)%Z) df
  | None => df
  end.

(** [g.isnull()], column by column: the three identifier columns, then the
    measurement columns. *)
Definition null_tests (cols : list string) : list (Row -> bool) :=
  [fun _ => false;
   fun r => match Code r with None => true | Some _ => false end;
   fun _ => false]
  ++ map (fun c r => isnull (cell r c)) cols.

Definition count (t : Row -> bool) (g : list Row) : nat :=
  List.length (filter t g).

(** [g.isnull().mean()]: per column, the fraction of null cells in the group.
    The fractions are exact here; the code holds them in float64, so a
    fraction whose percentage equals a threshold exactly can fall on either
    side of it there. *)
Definition null_means (cols : list string) (g : list Row) : list Q :=
  map (fun t => (Z.of_nat (count t g) # Pos.of_nat (List.length g))%Q)
      (null_tests cols).

(** [g.isnull().mean().mean()]. *)
Definition null_pct (cols : list string) (g : list Row) : Q :=
  Qmean (null_means cols g).

Definition keep_entities (df : DataFrame) (threshold : Q) : list string :=
  filter (fun e => Qltb (null_pct (columns df) (group df e)) threshold)
         (entities df).

Definition remove_high_null_entities (df : DataFrame) (threshold : Q) : DataFrame :=
  select (fun r => mem (Entity r) (keep_entities df threshold)) df.

(** [group.isnull().mean() * 100], every entry below the threshold. *)
Definition valid_entities (df : DataFrame) (threshold : Q) : list string :=
  filter (fun e =>
            forallb (fun m => Qltb (m * 100)%Q threshold)
                    (null_means (columns df) (group df e)))
         (entities df).

Definition column_pct (df : DataFrame) (threshold : Q) : DataFrame :=
  select (fun r => mem (Entity r) (valid_entities df threshold)) df.

(** [(df[col] < 0).any()]. *)
Definition any_negative (xs : list float64) : bool :=
  existsb (fun v => fltb v (Fin 0)) xs.

(** [np.log1p(x)], divided by [np.log(base)] unless [base] is [np.e]. *)
Definition log_value (base : R) (v : float64) : float64 :=
  let log_values := flog1p v in
  if Reqb base np_e then log_values else fdiv log_values (flog (Fin base)).

Definition negative_values_error (col : string) : exn :=
  ValueError ("Column '" ++ col
              ++ "' contains negative values, cannot apply log1p transform.")%string.

Fixpoint log_transform (df : DataFrame) (cols : list string) (base : R)
  (suffix : string) : DataFrame * outcome unit :=
  match cols with
  | [] => (df, Return tt)
  | col :: rest =>
      match get_col df col with
      | Raise e => (df, Raise e)
      | Return xs =>
          if any_negative xs then
            (df, Raise (negative_values_error col))
          else
            log_transform
              (assign df (col ++ suffix)%string (fun r => log_value base (cell r col)))
              rest base suffix
      end
  end.

(** *** Interpolation

    [g.interpolate(method="linear", limit_direction="both")] treats the rows
    of the group as equally spaced (the index is ignored), fills every NaN of
    a column from the column's valid points with [np.interp], which clamps
    before the first and after the last valid point, and leaves a column
    without any valid point as it is. *)

Fixpoint indexed {A : Type} (i : Z) (l : list A) : list (Z * A) :=
  match l with
  | [] => []
  | a :: l' => (i, a) :: indexed (i + 1) l'
  end.

Definition valid_points (l : list float64) : list (Z * float64) :=
  filter (fun p => negb (isnan (snd p))) (indexed 0 l).

(** The value on the segment from [(x0, f0)] to [(x1, f1)], as numpy computes
    it, with its second attempt when the first one is NaN. *)
Definition interp_segment (x x0 x1 : Z) (f0 f1 : float64) : float64 :=
  let slope := fdiv (fsub f1 f0) (of_Z (x1 - x0)) in
  let v := fadd (fmul slope (of_Z (x - x0))) f0 in
  if isnan v then
    let v' := fadd (fmul slope (of_Z (x - x1))) f1 in
    if isnan v' && feqb f0 f1 then f0 else v'
  else v.

Fixpoint np_interp_from (x : Z) (prev : Z * float64) (pts : list (Z * float64))
  : float64 :=
  match pts with
  | [] => snd prev
  | p :: pts' =>
      if (x <? fst p)%Z then interp_segment x (fst prev) (fst p) (snd prev) (snd p)
      else np_interp_from x p pts'
  end.

Definition np_interp (x : Z) (pts : list (Z * float64)) : float64 :=
  match pts with
  | [] => NaN
  | p :: pts' => if (x <=? fst p)%Z then snd p else np_interp_from x p pts'
  end.

(** For each position of the column, the value that fills it, if it is filled. *)
Definition fills (l : list float64) : list (option float64) :=
  match valid_points l with
  | [] => map (fun _ => None) l
  | pts =>
      map (fun p => if isnan (snd p) then Some (np_interp (fst p) pts) else None)
          (indexed 0 l)
  end.

Fixpoint apply_fills (c : string) (fs : list (option float64)) (g : list Row)
  : list Row :=
  match fs, g with
  | Some v :: fs', r :: g' => set_cell c v r :: apply_fills c fs' g'
  | None :: fs', r :: g' => r :: apply_fills c fs' g'
  | _, _ => g
  end.

Definition interpolate_column (c : string) (g : list Row) : list Row :=
  apply_fills c (fills (map (fun r => cell r c) g)) g.

Definition interpolate_group (cols : list string) (g : list Row) : list Row :=
  fold_left (fun g c => interpolate_column c g) cols g.

(** [groupby(...).apply(...)] lays the groups out in key order;
    [reset_index(drop=True)] renumbers the rows. *)
Definition interpolate_missing (df : DataFrame) : DataFrame :=
  mkDataFrame (columns df)
    (flat_map (fun e => interpolate_group (columns df) (group df e)) (entities df)).

(** ** models.py *)

(** The p-value of the slope is a tail probability of Student's t distribution:
    it is kept as the pair it is computed from. *)
Inductive pvalue : Type :=
| PConst (v : float64)
| PStudentT (dof : Z) (t : float64).

Record LinregressResult : Type := mkLinregress {
  lr_slope : float64;
  lr_intercept : float64;
  lr_rvalue : float64;
  lr_pvalue : pvalue;
  lr_stderr : float64
}.

Definition TINY : R := / (10 ^ 20).

Definition clamp_r (r : float64) : float64 :=
  if fgtb r (Fin 1) then Fin 1
  else if fltb r (Fin (-1)) then Fin (-1)
  else r.

Definition is_empty {A : Type} (l : list A) : bool :=
  match l with [] => true | _ => false end.

(** [scipy.stats.linregress(x, y)] on two arrays of the same length, as in
    scipy up to release 1.15, which rejects empty input with a ValueError. *)
Definition linregress (x y : list float64) : outcome LinregressResult :=
  if is_empty x || is_empty y then
    Raise (ValueError "Inputs must not be empty.")
  else if feqb (amax x) (amin x) && (1 <? List.length x)%nat then
    Raise (ValueError
      "Cannot calculate a linear regression if all x values are identical")
  else
    let n := Z.of_nat (List.length x) in
    let xmean := fmean x in
    let ymean := fmean y in
    let dx := map (fun v => fsub v xmean) x in
    let dy := map (fun v => fsub v ymean) y in
    let ssxm := fmean (map (fun d => fmul d d) dx) in
    let ssxym := fmean (map (fun p => fmul (fst p) (snd p)) (combine dx dy)) in
    let ssym := fmean (map (fun d => fmul d d) dy) in
    let r :=
      if feqb ssxm (Fin 0) || feqb ssym (Fin 0) then Fin 0
      else clamp_r (fdiv ssxym (fsqrt (fmul ssxm ssym))) in
    let slope := fdiv ssxym ssxm in
    let intercept := fsub ymean (fmul slope xmean) in
    if (n =? 2)%Z then
      let prob :=
        if feqb (nth 0 y NaN) (nth 1 y NaN) then Fin 1 else Fin 0 in
      Return (mkLinregress slope intercept r (PConst prob) (Fin 0))
    else
      let dof := (n - 2)%Z in
      let t :=
        fmul r (fsqrt (fdiv (of_Z dof)
                 (fmul (fadd (fsub (Fin 1) r) (Fin TINY))
                       (fadd (fadd (Fin 1) r) (Fin TINY))))) in
      let slope_stderr :=
        fsqrt (fdiv (fdiv (fmul (fsub (Fin 1) (fmul r r)) ssym) ssxm)
                    (of_Z dof)) in
      Return (mkLinregress slope intercept r (PStudentT dof t) slope_stderr).

Record RegressionResult : Type := mkRegression {
  slope : float64;
  intercept : float64;
  r_squared : float64;
  p_value : pvalue;
  std_err : float64
}.

(** The positions kept by [mask = (~np.isnan(x)) & (~np.isnan(y))], for two
    arrays of the same length. *)
Definition valid_pairs (x y : list float64) : list (float64 * float64) :=
  filter (fun p => negb (isnan (fst p)) && negb (isnan (snd p))) (combine x y).

(** What numpy raises for arrays of lengths [n <> m]: an array of length one
    is broadcast by [&], and the mask then fails to index it; any other pair
    of lengths cannot be broadcast. *)
Definition length_mismatch_error (n m : nat) : exn :=
  if (n =? 1)%nat || (m =? 1)%nat then
    IndexError "boolean index did not match indexed array along axis 0"
  else ValueError "operands could not be broadcast together".

Definition fit_log_log_regression (x y : list float64) : outcome RegressionResult :=
  if negb (List.length x =? List.length y)%nat then
    Raise (length_mismatch_error (List.length x) (List.length y))
  else
    let pairs := valid_pairs x y in
    res <- linregress (map fst pairs) (map snd pairs) ;;
    Return (mkRegression (lr_slope res) (lr_intercept res)
              (fmul (lr_rvalue res) (lr_rvalue res))
              (lr_pvalue res) (lr_stderr res)).

(** ** viz.py *)

(** Python's [a / b] for a float [a] and an int [b]. *)
Definition py_truediv (a : float64) (b : Z) : outcome float64 :=
  if (b =? 0)%Z then Raise ZeroDivisionError else Return (fdiv a (of_Z b)).

(** [1 - ((1 - r_squared) * (n - 1) / (n - k - 1))]. *)
Definition adjusted_r_squared (r_squared : float64) (n k : Z) : outcome float64 :=
  q <- py_truediv (fmul (fsub (Fin 1) r_squared) (of_Z (n - 1))) (n - k - 1) ;;
  Return (fsub (Fin 1) q).

(** The loop of [scaling_analysis_by_entity] over the groups, with the two
    lists it appends to; the histograms drawn from them are left out. *)
Fixpoint by_entity_loop (data : DataFrame) (log_x_col log_y_col : string)
  (es : list string) (beta_values adjusted_r_squared_values : list float64)
  : outcome (list float64 * list float64) :=
  match es with
  | [] => Return (beta_values, adjusted_r_squared_values)
  | e :: es' =>
      let g := mkDataFrame (columns data) (group data e) in
      if (1 <? List.length (rows g))%nat then
        log_x <- get_col g log_x_col ;;
        log_y <- get_col g log_y_col ;;
        result <- linregress log_x log_y ;;
        let n := Z.of_nat (List.length log_x) in
        let k := 1%Z in
        let r2 := fmul (lr_rvalue result) (lr_rvalue result) in
        adj <- adjusted_r_squared r2 n k ;;
        by_entity_loop data log_x_col log_y_col es'
          (beta_values ++ [lr_slope result])
          (adjusted_r_squared_values ++ [adj])
      else
        by_entity_loop data log_x_col log_y_col es'
          beta_values adjusted_r_squared_values
  end.

Definition scaling_analysis_by_entity (data : DataFrame)
  (log_x_col log_y_col : string) : outcome (list float64 * list float64) :=
  by_entity_loop data log_x_col log_y_col (entities data) [] [].

(** ** pipeline.py *)

Record ScalingPair : Type := mkPair {
  x_col : string;
  y_col : string;
  title : string;
  save_path : string
}.

Record AnalysisParams : Type := mkParams {
  year_min : option Z;
  year_max : option Z;
  null_threshold : Q;
  column_threshold : Q;
  log_base : R
}.

(** The fit of [analyze_scaling]; drawing and saving the figure is left out. *)
Definition analyze_scaling (df : DataFrame) (x_col y_col : string)
  : outcome RegressionResult :=
  x <- get_col df x_col ;;
  y <- get_col df y_col ;;
  fit_log_log_regression x y.

Definition LOG_COLUMNS : list string :=
  ["Population - Sex: all - Age: all - Variant: estimates";
   "GDP (output, multiple price benchmarks)";
   "Primary energy consumption (TWh)";
   "Urban population";
   "Rural population";
   "Land area (sq. km)"].

(** The chain of [.pipe] calls of [main]. *)
Definition filter_and_transform (df : DataFrame) (p : AnalysisParams)
  : DataFrame * outcome unit :=
  let df := remove_entities_without_iso df in
  let df := select_year_range df (year_min p) (year_max p) in
  let df := remove_high_null_entities df (null_threshold p) in
  let df := column_pct df (column_threshold p) in
  log_transform df LOG_COLUMNS (log_base p) "_log".

Definition years (df : DataFrame) : list Z :=
  sorted_unique_Z (map Year (rows df)).

Definition year_group (df : DataFrame) (y : Z) : list Row :=
  filter (fun r => (Year r =? y)%Z) (rows df).

Definition concat_strings (l : list string) : string :=
  fold_right String.append "" l.

Definition concat_codes (l : list (option string)) : option string :=
  Some (concat_strings
          (flat_map (fun o => match o with Some s => [s] | None => [] end) l)).

(** [world = df.groupby(['Year']).sum()]: one row per year, every measurement
    column summed over the rows of that year, nulls skipped (the sum of the
    strings of a year is their concatenation). *)
Definition groupby_year_sum (df : DataFrame) : DataFrame :=
  mkDataFrame (columns df)
    (map (fun y =>
            let g := year_group df y in
            mkRow (concat_strings (map Entity g)) (concat_codes (map Code g)) y
              (map (fun c => (c, nansum (map (fun r => cell r c) g))) (columns df)))
         (years df)).

Fixpoint dict_set {V : Type} (k : string) (v : V) (d : list (string * V))
  : list (string * V) :=
  match d with
  | [] => [(k, v)]
  | (k', v') :: d' =>
      if String.eqb k k' then (k', v) :: d' else (k', v') :: dict_set k v d'
  end.

Definition results_dict : Type := list (string * RegressionResult).

(** The loop of [main] over the scaling pairs: a pair whose fit raises is
    skipped, and its world fit with it. *)
Fixpoint run_pairs (df world : DataFrame) (pairs : list ScalingPair)
  (all_results all_world_results : results_dict) : results_dict * results_dict :=
  match pairs with
  | [] => (all_results, all_world_results)
  | sp :: rest =>
      match analyze_scaling df (x_col sp) (y_col sp) with
      | Raise _ => run_pairs df world rest all_results all_world_results
      | Return results =>
          let all_results := dict_set (title sp) results all_results in
          let world_title := (title sp ++ " (World)")%string in
          match analyze_scaling world (x_col sp) (y_col sp) with
          | Raise _ => run_pairs df world rest all_results all_world_results
          | Return world_results =>
              run_pairs df world rest all_results
                (dict_set world_title world_results all_world_results)
          end
      end
  end.

(** [main] from the chain of filters on. *)
Definition analyze (merged : DataFrame) (p : AnalysisParams)
  (pairs : list ScalingPair) : outcome (results_dict * results_dict) :=
  match filter_and_transform merged p with
  | (_, Raise e) => Raise e
  | (df, Return _) =>
      let world := groupby_year_sum df in
      Return (run_pairs df world pairs [] [])
  end.

(** ** The loops seen from one row, and sample panels *)

(** What the loop of [compute_per_capita] does to one row. *)
Definition per_capita_row (numerators : list string) (population_col suffix : string)
  (r : Row) : Row :=
  fold_left
    (fun r col =>
       set_cell (col ++ suffix)%string (fdiv (cell r col) (cell r population_col)) r)
    numerators r.

(** What the loop of [log_transform] does to one row. *)
Definition log_row (base : R) (suffix : string) (cols : list string) (r : Row) : Row :=
  fold_left
    (fun r col => set_cell (col ++ suffix)%string (log_value base (cell r col)) r)
    cols r.

Definition two_point_panel : DataFrame :=
  mkDataFrame ["log_x"; "log_y"]
    [mkRow "A" (Some "AAA") 2000 [("log_x", Fin 1); ("log_y", Fin 3)];
     mkRow "A" (Some "AAA") 2001 [("log_x", Fin 2); ("log_y", Fin 5)]].

Definition zero_population_panel : DataFrame :=
  mkDataFrame ["gdp"; "pop"]
    [mkRow "A" (Some "AAA") 2000 [("gdp", Fin 1); ("pop", Fin 0)]].

Definition negative_second_panel : DataFrame :=
  mkDataFrame ["a"; "b"]
    [mkRow "A" (Some "AAA") 2000 [("a", Fin 1); ("b", Fin (-1))]].


(** One entity, two rows, one measurement that is null in one of them. *)
Definition half_null_panel : DataFrame :=
  mkDataFrame ["x"]
    [mkRow "A" (Some "AAA") 2000 [("x", NaN)];
     mkRow "A" (Some "AAA") 2001 [("x", Fin 0)]].


(** One entity over three years, the middle value missing. *)
Definition midpoint_panel : DataFrame :=
  mkDataFrame ["x"]
    [mkRow "A" (Some "AAA") 2000 [("x", Fin 1)];
     mkRow "A" (Some "AAA") 2001 [("x", NaN)];
     mkRow "A" (Some "AAA") 2002 [("x", Fin 3)]].

(** Two entities: [A] has a single row, [B] has no value of [x] at all. *)
Definition sparse_panel : DataFrame :=
  mkDataFrame ["x"]
    [mkRow "B" (Some "BBB") 2000 [("x", NaN)];
     mkRow "A" (Some "AAA") 2000 [("x", NaN)];
     mkRow "B" (Some "BBB") 2001 [("x", NaN)]].


(** Two entities observed in the same year. *)
Definition two_entity_panel : DataFrame :=
  mkDataFrame ["P"]
    [mkRow "A" (Some "AAA") 2000 [("P", Fin 1)];
     mkRow "B" (Some "BBB") 2000 [("P", Fin 1)]].


(** ** Relations used in the statements below *)

(** [r'] is [r] except possibly in column [c]. *)
Definition same_but (c : string) (r r' : Row) : Prop :=
  Entity r' = Entity r /\ Code r' = Code r /\ Year r' = Year r
  /\ forall d, d <> c -> cell r' d = cell r d.

(** Every row of the frame has a cell for each column of the frame, in order. *)
Definition well_formed (df : DataFrame) : Prop :=
  forall r, In r (rows df) -> map fst (vals r) = columns df.

(** [m] is the outer merge of the tables [ts], whose columns are distinct. *)
Definition merged_from (ts : list DataFrame) (m : DataFrame) : Prop :=
  columns m = flat_map columns ts
  /\ well_formed m
  /\ (forall k, In k (map key (rows m))
                <-> exists t, In t ts /\ In k (map key (rows t)))
  /\ (forall x t c,
        In x (rows m) -> In t ts -> ~ In (key x) (map key (rows t)) ->
        In c (columns t) -> cell x c = NaN).

Definition population_table : DataFrame :=
  mkDataFrame ["pop"]
    [mkRow "A" (Some "AAA") 2000 [("pop", Fin 1)];
     mkRow "B" (Some "BBB") 2000 [("pop", Fin 2)]].

Definition gdp_table : DataFrame :=
  mkDataFrame ["gdp"]
    [mkRow "A" (Some "AAA") 2000 [("gdp", Fin 3)];
     mkRow "C" None 2001 [("gdp", Fin 4)]].

(** The measurement values of a row, in column order. *)
Definition values (r : Row) : list float64 := map snd (vals r).

Definition width (t : DataFrame) : nat := List.length (columns t).

Definition all_nan (vs : list float64) : Prop := Forall (fun v => v = NaN) vs.

(** The values [vs] of a merged row with identifier triple [k] are laid out
    table by table, in the order of [ts]: each table has a block as wide as
    its columns, and the block of a table without the triple [k] holds
    null markers only. *)
Fixpoint sourced (k : string * option string * Z) (ts : list DataFrame)
  (vs : list float64) : Prop :=
  match ts with
  | [] => vs = []
  | t :: ts' =>
      List.length (firstn (width t) vs) = width t
      /\ (~ In k (map key (rows t)) -> all_nan (firstn (width t) vs))
      /\ sourced k ts' (skipn (width t) vs)
  end.

(** Every row of [m] is laid out by the tables [ts]. *)
Definition laid_out (ts : list DataFrame) (m : DataFrame) : Prop :=
  List.length (columns m) = list_sum (map width ts)
  /\ forall x, In x (rows m) -> sourced (key x) ts (values x).

(** Two tables whose merge suffixes [v] into [v_x], a column that the left
    table has already. *)
Definition clash_left : DataFrame :=
  mkDataFrame ["v"; "v_x"]
    [mkRow "A" (Some "AAA") 2000 [("v", Fin 1); ("v_x", Fin 2)]].

Definition clash_right : DataFrame :=
  mkDataFrame ["v"]
    [mkRow "A" (Some "AAA") 2000 [("v", Fin 3)]].


(** The bounds of [select_year_range], an absent bound being no bound. *)
Definition above (lo : option Z) (y : Z) : Prop :=
  match lo with Some l => (l <= y)%Z | None => True end.

Definition below (hi : option Z) (y : Z) : Prop :=
  match hi with Some h => (y <= h)%Z | None => True end.


Definition is_finite (v : float64) : bool :=
  match v with Fin _ => true | _ => false end.

(** [r'] has the identifiers of [r] and every value that [r] has. *)
Definition keeps_present (r r' : Row) : Prop :=
  key r' = key r /\ forall c, isnull (cell r c) = false -> cell r' c = cell r c.

(** Points listed by strictly increasing position. *)
Definition by_position (p q : Z * float64) : Prop := (fst p < fst q)%Z.


(** The error of [linregress] for a constant abscissa. *)
Definition identical_x_error : exn :=
  ValueError "Cannot calculate a linear regression if all x values are identical".

(** [v] is NaN or a real number between [lo] and [hi]. *)
Definition nan_or_within (lo hi : R) (v : float64) : Prop :=
  v = NaN \/ exists q, v = Fin q /\ (lo <= q <= hi)%R.


(** The entities that [scaling_analysis_by_entity] fits: those with more than
    one row. *)
Definition fitted_entities (data : DataFrame) (es : list string) : list string :=
  filter (fun e => (1 <? List.length (group data e))%nat) es.


(** A panel with the six columns that [main] transforms, and the parameters
    of the default configuration. *)
Definition full_panel : DataFrame :=
  mkDataFrame LOG_COLUMNS
    [mkRow "A" (Some "AAA") 2000 (map (fun c => (c, Fin 1)) LOG_COLUMNS);
     mkRow "World" None 2000 (map (fun c => (c, Fin 9)) LOG_COLUMNS);
     mkRow "A" (Some "AAA") 2050 (map (fun c => (c, Fin 2)) LOG_COLUMNS)].

Definition default_params : AnalysisParams :=
  mkParams (Some 1990%Z) (Some 2019%Z) (8 # 10) (2 # 10) np_e.


(** What the four filters leave of [full_panel] under [default_params]. *)
Definition full_panel_kept : DataFrame :=
  mkDataFrame LOG_COLUMNS
    [mkRow "A" (Some "AAA") 2000 (map (fun c => (c, Fin 1)) LOG_COLUMNS)].


(** ** data.py: [check_nulls], and the column adjustments of [main] *)

(** What [check_nulls] prints: the number of distinct entities, and for each
    column, identifiers first, the percentage of null cells (for a frame
    that has rows). *)
Definition check_nulls (df : DataFrame) : nat * list Q :=
  (List.length (nodup string_dec (map Entity (rows df))),
   map (fun m => (m * 100)%Q) (null_means (columns df) (rows df))).

Definition MEDIUM_VARIANT : string :=
  "Population - Sex: all - Age: all - Variant: medium".
Definition ENERGY_TWH : string := "Primary energy consumption (TWh)".
Definition ENERGY_KWH : string := "Primary energy consumption (kWh)".

Record DataProcessing : Type := mkProcessing {
  remove_medium_variant : bool;
  convert_energy_units : bool
}.

(** [df.drop(columns=[c], inplace=True)] for a column that is present. *)
Definition drop_column (df : DataFrame) (c : string) : DataFrame :=
  mkDataFrame
    (filter (fun d => negb (String.eqb c d)) (columns df))
    (map (fun r =>
            mkRow (Entity r) (Code r) (Year r)
              (filter (fun kv => negb (String.eqb c (fst kv))) (vals r)))
         (rows df)).

(** The two adjustments of [main] between the merge and the filters. *)
Definition data_processing (df : DataFrame) (dp : DataProcessing) : DataFrame :=
  let df :=
    if remove_medium_variant dp && mem MEDIUM_VARIANT (columns df)
    then drop_column df MEDIUM_VARIANT else df in
  if convert_energy_units dp && mem ENERGY_TWH (columns df)
  then assign df ENERGY_KWH (fun r => fmul (cell r ENERGY_TWH) (of_Z (10 ^ 9)))
  else df.

(** * Properties *)

(** ** Reals as booleans, float cells *)

Lemma Rltb_true (a b : R) : (a < b)%R -> Rltb a b = true.
Proof. intros H. unfold Rltb. destruct (Rlt_dec a b); [reflexivity | contradiction]. Qed.

Lemma Rltb_false (a b : R) : (b <= a)%R -> Rltb a b = false.
Proof. intros H. unfold Rltb. destruct (Rlt_dec a b); [lra | reflexivity]. Qed.

Lemma Reqb_refl (a : R) : Reqb a a = true.
Proof. unfold Reqb. destruct (Req_dec_T a a); congruence. Qed.

Lemma Reqb_false (a b : R) : a <> b -> Reqb a b = false.
Proof. intros H. unfold Reqb. destruct (Req_dec_T a b); congruence. Qed.

Lemma Reqb_true_iff (a b : R) : Reqb a b = true <-> a = b.
Proof. unfold Reqb. destruct (Req_dec_T a b); split; congruence. Qed.

Lemma fdiv_NaN_r (v : float64) : fdiv v NaN = NaN.
Proof. destruct v; reflexivity. Qed.

Lemma fdiv_Fin (a b : R) : b <> 0%R -> fdiv (Fin a) (Fin b) = Fin (a / b).
Proof. intros H. simpl. rewrite (Reqb_false b 0 H). reflexivity. Qed.

Lemma fdiv_zero_isnull (v : float64) :
  isnull (fdiv v (Fin 0)) = true <-> v = NaN \/ v = Fin 0.
Proof.
  destruct v as [| | |a]; simpl.
  - tauto.
  - rewrite Rltb_false by lra. simpl. split; [discriminate | intros [H|H]; discriminate].
  - rewrite Rltb_false by lra. simpl. split; [discriminate | intros [H|H]; discriminate].
  - rewrite Reqb_refl. unfold Reqb. destruct (Req_dec_T a 0) as [->|Ha].
    + simpl. tauto.
    + destruct (Rltb a 0); simpl; (split; [discriminate | intros [H|H]; [discriminate | congruence]]).
Qed.

(** ** Strings, association lists *)

Lemma length_append (a b : string) :
  String.length (a ++ b) = (String.length a + String.length b)%nat.
Proof. induction a as [|c a IH]; simpl; [reflexivity | now rewrite IH]. Qed.

Lemma append_cancel_r (s a b : string) : (a ++ s = b ++ s)%string -> a = b.
Proof.
  revert b. induction a as [|c a IH]; intros [|d b] H; simpl in H.
  - reflexivity.
  - apply (f_equal String.length) in H. simpl in H. rewrite length_append in H. lia.
  - apply (f_equal String.length) in H. simpl in H. rewrite length_append in H. lia.
  - injection H as -> H. f_equal. now apply IH.
Qed.

Lemma mem_In (s : string) (l : list string) : mem s l = true <-> In s l.
Proof.
  unfold mem. rewrite existsb_exists. split.
  - intros [x [Hx Heq]]. apply String.eqb_eq in Heq. now subst.
  - intros H. exists s. split; [assumption | apply String.eqb_refl].
Qed.

Lemma mem_false (s : string) (l : list string) : mem s l = false <-> ~ In s l.
Proof.
  rewrite <- mem_In. destruct (mem s l); split; congruence.
Qed.

Lemma lookup_update_eq (c : string) (v : float64) (l : list (string * float64)) :
  lookup c (update c v l) = Some v.
Proof.
  induction l as [|[k w] l IH]; simpl.
  - now rewrite String.eqb_refl.
  - destruct (String.eqb c k) eqn:E; simpl; rewrite E; [reflexivity | exact IH].
Qed.

Lemma lookup_update_neq (c d : string) (v : float64) (l : list (string * float64)) :
  c <> d -> lookup d (update c v l) = lookup d l.
Proof.
  intros Hne. induction l as [|[k w] l IH]; simpl.
  - destruct (String.eqb_spec d c); congruence.
  - destruct (String.eqb_spec c k) as [->|Hck]; simpl.
    + destruct (String.eqb_spec d k); congruence.
    + now rewrite IH.
Qed.

Lemma cell_set_cell_eq (c : string) (v : float64) (r : Row) :
  cell (set_cell c v r) c = v.
Proof. unfold cell, set_cell. simpl. now rewrite lookup_update_eq. Qed.

Lemma cell_set_cell_neq (c d : string) (v : float64) (r : Row) :
  c <> d -> cell (set_cell c v r) d = cell r d.
Proof. intros H. unfold cell, set_cell. simpl. now rewrite lookup_update_neq. Qed.

Lemma columns_assign_incl (df : DataFrame) (c d : string) (f : Row -> float64) :
  In d (columns df) -> In d (columns (assign df c f)).
Proof.
  intros H. simpl. destruct (mem c (columns df)); [assumption | apply in_or_app; now left].
Qed.

Lemma columns_assign_new (df : DataFrame) (c : string) (f : Row -> float64) :
  In c (columns (assign df c f)).
Proof.
  simpl. destruct (mem c (columns df)) eqn:E.
  - now apply mem_In.
  - apply in_or_app. right. now left.
Qed.

Lemma get_col_present (df : DataFrame) (c : string) :
  In c (columns df) -> get_col df c = Return (map (fun r => cell r c) (rows df)).
Proof. intros H. unfold get_col. apply mem_In in H. now rewrite H. Qed.

(** ** Subsequences *)

Lemma Subsequence_refl {A : Type} (l : list A) : Subsequence l l.
Proof. induction l; [apply sub_nil | apply sub_keep; assumption]. Qed.

Lemma Subsequence_filter {A : Type} (f : A -> bool) (l : list A) :
  Subsequence (filter f l) l.
Proof.
  induction l as [|a l IH]; simpl; [constructor |].
  destruct (f a); [apply sub_keep | apply sub_skip]; assumption.
Qed.

Lemma Subsequence_trans {A : Type} (l1 l2 l3 : list A) :
  Subsequence l1 l2 -> Subsequence l2 l3 -> Subsequence l1 l3.
Proof.
  intros H12 H23. revert l1 H12.
  induction H23 as [|a l2 l3 H23 IH|a l2 l3 H23 IH]; intros l1 H12.
  - assumption.
  - constructor. now apply IH.
  - inversion H12; subst.
    + apply sub_skip. now apply IH.
    + apply sub_keep. now apply IH.
Qed.

Lemma Subsequence_In {A : Type} (l l' : list A) (a : A) :
  Subsequence l l' -> In a l -> In a l'.
Proof.
  induction 1; simpl; intros Hin; [assumption | right; auto |].
  destruct Hin; [now left | right; auto].
Qed.

(** ** The merge of no table *)

Lemma merge_loop_from_table (how : join) (rest : list DataFrame) :
  forall m, merge_loop (Some m) rest how <> Return None.
Proof.
  induction rest as [|t rest IH]; intros m; simpl; [discriminate |].
  destruct (pd_merge m t how) as [m' | e]; simpl; [apply IH | discriminate].
Qed.

(** C4, as the code has it: given an empty mapping, [merge_dict_datasets]
    returns [None], the initial value of [merged], whatever the join, and
    raises nothing; it returns [None] for no other input. *)
Theorem merge_empty_returns_None (datasets : list (string * DataFrame)) (how : join) :
  merge_dict_datasets datasets how = Return None <-> datasets = [].
Proof.
  split.
  - destruct datasets as [|[n t] ds]; [reflexivity |].
    unfold merge_dict_datasets. simpl. intros H.
    now apply merge_loop_from_table in H.
  - intros ->. reflexivity.
Qed.

(** C4 fails as stated: the merge of an empty mapping does not signal an error. *)
Lemma merge_empty_does_not_raise : ~ raises (merge_dict_datasets [] JOuter).
Proof. intros [e H]. discriminate H. Qed.

(** ** The filters *)

Lemma select_subset (keep : Row -> bool) (df : DataFrame) :
  columns (select keep df) = columns df
  /\ Subsequence (rows (select keep df)) (rows df).
Proof. split; [reflexivity | apply Subsequence_filter]. Qed.

(** C10: each of the four filter stages keeps the columns and returns rows of
    its input, unchanged and in their original relative order. *)
Theorem filters_return_row_subsets
  (df : DataFrame) (lo hi : option Z) (null_thr col_thr : Q) :
  Forall (fun out => columns out = columns df /\ Subsequence (rows out) (rows df))
    [remove_entities_without_iso df;
     select_year_range df lo hi;
     remove_high_null_entities df null_thr;
     column_pct df col_thr].
Proof.
  repeat constructor; try apply Subsequence_filter.
  - unfold select_year_range. destruct lo, hi; reflexivity.
  - unfold select_year_range. destruct lo as [lo|], hi as [hi|]; simpl.
    + eapply Subsequence_trans; apply Subsequence_filter.
    + apply Subsequence_filter.
    + apply Subsequence_filter.
    + apply Subsequence_refl.
Qed.

(** ** The global fit *)

Lemma fmean_single (a : float64) : fmean [a] = a.
Proof.
  unfold fmean, fsum, of_Z. simpl.
  destruct a as [| | |r]; simpl; try reflexivity.
  - now rewrite Rltb_false by lra.
  - now rewrite Rltb_false by lra.
  - rewrite Reqb_false by lra. f_equal. field.
Qed.

Lemma fsub_self (a : float64) : fsub a a = Fin 0 \/ fsub a a = NaN.
Proof.
  destruct a as [| | |r]; simpl; auto. left. unfold fsub. simpl. f_equal. lra.
Qed.

Lemma fdiv_NaN_l (v : float64) : fdiv NaN v = NaN.
Proof. reflexivity. Qed.

Lemma fmul_NaN_l (v : float64) : fmul NaN v = NaN.
Proof. reflexivity. Qed.

Lemma fmul_NaN_r (v : float64) : fmul v NaN = NaN.
Proof. destruct v; reflexivity. Qed.

Lemma fsub_NaN_r (v : float64) : fsub v NaN = NaN.
Proof. destruct v; reflexivity. Qed.

Lemma fdiv_zero_zero (a b : R) : a = 0%R -> b = 0%R -> fdiv (Fin a) (Fin b) = NaN.
Proof. intros -> ->. simpl. now rewrite Reqb_refl. Qed.

(** From one observation scipy's [linregress] raises nothing: the variance of
    [x] is zero and the slope is [0/0]. *)
Lemma linregress_single (a b : float64) :
  exists res, linregress [a] [b] = Return res
              /\ lr_slope res = NaN /\ lr_intercept res = NaN.
Proof.
  unfold linregress. simpl is_empty. simpl orb. cbv iota.
  replace (1 <? List.length [a])%nat with false by reflexivity.
  rewrite andb_false_r.
  replace (Z.of_nat (List.length [a]) =? 2)%Z with false by reflexivity.
  eexists. split; [reflexivity |]. simpl.
  rewrite !fmean_single.
  assert (Hs : fdiv (fmul (fsub a a) (fsub b b)) (fmul (fsub a a) (fsub a a)) = NaN).
  { destruct (fsub_self a) as [-> | ->]; [| reflexivity].
    destruct (fsub_self b) as [-> | ->]; [| reflexivity].
    simpl fmul. apply fdiv_zero_zero; lra. }
  rewrite Hs. split; [reflexivity |]. rewrite fmul_NaN_l. apply fsub_NaN_r.
Qed.

Lemma valid_pairs_not_nan (x y : list float64) (p : float64 * float64) :
  In p (valid_pairs x y) -> isnan (fst p) = false /\ isnan (snd p) = false.
Proof.
  unfold valid_pairs. rewrite filter_In. intros [_ H].
  apply andb_true_iff in H. destruct H as [H1 H2].
  now rewrite negb_true_iff in H1, H2.
Qed.

(** On arrays of the same length the fit is scipy's regression of the valid
    pairs. *)
Lemma fit_equal_lengths (x y : list float64) :
  List.length x = List.length y ->
  fit_log_log_regression x y
  = (res <- linregress (map fst (valid_pairs x y)) (map snd (valid_pairs x y)) ;;
     Return (mkRegression (lr_slope res) (lr_intercept res)
               (fmul (lr_rvalue res) (lr_rvalue res))
               (lr_pvalue res) (lr_stderr res))).
Proof.
  intros H. unfold fit_log_log_regression. rewrite H, Nat.eqb_refl. reflexivity.
Qed.

(** Arrays of different lengths never reach the regression. *)
Lemma fit_length_mismatch (x y : list float64) :
  List.length x <> List.length y ->
  fit_log_log_regression x y
  = Raise (length_mismatch_error (List.length x) (List.length y)).
Proof.
  intros H. unfold fit_log_log_regression.
  destruct (Nat.eqb_spec (List.length x) (List.length y)); [contradiction | reflexivity].
Qed.

(** scipy up to release 1.15 rejects empty input. *)
Lemma linregress_empty :
  linregress [] [] = Raise (ValueError "Inputs must not be empty.").
Proof. reflexivity. Qed.

(** C5, as the code has it, for two arrays of the same length: the positions
    with a null are dropped, and the fit has no check of its own on what is
    left.  With no pair left it raises exactly what scipy's [linregress]
    raises on empty input; with exactly one pair left nothing is raised, and
    the result carries a NaN slope and a NaN intercept. *)
Theorem fit_with_fewer_than_two_pairs (x y : list float64) :
  List.length x = List.length y ->
  (List.length (valid_pairs x y) < 2)%nat ->
  Subsequence (valid_pairs x y) (combine x y)
  /\ (forall p, In p (valid_pairs x y) ->
        isnan (fst p) = false /\ isnan (snd p) = false)
  /\ match valid_pairs x y with
     | [] =>
         forall e, fit_log_log_regression x y = Raise e <-> linregress [] [] = Raise e
     | _ =>
         exists res, fit_log_log_regression x y = Return res
                     /\ slope res = NaN /\ intercept res = NaN
     end.
Proof.
  intros Heq Hlen. split; [apply Subsequence_filter |].
  split; [apply valid_pairs_not_nan |].
  rewrite (fit_equal_lengths x y Heq).
  destruct (valid_pairs x y) as [|[a b] [|q l]] eqn:E; simpl in Hlen.
  - intros e. simpl map. destruct (linregress [] []) as [res | e'] eqn:El; simpl.
    + split; discriminate.
    + split; intros H; inversion H; reflexivity.
  - simpl map. destruct (linregress_single a b) as [res [Hres [Hs Hi]]].
    rewrite Hres. simpl. eexists. split; [reflexivity |]. simpl. now split.
  - lia.
Qed.

Lemma fit_with_fewer_than_two_pairs_witness :
  exists res, fit_log_log_regression [Fin 1; NaN] [Fin 2; Fin 3] = Return res
              /\ slope res = NaN /\ intercept res = NaN.
Proof.
  apply (fit_with_fewer_than_two_pairs [Fin 1; NaN] [Fin 2; Fin 3]).
  - reflexivity.
  - simpl. lia.
Defined.

(** C5 fails as stated: with a single valid pair the fit returns. *)
Lemma fit_single_pair_does_not_raise :
  List.length (valid_pairs [Fin 1; NaN] [Fin 2; Fin 3]) = 1%nat
  /\ ~ raises (fit_log_log_regression [Fin 1; NaN] [Fin 2; Fin 3]).
Proof.
  split; [reflexivity |]. intros [e H].
  rewrite fit_equal_lengths in H by reflexivity.
  simpl valid_pairs in H. simpl map in H.
  destruct (linregress_single (Fin 1) (Fin 2)) as [res [Hres _]].
  rewrite Hres in H. discriminate H.
Qed.

(** ** The fit per entity *)

Lemma adjusted_r_squared_two_points (r_squared : float64) :
  adjusted_r_squared r_squared 2 1 = Raise ZeroDivisionError.
Proof. reflexivity. Qed.

Lemma adjusted_r_squared_formula (r_squared : float64) (n : Z) :
  n <> 2%Z ->
  adjusted_r_squared r_squared n 1 =
    Return (fsub (Fin 1)
              (fdiv (fmul (fsub (Fin 1) r_squared) (of_Z (n - 1))) (of_Z (n - 1 - 1)))).
Proof.
  intros Hn. unfold adjusted_r_squared, py_truediv.
  destruct (Z.eqb_spec (n - 1 - 1) 0); [lia | reflexivity].
Qed.

(** Two observations with distinct finite abscissas are accepted by [linregress]. *)
Lemma linregress_two_points (a b : R) (y0 y1 : float64) :
  a <> b -> exists res, linregress [Fin a; Fin b] [y0; y1] = Return res.
Proof.
  intros Hab. unfold linregress. simpl is_empty. simpl orb. cbv iota.
  assert (Hne : feqb (amax [Fin a; Fin b]) (amin [Fin a; Fin b]) = false).
  { simpl. unfold fmax2, fmin2. simpl. unfold Rltb.
    destruct (Rlt_dec a b), (Rlt_dec b a); simpl; apply Reqb_false; lra. }
  rewrite Hne. simpl andb. cbv iota.
  replace (Z.of_nat (List.length [Fin a; Fin b]) =? 2)%Z with true by reflexivity.
  eexists. reflexivity.
Qed.

(** An entity with a single observation is passed over. *)
Lemma by_entity_loop_skips_sparse (data : DataFrame) (log_x_col log_y_col e : string)
  (es : list string) (betas adjusted : list float64) :
  (List.length (group data e) < 2)%nat ->
  by_entity_loop data log_x_col log_y_col (e :: es) betas adjusted
  = by_entity_loop data log_x_col log_y_col es betas adjusted.
Proof.
  intros H. simpl.
  destruct (Nat.ltb_spec 1 (List.length (group data e))); [lia | reflexivity].
Qed.

(** C9, the defect: an entity with exactly two observations passes the guard
    [len(group) > 1], its regression succeeds, and the adjusted R-squared then
    divides by [n - k - 1 = 0]: the whole analysis raises [ZeroDivisionError]
    instead of reporting a value for that entity. *)
Theorem by_entity_two_observations_raises :
  List.length (group two_point_panel "A") = 2%nat
  /\ scaling_analysis_by_entity two_point_panel "log_x" "log_y"
     = Raise ZeroDivisionError.
Proof.
  split; [reflexivity |].
  unfold scaling_analysis_by_entity.
  replace (entities two_point_panel) with ["A"] by reflexivity.
  unfold by_entity_loop.
  replace (group two_point_panel "A") with (rows two_point_panel) by reflexivity.
  simpl rows. simpl List.length. simpl Nat.ltb. cbv iota.
  unfold get_col. simpl columns. simpl mem. cbv iota. simpl rows.
  unfold bind at 1 2. unfold cell. simpl.
  destruct (linregress_two_points 1 2 (Fin 3) (Fin 5)) as [res Hres]; [lra |].
  rewrite Hres. reflexivity.
Qed.

(** ** Per-capita columns *)

Lemma Forall2_map_r {A B : Type} (P : A -> B -> Prop) (f : A -> B) (l : list A) :
  (forall a, In a l -> P a (f a)) -> Forall2 P l (map f l).
Proof.
  induction l as [|a l IH]; intros H; simpl; constructor.
  - apply H. now left.
  - apply IH. intros b Hb. apply H. now right.
Qed.

Lemma compute_per_capita_rows (nums : list string) (pop s : string) :
  forall df,
    (forall n, In n nums -> In n (columns df)) ->
    In pop (columns df) ->
    exists df',
      compute_per_capita df nums pop s = (df', Return tt)
      /\ rows df' = map (per_capita_row nums pop s) (rows df)
      /\ (forall c, In c (columns df) -> In c (columns df'))
      /\ (forall n, In n nums -> In (n ++ s)%string (columns df')).
Proof.
  induction nums as [|col rest IH]; intros df Hnums Hpop.
  - exists df. simpl. repeat split; try tauto. now rewrite map_id.
  - simpl compute_per_capita.
    rewrite (get_col_present df col) by (apply Hnums; now left).
    rewrite (get_col_present df pop) by assumption.
    set (df1 := assign df (col ++ s)%string
                  (fun r => fdiv (cell r col) (cell r pop))).
    destruct (IH df1) as [df' [Hrun [Hrows [Hcols Hnew]]]].
    + intros n Hn. apply columns_assign_incl. apply Hnums. now right.
    + now apply columns_assign_incl.
    + exists df'. split; [exact Hrun |]. split; [| split].
      * rewrite Hrows. unfold df1. simpl rows. rewrite map_map. reflexivity.
      * intros c Hc. apply Hcols. now apply columns_assign_incl.
      * intros n [<- | Hn]; [| now apply Hnew].
        apply Hcols. apply columns_assign_new.
Qed.

Lemma per_capita_row_cons (col : string) (rest : list string) (pop s : string)
  (r : Row) :
  per_capita_row (col :: rest) pop s r
  = per_capita_row rest pop s
      (set_cell (col ++ s)%string (fdiv (cell r col) (cell r pop)) r).
Proof. reflexivity. Qed.

Lemma per_capita_row_ids (nums : list string) (pop s : string) :
  forall r, let r' := per_capita_row nums pop s r in
            Entity r' = Entity r /\ Code r' = Code r /\ Year r' = Year r.
Proof.
  induction nums as [|col rest IH]; intros r; [simpl; tauto |].
  rewrite per_capita_row_cons. apply (IH (set_cell _ _ r)).
Qed.

Lemma per_capita_row_other (nums : list string) (pop s c : string) :
  forall r, (forall m, In m nums -> (m ++ s)%string <> c) ->
            cell (per_capita_row nums pop s r) c = cell r c.
Proof.
  induction nums as [|col rest IH]; intros r H; [reflexivity |].
  rewrite per_capita_row_cons, IH.
  - apply cell_set_cell_neq. apply H. now left.
  - intros m Hm. apply H. now right.
Qed.

Lemma per_capita_row_derived (nums : list string) (pop s n : string) :
  forall r,
    (forall m, In m nums -> ~ In (m ++ s)%string (pop :: nums)) ->
    In n nums ->
    cell (per_capita_row nums pop s r) (n ++ s) = fdiv (cell r n) (cell r pop).
Proof.
  induction nums as [|col rest IH]; intros r Hfresh Hn; [destruct Hn |].
  rewrite per_capita_row_cons.
  set (r1 := set_cell (col ++ s)%string (fdiv (cell r col) (cell r pop)) r).
  assert (Hcol : forall c, In c (pop :: col :: rest) -> cell r1 c = cell r c).
  { intros c Hc. apply cell_set_cell_neq. intros Heq. subst c.
    apply (Hfresh col); [now left | exact Hc]. }
  destruct (in_dec string_dec n rest) as [Hin | Hnin].
  - rewrite IH.
    + rewrite !Hcol; [reflexivity | now left | right; now right].
    + intros m Hm Hbad. apply (Hfresh m); [now right |].
      destruct Hbad as [<- | Hbad]; [now left | right; now right].
    + exact Hin.
  - destruct Hn as [<- | Hn]; [| contradiction].
    rewrite per_capita_row_other.
    + apply cell_set_cell_eq.
    + intros m Hm Heq. apply append_cancel_r in Heq. subst m. contradiction.
Qed.

(** C3, as the code has it: each derived cell is the numerator cell divided by
    the population cell, the identifiers and the two source columns are left
    alone, and nothing is raised.  A null population gives a null; a zero
    population gives a null exactly when the numerator is itself null or zero,
    and a signed infinity otherwise. *)
Theorem per_capita_division (df : DataFrame) (nums : list string) (pop s : string) :
  (forall n, In n nums -> In n (columns df)) ->
  In pop (columns df) ->
  (forall m, In m nums -> ~ In (m ++ s)%string (pop :: nums)) ->
  exists df',
    compute_per_capita df nums pop s = (df', Return tt)
    /\ Forall2
         (fun r r' =>
            Entity r' = Entity r /\ Code r' = Code r /\ Year r' = Year r
            /\ forall n, In n nums ->
                 cell r' n = cell r n
                 /\ cell r' pop = cell r pop
                 /\ cell r' (n ++ s) = fdiv (cell r n) (cell r pop)
                 /\ (cell r pop = NaN -> cell r' (n ++ s) = NaN)
                 /\ (cell r pop = Fin 0 ->
                     (isnull (cell r' (n ++ s)) = true
                      <-> cell r n = NaN \/ cell r n = Fin 0)))
         (rows df) (rows df').
Proof.
  intros Hnums Hpop Hfresh.
  destruct (compute_per_capita_rows nums pop s df Hnums Hpop)
    as [df' [Hrun [Hrows _]]].
  exists df'. split; [exact Hrun |]. rewrite Hrows.
  apply Forall2_map_r. intros r _.
  destruct (per_capita_row_ids nums pop s r) as [He [Hc Hy]].
  repeat split; try assumption.
  - apply per_capita_row_other. intros m Hm Heq. subst n.
    apply (Hfresh m Hm). now right.
  - apply per_capita_row_other. intros m Hm Heq.
    apply (Hfresh m Hm). rewrite Heq. now left.
  - now apply per_capita_row_derived.
  - intros Hnull. rewrite per_capita_row_derived by assumption.
    rewrite Hnull. apply fdiv_NaN_r.
  - rewrite per_capita_row_derived by assumption. rewrite H0.
    apply fdiv_zero_isnull.
  - rewrite per_capita_row_derived by assumption. rewrite H0.
    apply fdiv_zero_isnull.
Qed.

Lemma per_capita_division_witness :
  exists df',
    compute_per_capita zero_population_panel ["gdp"] "pop" "_per_capita"
    = (df', Return tt)
    /\ List.length (rows df') = 1%nat.
Proof.
  destruct (per_capita_division zero_population_panel ["gdp"] "pop" "_per_capita")
    as [df' [Hrun Hrows]].
  - intros n [<- | []]. simpl. now left.
  - simpl. right. now left.
  - intros m [<- | []] [H | [H | []]]; discriminate H.
  - exists df'. split; [exact Hrun |].
    apply Forall2_length in Hrows. now rewrite <- Hrows.
Defined.

(** C3 fails as stated: a zero population under a non-zero numerator gives an
    infinity, which is not a null. *)
Lemma per_capita_zero_population_not_null :
  exists df' r',
    compute_per_capita zero_population_panel ["gdp"] "pop" "_per_capita"
    = (df', Return tt)
    /\ map (fun r => cell r "pop") (rows zero_population_panel) = [Fin 0]
    /\ rows df' = [r']
    /\ cell r' "gdp_per_capita" = PInf
    /\ isnull (cell r' "gdp_per_capita") = false.
Proof.
  eexists. eexists. split; [reflexivity |]. split; [reflexivity |].
  split; [reflexivity |].
  unfold cell. simpl.
  rewrite Reqb_refl, (Reqb_false 1 0), (Rltb_false 1 0) by lra.
  split; reflexivity.
Qed.

(** ** The log transform *)

Lemma log_transform_app (base : R) (s : string) (pre post : list string) :
  forall df,
    log_transform df (pre ++ post) base s =
    match log_transform df pre base s with
    | (df1, Return _) => log_transform df1 post base s
    | (df1, Raise e) => (df1, Raise e)
    end.
Proof.
  induction pre as [|col rest IH]; intros df; simpl; [reflexivity |].
  destruct (get_col df col) as [xs | e]; [| reflexivity].
  destruct (any_negative xs); [reflexivity | apply IH].
Qed.

Lemma log_row_cons (base : R) (s col : string) (rest : list string) (r : Row) :
  log_row base s (col :: rest) r
  = log_row base s rest (set_cell (col ++ s)%string (log_value base (cell r col)) r).
Proof. reflexivity. Qed.

Lemma log_transform_rows (base : R) (s : string) (cols : list string) :
  forall df df1,
    log_transform df cols base s = (df1, Return tt) ->
    rows df1 = map (log_row base s cols) (rows df)
    /\ (forall c, In c (columns df) -> In c (columns df1))
    /\ (forall p, In p cols -> In (p ++ s)%string (columns df1)).
Proof.
  induction cols as [|col rest IH]; intros df df1 H; simpl in H.
  - injection H as <-. simpl. rewrite map_id. repeat split; tauto.
  - destruct (get_col df col) as [xs | e]; [| discriminate H].
    destruct (any_negative xs); [discriminate H |].
    apply IH in H. destruct H as [Hrows [Hcols Hnew]].
    split; [| split].
    + rewrite Hrows. simpl rows. rewrite map_map. reflexivity.
    + intros c Hc. apply Hcols. now apply columns_assign_incl.
    + intros p [<- | Hp]; [| now apply Hnew].
      apply Hcols. apply columns_assign_new.
Qed.

(** C2, as the code has it: each requested column is checked just before its
    own transformation.  When the columns [pre] have been transformed, leaving
    the dataframe as [df1], and the next column [c] holds a negative value, the
    call raises the validation error for [c] and leaves the dataframe as [df1]:
    the derived columns of [pre] are in it, and nothing is derived from [c] or
    from the columns after it. *)
Theorem log_transform_negative_column
  (df df1 : DataFrame) (pre post : list string) (c : string) (base : R) (s : string) :
  log_transform df pre base s = (df1, Return tt) ->
  In c (columns df1) ->
  any_negative (map (fun r => cell r c) (rows df1)) = true ->
  log_transform df (pre ++ c :: post) base s = (df1, Raise (negative_values_error c))
  /\ rows df1 = map (log_row base s pre) (rows df)
  /\ (forall p, In p pre -> In (p ++ s)%string (columns df1))
  /\ (pre = [] -> df1 = df).
Proof.
  intros Hpre Hc Hneg. split; [| split; [| split]].
  - rewrite log_transform_app, Hpre. simpl.
    rewrite (get_col_present df1 c Hc), Hneg. reflexivity.
  - now apply (log_transform_rows base s pre df df1).
  - now apply (log_transform_rows base s pre df df1).
  - intros ->. simpl in Hpre. now injection Hpre.
Qed.

Lemma log_value_one : log_value np_e (Fin 1) = Fin (ln (1 + 1)).
Proof.
  unfold log_value. rewrite Reqb_refl. simpl.
  now rewrite Rltb_false, Reqb_false by lra.
Qed.

Lemma negative_second_panel_prefix :
  log_transform negative_second_panel ["a"] np_e "_log"
  = (assign negative_second_panel "a_log" (fun r => log_value np_e (cell r "a")),
     Return tt).
Proof.
  simpl. unfold get_col. simpl. unfold any_negative, cell. simpl.
  now rewrite Rltb_false by lra.
Qed.

Lemma log_transform_negative_column_witness :
  log_transform negative_second_panel ["a"; "b"] np_e "_log"
  = (assign negative_second_panel "a_log" (fun r => log_value np_e (cell r "a")),
     Raise (negative_values_error "b")).
Proof.
  apply (log_transform_negative_column negative_second_panel _ ["a"] [] "b" np_e "_log").
  - exact negative_second_panel_prefix.
  - simpl. right. now left.
  - unfold any_negative, cell. simpl. rewrite Rltb_true by lra. reflexivity.
Defined.

(** C2 fails as stated: the negative value sits in the second requested
    column, the call raises, and the dataframe has gained the derived column of
    the first. *)
Lemma log_transform_mutates_before_raising :
  exists df',
    log_transform negative_second_panel ["a"; "b"] np_e "_log"
    = (df', Raise (negative_values_error "b"))
    /\ columns negative_second_panel = ["a"; "b"]
    /\ columns df' = ["a"; "b"; "a_log"]
    /\ df' <> negative_second_panel.
Proof.
  exists (assign negative_second_panel "a_log"
            (fun r => log_value np_e (cell r "a"))).
  split; [| split; [reflexivity | split; [reflexivity |]]].
  - change ["a"; "b"] with (["a"] ++ ["b"]) at 1.
    rewrite log_transform_app, negative_second_panel_prefix. simpl.
    unfold get_col, any_negative, cell. simpl. rewrite Rltb_true by lra. reflexivity.
  - intros H. apply (f_equal columns) in H. discriminate H.
Qed.

(** ** Group keys *)

Lemma insert_string_In (s x : string) (l : list string) :
  In x (insert_string s l) <-> x = s \/ In x l.
Proof.
  induction l as [|t l IH]; simpl.
  - intuition.
  - destruct (String.leb s t); simpl; [intuition |].
    rewrite IH. intuition.
Qed.

Lemma insert_string_NoDup (s : string) (l : list string) :
  ~ In s l -> NoDup l -> NoDup (insert_string s l).
Proof.
  induction l as [|t l IH]; simpl; intros Hs Hl.
  - constructor; [tauto | constructor].
  - destruct (String.leb s t).
    + constructor; [simpl; tauto | exact Hl].
    + inversion Hl as [|? ? Ht Hl']; subst. constructor.
      * rewrite insert_string_In. intros [-> | H]; tauto.
      * apply IH; tauto.
Qed.

Lemma sorted_unique_In (x : string) (l : list string) :
  In x (sorted_unique l) <-> In x l.
Proof.
  unfold sorted_unique. rewrite <- (nodup_In string_dec l x).
  induction (nodup string_dec l) as [|t l' IH]; simpl; [tauto |].
  rewrite insert_string_In, IH. intuition.
Qed.

Lemma sorted_unique_NoDup (l : list string) : NoDup (sorted_unique l).
Proof.
  unfold sorted_unique. pose proof (NoDup_nodup string_dec l) as H.
  induction H as [|t l' Ht Hl IH]; simpl; [constructor |].
  apply insert_string_NoDup; [| exact IH].
  intros Hin. apply Ht. clear -Hin.
  induction l' as [|u l' IH]; simpl in *; [assumption |].
  apply insert_string_In in Hin. destruct Hin as [-> | Hin]; [now left | right; auto].
Qed.

Lemma entities_In (df : DataFrame) (e : string) :
  In e (entities df) <-> exists r, In r (rows df) /\ Entity r = e.
Proof.
  unfold entities. rewrite sorted_unique_In, in_map_iff.
  split; intros [r [H1 H2]]; exists r; tauto.
Qed.

Lemma group_Entity (df : DataFrame) (e : string) (r : Row) :
  In r (group df e) -> Entity r = e.
Proof.
  unfold group. rewrite filter_In. intros [_ H]. now apply String.eqb_eq.
Qed.

Lemma group_absent (df : DataFrame) (e : string) :
  ~ In e (entities df) -> group df e = [].
Proof.
  intros H. unfold group.
  destruct (filter (fun r => String.eqb (Entity r) e) (rows df)) as [|r l] eqn:E;
    [reflexivity |].
  exfalso. apply H. apply entities_In. exists r.
  assert (Hin : In r (filter (fun r => String.eqb (Entity r) e) (rows df)))
    by (rewrite E; now left).
  apply filter_In in Hin. destruct Hin as [Hin Heq].
  split; [exact Hin | now apply String.eqb_eq].
Qed.

Lemma filter_all {A : Type} (f : A -> bool) (l : list A) :
  (forall a, In a l -> f a = true) -> filter f l = l.
Proof.
  induction l as [|a l IH]; intros H; simpl; [reflexivity |].
  rewrite (H a (or_introl eq_refl)). f_equal. apply IH. intros b Hb. apply H. now right.
Qed.

Lemma filter_none {A : Type} (f : A -> bool) (l : list A) :
  (forall a, In a l -> f a = false) -> filter f l = [].
Proof.
  induction l as [|a l IH]; intros H; simpl; [reflexivity |].
  rewrite (H a (or_introl eq_refl)). apply IH. intros b Hb. apply H. now right.
Qed.

(** Rows laid out group by group: the rows of one entity are those of its group. *)
Lemma filter_groups (F : string -> list Row) (e : string) (es : list string) :
  NoDup es ->
  (forall e' r, In r (F e') -> Entity r = e') ->
  filter (fun r => String.eqb (Entity r) e) (flat_map F es)
  = if mem e es then F e else [].
Proof.
  intros Hnd HF. induction Hnd as [|e' es Hnotin Hnd IH]; [reflexivity |].
  simpl flat_map. rewrite filter_app, IH. simpl mem.
  destruct (String.eqb_spec e e') as [-> | Hne]; simpl.
  - apply mem_false in Hnotin. rewrite Hnotin, app_nil_r.
    apply filter_all. intros r Hr. rewrite (HF e' r Hr). apply String.eqb_refl.
  - rewrite filter_none; [reflexivity |].
    intros r Hr. rewrite (HF e' r Hr). destruct (String.eqb_spec e' e); congruence.
Qed.

(** ** The two entity filters *)

Lemma Qltb_lt (a b : Q) : Qltb a b = true <-> (a < b)%Q.
Proof. unfold Qltb, Qlt. apply Z.ltb_lt. Qed.

Lemma Qsum_below (t : Q) (l : list Q) :
  l <> [] ->
  (forall m, In m l -> (m < t)%Q) ->
  (Qsum l < inject_Z (Z.of_nat (List.length l)) * t)%Q.
Proof.
  induction l as [|a l IH]; intros Hne Hall; [congruence |].
  assert (Ha : (a < t)%Q) by (apply Hall; now left).
  destruct l as [|b l'].
  - change (Qsum [a]) with (a + 0)%Q.
    change (inject_Z (Z.of_nat (List.length [a]))) with 1%Q. Lqa.lra.
  - assert (IH' : (Qsum (b :: l') < inject_Z (Z.of_nat (List.length (b :: l'))) * t)%Q).
    { apply IH; [discriminate |]. intros m Hm. apply Hall. now right. }
    change (Qsum (a :: b :: l')) with (a + Qsum (b :: l'))%Q.
    change (List.length (a :: b :: l')) with (S (List.length (b :: l'))).
    rewrite Nat2Z.inj_succ, <- Z.add_1_r, inject_Z_plus.
    change (inject_Z 1) with 1%Q. Lqa.lra.
Qed.

Lemma Qmean_below (t : Q) (l : list Q) :
  l <> [] -> (forall m, In m l -> (m < t)%Q) -> (Qmean l < t)%Q.
Proof.
  intros Hne Hall. unfold Qmean. apply Qlt_shift_div_r.
  - change 0%Q with (inject_Z 0). rewrite <- Zlt_Qlt.
    destruct l; [congruence | simpl; lia].
  - rewrite Qmult_comm. now apply Qsum_below.
Qed.

Lemma null_means_nonempty (cols : list string) (g : list Row) :
  null_means cols g <> [].
Proof. unfold null_means, null_tests. simpl. discriminate. Qed.

Lemma Subsequence_filter_impl {A : Type} (f g : A -> bool) (l : list A) :
  (forall a, In a l -> f a = true -> g a = true) ->
  Subsequence (filter f l) (filter g l).
Proof.
  induction l as [|a l IH]; intros H; simpl; [apply sub_nil |].
  assert (IH' : Subsequence (filter f l) (filter g l)).
  { apply IH. intros b Hb. apply H. now right. }
  destruct (f a) eqn:Ef.
  - rewrite (H a (or_introl eq_refl) Ef). now apply sub_keep.
  - destruct (g a); [now apply sub_skip | exact IH'].
Qed.

Lemma valid_entities_spec (df : DataFrame) (thr : Q) (e : string) :
  In e (valid_entities df thr)
  <-> In e (entities df)
      /\ forall m, In m (null_means (columns df) (group df e)) -> (m * 100 < thr)%Q.
Proof.
  unfold valid_entities. rewrite filter_In, forallb_forall.
  split; intros [He H]; (split; [exact He |]); intros m Hm;
    apply Qltb_lt; now apply H.
Qed.

Lemma Zpos_of_nat (n : nat) : n <> 0%nat -> Z.pos (Pos.of_nat n) = Z.of_nat n.
Proof. intros H. now rewrite <- positive_nat_Z, Nat2Pos.id. Qed.

Lemma filter_forallb {A : Type} (f : A -> bool) (l : list A) :
  forallb f l = true -> filter f l = l.
Proof.
  induction l as [|a l IH]; simpl; [reflexivity |].
  intros H. apply andb_true_iff in H. destruct H as [Ha Hl].
  now rewrite Ha, IH.
Qed.

(** A column that is null in every row of a non-empty group has the null
    fraction [n/n], a percentage of 100. *)
Lemma null_fraction_of_null_column (t : Row -> bool) (g : list Row) :
  g <> [] -> forallb t g = true ->
  ((Z.of_nat (count t g) # Pos.of_nat (List.length g)) * 100 == 100)%Q.
Proof.
  intros Hne Hall. unfold count. rewrite (filter_forallb t g Hall).
  unfold Qeq, Qmult. simpl Qnum. simpl Qden.
  rewrite Pos2Z.inj_mul, Zpos_of_nat by (destruct g; [congruence | discriminate]).
  ring.
Qed.

Lemma valid_entities_no_null_column (df : DataFrame) (thr : Q) (e : string) :
  (thr <= 100)%Q ->
  In e (valid_entities df thr) ->
  forall t, In t (null_tests (columns df)) ->
            exists r, In r (group df e) /\ t r = false.
Proof.
  intros Hthr He t Ht. apply valid_entities_spec in He. destruct He as [He Hall].
  destruct (forallb t (group df e)) eqn:Ef.
  - exfalso.
    assert (Hne : group df e <> []).
    { apply entities_In in He. destruct He as [r [Hr Her]].
      intros Hnil. assert (Hin : In r (group df e)).
      { unfold group. apply filter_In. split; [exact Hr |]. now apply String.eqb_eq. }
      rewrite Hnil in Hin. destruct Hin. }
    pose proof (null_fraction_of_null_column t (group df e) Hne Ef) as Hq.
    assert (Hm : In (Z.of_nat (count t (group df e))
                     # Pos.of_nat (List.length (group df e)))%Q
                    (null_means (columns df) (group df e))).
    { unfold null_means. apply in_map_iff. exists t. split; [reflexivity | exact Ht]. }
    specialize (Hall _ Hm). Lqa.lra.
  - assert (Hex : existsb (fun r => negb (t r)) (group df e) = true).
    { clear - Ef. induction (group df e) as [|a l IH]; simpl in *; [discriminate |].
      destruct (t a); simpl in *; [now apply IH | reflexivity]. }
    apply existsb_exists in Hex. destruct Hex as [r [Hr Hneg]].
    exists r. split; [exact Hr |]. now apply negb_true_iff.
Qed.

(** C6, as the code has it: the fine filter judges every column by itself, so
    with a threshold of at most 100 it retains no entity one of whose columns
    is null in every row of the group; and when its threshold, a percentage,
    is at most a hundred times the threshold of the coarse filter, a
    fraction, every entity the fine filter retains is retained by the coarse
    one, and so is every row. *)
Theorem fine_filter_within_coarse (df : DataFrame) (col_thr null_thr : Q) :
  (col_thr <= 100 * null_thr)%Q ->
  (forall e, In e (valid_entities df col_thr) -> In e (keep_entities df null_thr))
  /\ Subsequence (rows (column_pct df col_thr))
                 (rows (remove_high_null_entities df null_thr))
  /\ ((col_thr <= 100)%Q ->
      forall e, In e (valid_entities df col_thr) ->
      forall t, In t (null_tests (columns df)) ->
                exists r, In r (group df e) /\ t r = false).
Proof.
  intros Hthr.
  assert (Hincl : forall e, In e (valid_entities df col_thr) ->
                            In e (keep_entities df null_thr)).
  { intros e He. apply valid_entities_spec in He. destruct He as [He Hall].
    unfold keep_entities. apply filter_In. split; [exact He |].
    apply Qltb_lt. unfold null_pct. apply Qmean_below.
    - apply null_means_nonempty.
    - intros m Hm. specialize (Hall m Hm). Lqa.lra. }
  split; [exact Hincl | split].
  - unfold column_pct, remove_high_null_entities, select. simpl rows.
    apply Subsequence_filter_impl. intros r _ Hr.
    apply mem_In. apply Hincl. now apply mem_In.
  - intros H100 e He. now apply (valid_entities_no_null_column df col_thr).
Qed.

Lemma fine_filter_within_coarse_witness :
  In "A" (keep_entities half_null_panel (6 # 10)).
Proof.
  apply (fine_filter_within_coarse half_null_panel 60 (6 # 10)).
  - unfold Qle. simpl. lia.
  - simpl. now left.
Defined.

(** C6 fails as stated: the two thresholds are separate parameters, and with
    a coarse threshold of 0.1 and a fine threshold of 60 percent the fine
    filter retains an entity that the coarse filter removes. *)
Lemma fine_filter_not_within_coarse :
  null_means (columns half_null_panel) (group half_null_panel "A")
  = [0 # 2; 0 # 2; 0 # 2; 1 # 2]%Q
  /\ valid_entities half_null_panel 60 = ["A"]
  /\ keep_entities half_null_panel (1 # 10) = []
  /\ rows (column_pct half_null_panel 60) = rows half_null_panel
  /\ rows (remove_high_null_entities half_null_panel (1 # 10)) = []
  /\ ~ (forall e, In e (valid_entities half_null_panel 60) ->
                  In e (keep_entities half_null_panel (1 # 10))).
Proof.
  repeat split; try reflexivity.
  intros H. apply (H "A"). simpl. now left.
Qed.

(** ** Interpolation *)

Lemma apply_fills_same_but (c : string) (fs : list (option float64)) :
  forall g, Forall2 (same_but c) g (apply_fills c fs g).
Proof.
  assert (Hrefl : forall g, Forall2 (same_but c) g g).
  { induction g; constructor; [repeat split | assumption]. }
  induction fs as [|[v|] fs IH]; intros [|r g]; simpl; try apply Hrefl.
  - constructor; [| apply IH]. repeat split.
    intros d Hd. apply cell_set_cell_neq. congruence.
  - constructor; [repeat split | apply IH].
Qed.

Lemma apply_fills_none (c : string) {A : Type} (l : list A) :
  forall g, apply_fills c (map (fun _ => None) l) g = g.
Proof.
  induction l as [|a l IH]; intros [|r g]; simpl; try reflexivity.
  now rewrite IH.
Qed.

Lemma Forall2_In_r {A B : Type} (P : A -> B -> Prop) (l : list A) (l' : list B)
  (b : B) :
  Forall2 P l l' -> In b l' -> exists a, In a l /\ P a b.
Proof.
  induction 1 as [|x y l l' Hxy _ IH]; simpl; intros Hin; [destruct Hin |].
  destruct Hin as [<- | Hin].
  - exists x. split; [now left | assumption].
  - destruct (IH Hin) as [a [Ha HP]]. exists a. split; [now right | assumption].
Qed.

Lemma valid_points_all_nan (l : list float64) :
  (forall v, In v l -> isnan v = true) -> valid_points l = [].
Proof.
  unfold valid_points. generalize 0%Z.
  induction l as [|v l IH]; intros i H; simpl; [reflexivity |].
  rewrite (H v (or_introl eq_refl)). simpl. apply IH. intros w Hw. apply H. now right.
Qed.

Lemma interpolate_column_all_nan (c : string) (g : list Row) :
  (forall r, In r g -> cell r c = NaN) -> interpolate_column c g = g.
Proof.
  intros H. unfold interpolate_column, fills.
  rewrite valid_points_all_nan.
  - apply apply_fills_none.
  - intros v Hv. apply in_map_iff in Hv. destruct Hv as [r [<- Hr]].
    now rewrite (H r Hr).
Qed.

Lemma interpolate_column_single (c : string) (r : Row) :
  interpolate_column c [r] = [r].
Proof.
  unfold interpolate_column, fills, valid_points. simpl.
  destruct (cell r c); reflexivity.
Qed.

Lemma interpolate_group_single (cols : list string) (r : Row) :
  interpolate_group cols [r] = [r].
Proof.
  unfold interpolate_group. induction cols as [|c cols IH]; simpl; [reflexivity |].
  now rewrite interpolate_column_single.
Qed.

Lemma interpolate_group_nil (cols : list string) : interpolate_group cols [] = [].
Proof.
  unfold interpolate_group. induction cols as [|c cols IH]; simpl; [reflexivity |].
  exact IH.
Qed.

Lemma interpolate_group_Entity (cols : list string) :
  forall g r', In r' (interpolate_group cols g) ->
               exists r, In r g /\ Entity r' = Entity r.
Proof.
  unfold interpolate_group.
  induction cols as [|c cols IH]; intros g r' Hr'; simpl in Hr'.
  - exists r'. tauto.
  - apply IH in Hr'. destruct Hr' as [r1 [Hr1 He1]].
    destruct (Forall2_In_r _ _ _ r1
                (apply_fills_same_but c (fills (map (fun r => cell r c) g)) g) Hr1)
      as [r [Hr [He _]]].
    exists r. split; [exact Hr | congruence].
Qed.

Lemma interpolate_group_all_nan (c : string) (cols : list string) :
  forall g, (forall r, In r g -> cell r c = NaN) ->
            forall r', In r' (interpolate_group cols g) -> cell r' c = NaN.
Proof.
  unfold interpolate_group.
  induction cols as [|c' cols IH]; intros g H r' Hr'; simpl in Hr'; [now apply H |].
  revert Hr'. apply IH. intros r1 Hr1.
  destruct (String.eqb_spec c' c) as [-> | Hne].
  - rewrite interpolate_column_all_nan in Hr1 by exact H. now apply H.
  - destruct (Forall2_In_r _ _ _ r1
                (apply_fills_same_but c' (fills (map (fun r => cell r c') g)) g) Hr1)
      as [r [Hr [_ [_ [_ Hcells]]]]].
    rewrite Hcells by congruence. now apply H.
Qed.

(** The rows of an entity after [interpolate_missing] are the interpolation
    of that entity's rows, and of no others. *)
Lemma interpolate_missing_group (df : DataFrame) (e : string) :
  group (interpolate_missing df) e = interpolate_group (columns df) (group df e).
Proof.
  unfold group at 1, interpolate_missing. simpl rows.
  rewrite filter_groups.
  - destruct (mem e (entities df)) eqn:E; [reflexivity |].
    apply mem_false in E. rewrite (group_absent df e E).
    now rewrite interpolate_group_nil.
  - apply sorted_unique_NoDup.
  - intros e' r' Hr'. apply interpolate_group_Entity in Hr'.
    destruct Hr' as [r [Hr He]]. rewrite He. now apply (group_Entity df).
Qed.

Lemma fills_midpoint :
  fills [Fin 1; NaN; Fin 3] = [None; Some (Fin 2); None].
Proof.
  unfold fills, valid_points. simpl. unfold interp_segment, of_Z. simpl.
  rewrite Reqb_false by lra. simpl.
  repeat f_equal. lra.
Qed.

(** C8: interpolation works group by group, the rows of an entity being
    computed from the rows of that entity alone; the values [1, null, 3] of
    one entity at the years 2000, 2001, 2002 become [1, 2, 3]; a group of one
    row is returned unchanged; and a column that is null throughout a group is
    null throughout that group afterwards. *)
Theorem interpolation_within_groups :
  (forall df e,
     group (interpolate_missing df) e = interpolate_group (columns df) (group df e))
  /\ rows (interpolate_missing midpoint_panel)
     = [mkRow "A" (Some "AAA") 2000 [("x", Fin 1)];
        mkRow "A" (Some "AAA") 2001 [("x", Fin 2)];
        mkRow "A" (Some "AAA") 2002 [("x", Fin 3)]]
  /\ (forall df e r,
        group df e = [r] -> group (interpolate_missing df) e = [r])
  /\ (forall df e c,
        (forall r, In r (group df e) -> isnull (cell r c) = true) ->
        forall r, In r (group (interpolate_missing df) e) ->
                  isnull (cell r c) = true).
Proof.
  split; [exact interpolate_missing_group | split; [| split]].
  - unfold interpolate_missing.
    replace (entities midpoint_panel) with ["A"] by reflexivity.
    cbv [flat_map]. rewrite app_nil_r.
    replace (group midpoint_panel "A") with (rows midpoint_panel) by reflexivity.
    change (interpolate_group (columns midpoint_panel) (rows midpoint_panel))
      with (apply_fills "x" (fills [Fin 1; NaN; Fin 3]) (rows midpoint_panel)).
    rewrite fills_midpoint. reflexivity.
  - intros df e r H. rewrite interpolate_missing_group, H.
    apply interpolate_group_single.
  - intros df e c H r Hr. rewrite interpolate_missing_group in Hr.
    assert (Hnan : cell r c = NaN).
    { revert Hr. apply interpolate_group_all_nan. intros r0 Hr0.
      specialize (H r0 Hr0). destruct (cell r0 c); [reflexivity | discriminate ..]. }
    now rewrite Hnan.
Qed.

Lemma interpolation_within_groups_witness :
  group (interpolate_missing sparse_panel) "A"
  = [mkRow "A" (Some "AAA") 2000 [("x", NaN)]]
  /\ Forall (fun r => isnull (cell r "x") = true)
            (group (interpolate_missing sparse_panel) "B").
Proof.
  destruct interpolation_within_groups as [_ [_ [Hone Hnull]]]. split.
  - apply (Hone sparse_panel "A"). reflexivity.
  - apply Forall_forall. apply (Hnull sparse_panel "B" "x").
    intros r [<- | [<- | []]]; reflexivity.
Defined.

(** ** The world aggregate *)

Lemma log_row_ids (base : R) (s : string) (cols : list string) :
  forall r, let r' := log_row base s cols r in
            Entity r' = Entity r /\ Code r' = Code r /\ Year r' = Year r.
Proof.
  induction cols as [|col rest IH]; intros r; [simpl; tauto |].
  rewrite log_row_cons. apply (IH (set_cell _ _ r)).
Qed.

Lemma log_row_other (base : R) (s c : string) (cols : list string) :
  forall r, (forall m, In m cols -> (m ++ s)%string <> c) ->
            cell (log_row base s cols r) c = cell r c.
Proof.
  induction cols as [|col rest IH]; intros r H; [reflexivity |].
  rewrite log_row_cons, IH.
  - apply cell_set_cell_neq. apply H. now left.
  - intros m Hm. apply H. now right.
Qed.

Lemma log_row_derived (base : R) (s n : string) (cols : list string) :
  forall r,
    (forall m, In m cols -> ~ In (m ++ s)%string cols) ->
    In n cols ->
    cell (log_row base s cols r) (n ++ s) = log_value base (cell r n).
Proof.
  induction cols as [|col rest IH]; intros r Hfresh Hn; [destruct Hn |].
  rewrite log_row_cons.
  set (r1 := set_cell (col ++ s)%string (log_value base (cell r col)) r).
  assert (Hcol : forall c, In c (col :: rest) -> cell r1 c = cell r c).
  { intros c Hc. apply cell_set_cell_neq. intros Heq. subst c.
    apply (Hfresh col); [now left | exact Hc]. }
  destruct (in_dec string_dec n rest) as [Hin | Hnin].
  - rewrite IH.
    + rewrite Hcol; [reflexivity | now right].
    + intros m Hm Hbad. apply (Hfresh m); now right.
    + exact Hin.
  - destruct Hn as [<- | Hn]; [| contradiction].
    rewrite log_row_other.
    + apply cell_set_cell_eq.
    + intros m Hm Heq. apply append_cancel_r in Heq. subst m. contradiction.
Qed.

Lemma lookup_computed (F : string -> float64) (c : string) (cols : list string) :
  In c cols -> lookup c (map (fun c => (c, F c)) cols) = Some (F c).
Proof.
  induction cols as [|d cols IH]; intros H; [destruct H |]. simpl.
  destruct (String.eqb_spec c d) as [-> | Hne]; [reflexivity |].
  apply IH. destruct H; congruence.
Qed.

(** Every cell of the world frame is the sum, nulls skipped, of its column
    over the rows of its year. *)
Lemma world_cell (df : DataFrame) (w : Row) (c : string) :
  In w (rows (groupby_year_sum df)) -> In c (columns df) ->
  cell w c = nansum (map (fun r => cell r c) (year_group df (Year w))).
Proof.
  intros Hw Hc. unfold groupby_year_sum in Hw. simpl in Hw.
  apply in_map_iff in Hw. destruct Hw as [y [<- _]].
  unfold cell at 1. simpl.
  now rewrite (lookup_computed
                 (fun c => nansum (map (fun r => cell r c) (year_group df y))) c).
Qed.

Lemma year_group_log_rows (base : R) (s : string) (cols : list string)
  (df df' : DataFrame) (y : Z) :
  rows df' = map (log_row base s cols) (rows df) ->
  year_group df' y = map (log_row base s cols) (year_group df y).
Proof.
  intros H. unfold year_group. rewrite H, filter_map_swap. f_equal.
  apply filter_ext. intros r.
  now destruct (log_row_ids base s cols r) as [_ [_ ->]].
Qed.

(** C1, as the code has it: the world frame has one row per year and sums
    every column of the transformed panel over the rows of that year, and the
    same fit is run on it.  The log columns are among the summed columns: the
    aggregate carries, for a log-derived column, the sum over the entities of
    their log values. *)
Theorem world_aggregate_sums_logs
  (df df' : DataFrame) (cols : list string) (base : R) (s : string) :
  log_transform df cols base s = (df', Return tt) ->
  (forall m, In m cols -> ~ In (m ++ s)%string cols) ->
  columns (groupby_year_sum df') = columns df'
  /\ map Year (rows (groupby_year_sum df')) = years df'
  /\ (forall w, In w (rows (groupby_year_sum df')) ->
        (forall c, In c (columns df') ->
           cell w c = nansum (map (fun r => cell r c) (year_group df' (Year w))))
        /\ (forall c, In c cols ->
              cell w (c ++ s)
              = nansum (map (fun r => log_value base (cell r c))
                            (year_group df (Year w)))))
  /\ (forall x y,
        analyze_scaling (groupby_year_sum df') x y
        = (xs <- get_col (groupby_year_sum df') x ;;
           ys <- get_col (groupby_year_sum df') y ;;
           fit_log_log_regression xs ys)).
Proof.
  intros Hrun Hfresh.
  destruct (log_transform_rows base s cols df df' Hrun) as [Hrows [_ Hnew]].
  split; [reflexivity | split; [| split; [| reflexivity]]].
  - unfold groupby_year_sum. simpl. rewrite map_map. simpl. apply map_id.
  - intros w Hw. split.
    + intros c Hc. now apply world_cell.
    + intros c Hc. rewrite (world_cell df' w (c ++ s)) by auto.
      rewrite (year_group_log_rows base s cols df df' (Year w) Hrows), map_map.
      f_equal. apply map_ext_in. intros r _. now apply log_row_derived.
Qed.

Lemma two_entity_panel_log :
  log_transform two_entity_panel ["P"] np_e "_log"
  = (assign two_entity_panel "P_log" (fun r => log_value np_e (cell r "P")),
     Return tt).
Proof.
  simpl. unfold get_col. simpl. unfold any_negative, cell. simpl.
  now rewrite Rltb_false by lra.
Qed.

Lemma world_aggregate_sums_logs_witness :
  Forall
    (fun w =>
       cell w "P_log"
       = nansum (map (fun r => log_value np_e (cell r "P"))
                     (year_group two_entity_panel (Year w))))
    (rows (groupby_year_sum
             (assign two_entity_panel "P_log"
                (fun r => log_value np_e (cell r "P"))))).
Proof.
  apply Forall_forall. intros w Hw.
  destruct (world_aggregate_sums_logs two_entity_panel _ ["P"] np_e "_log"
              two_entity_panel_log) as [_ [_ [Hcells _]]].
  - intros m [<- | []] [H | []]. discriminate H.
  - apply (proj2 (Hcells w Hw) "P"). now left.
Defined.

Lemma ln_sum_not_ln_of_sum : (ln 2 + ln 2 <> ln (1 + 2))%R.
Proof.
  rewrite <- ln_mult by lra.
  assert (H : (ln (1 + 2) < ln (2 * 2))%R) by (apply ln_increasing; lra).
  lra.
Qed.

(** C1 fails as stated: two entities with the value 1 in the same year give
    the world the sum 2, and in the log column the sum of their logs,
    [ln 2 + ln 2], which is not the log of the sum, [ln (1 + 2)]. *)
Lemma world_log_column_is_not_log_of_sum :
  exists df' w,
    log_transform two_entity_panel ["P"] np_e "_log" = (df', Return tt)
    /\ rows (groupby_year_sum df') = [w]
    /\ cell w "P" = Fin 2
    /\ cell w "P_log" = Fin (ln 2 + ln 2)
    /\ cell w "P_log" <> log_value np_e (cell w "P").
Proof.
  eexists. eexists. split; [exact two_entity_panel_log |].
  split; [reflexivity |].
  assert (Hsum : nansum [Fin 1; Fin 1] = Fin 2).
  { unfold nansum. simpl. f_equal. lra. }
  assert (Hlogs : nansum [log_value np_e (Fin 1); log_value np_e (Fin 1)]
                  = Fin (ln 2 + ln 2)).
  { rewrite log_value_one. unfold nansum. simpl. f_equal.
    replace (1 + 1)%R with 2%R by lra. lra. }
  assert (Hlog2 : log_value np_e (Fin 2) = Fin (ln (1 + 2))).
  { unfold log_value. rewrite Reqb_refl. simpl.
    now rewrite Rltb_false, Reqb_false by lra. }
  change (nansum [Fin 1; Fin 1] = Fin 2
          /\ nansum [log_value np_e (Fin 1); log_value np_e (Fin 1)]
             = Fin (ln 2 + ln 2)
          /\ nansum [log_value np_e (Fin 1); log_value np_e (Fin 1)]
             <> log_value np_e (nansum [Fin 1; Fin 1])).
  rewrite Hsum, Hlogs, Hlog2. repeat split.
  intros H. injection H. exact ln_sum_not_ln_of_sum.
Qed.

(** ** The outer merge *)

Lemma option_string_eqb_eq (a b : option string) :
  option_string_eqb a b = true <-> a = b.
Proof.
  destruct a as [s|], b as [t|]; simpl; try (split; congruence).
  rewrite String.eqb_eq. split; congruence.
Qed.

Lemma key_eqb_eq (a b : Row) : key_eqb a b = true <-> key a = key b.
Proof.
  unfold key_eqb, key. rewrite !andb_true_iff, String.eqb_eq,
    option_string_eqb_eq, Z.eqb_eq.
  split; [intros [[-> ->] ->]; reflexivity | intros H; injection H; auto].
Qed.

Lemma key_eqb_false (a b : Row) : key_eqb a b = false <-> key a <> key b.
Proof.
  rewrite <- key_eqb_eq. destruct (key_eqb a b); split; congruence.
Qed.

Lemma has_key_true (l : list Row) (r : Row) :
  has_key l r = true <-> In (key r) (map key l).
Proof.
  unfold has_key. rewrite existsb_exists, in_map_iff.
  split; intros [x [H1 H2]]; exists x.
  - apply key_eqb_eq in H2. split; [congruence | assumption].
  - split; [assumption | apply key_eqb_eq; congruence].
Qed.

Lemma insert_row_In (r x : Row) (l : list Row) :
  In x (insert_row r l) <-> x = r \/ In x l.
Proof.
  induction l as [|t l IH]; simpl.
  - intuition.
  - destruct (key_leb r t); simpl; [intuition |].
    rewrite IH. intuition.
Qed.

Lemma sort_by_key_In (x : Row) (l : list Row) :
  In x (sort_by_key l) <-> In x l.
Proof.
  unfold sort_by_key. induction l as [|r l IH]; simpl; [tauto |].
  rewrite insert_row_In, IH. intuition.
Qed.

(** The rows of an outer join, one kind at a time. *)
Lemma from_left_In (L R : DataFrame) (x : Row) :
  In x (from_left L R true)
  <-> exists l, In l (rows L)
      /\ ((exists r, In r (rows R) /\ key l = key r /\ x = both L R l r)
          \/ (~ In (key l) (map key (rows R)) /\ x = left_only L R l)).
Proof.
  unfold from_left. rewrite in_flat_map.
  split; intros [l [Hl H]]; exists l; (split; [exact Hl |]).
  - destruct (filter (key_eqb l) (rows R)) as [|r0 ms] eqn:E.
    + right. destruct H as [<- | []]. split; [| reflexivity].
      intros Hin. apply in_map_iff in Hin. destruct Hin as [r [Hk Hr]].
      assert (Hf : In r (filter (key_eqb l) (rows R))).
      { apply filter_In. split; [exact Hr | now apply key_eqb_eq]. }
      rewrite E in Hf. destruct Hf.
    + left. apply in_map_iff in H. destruct H as [r [<- Hr]].
      rewrite <- E in Hr. apply filter_In in Hr. destruct Hr as [Hr Hk].
      exists r. split; [exact Hr |]. split; [now apply key_eqb_eq | reflexivity].
  - destruct H as [[r [Hr [Hk ->]]] | [Hno ->]].
    + assert (Hf : In r (filter (key_eqb l) (rows R))).
      { apply filter_In. split; [exact Hr | now apply key_eqb_eq]. }
      destruct (filter (key_eqb l) (rows R)) as [|r0 ms]; [destruct Hf |].
      apply in_map. exact Hf.
    + destruct (filter (key_eqb l) (rows R)) as [|r0 ms] eqn:E; [now left |].
      exfalso. apply Hno.
      assert (Hf : In r0 (filter (key_eqb l) (rows R))) by (rewrite E; now left).
      apply filter_In in Hf. destruct Hf as [Hr0 Hk]. apply key_eqb_eq in Hk.
      rewrite Hk. now apply in_map.
Qed.

Lemma unmatched_right_In (L R : DataFrame) (x : Row) :
  In x (unmatched_right L R)
  <-> exists r, In r (rows R) /\ ~ In (key r) (map key (rows L))
                /\ x = right_only L R r.
Proof.
  unfold unmatched_right. rewrite in_map_iff.
  split; intros [r H]; exists r.
  - destruct H as [<- H]. apply filter_In in H. destruct H as [Hr Hk].
    split; [exact Hr |]. split; [| reflexivity].
    rewrite <- has_key_true. now destruct (has_key (rows L) r).
  - destruct H as [Hr [Hk ->]]. split; [reflexivity |].
    apply filter_In. split; [exact Hr |].
    rewrite <- has_key_true in Hk. now destruct (has_key (rows L) r).
Qed.

(** Without a column in common no suffix is given, so none makes a duplicate. *)
Lemma no_suffix_duplicates (l : list string) : suffix_duplicates l l = [].
Proof.
  unfold suffix_duplicates. generalize (duplicated [] l) as d.
  induction l as [|c l IH]; intros d; [reflexivity |].
  destruct d as [|b d]; [reflexivity |]. simpl.
  destruct b; simpl; now rewrite IH.
Qed.

Lemma merge_result_inv (L R m : DataFrame) (joined : list Row) :
  merge_result L R joined = Return m ->
  m = mkDataFrame (left_columns L R ++ right_columns L R) joined.
Proof.
  unfold merge_result.
  destruct (suffix_duplicates (columns L) (left_columns L R)
            ++ suffix_duplicates (columns R) (right_columns L R));
    [now intros [= <-] | discriminate].
Qed.

Lemma merge_result_raises (L R : DataFrame) (joined : list Row) (e : exn) :
  merge_result L R joined = Raise e -> e = duplicate_columns_error.
Proof.
  unfold merge_result.
  destruct (suffix_duplicates (columns L) (left_columns L R)
            ++ suffix_duplicates (columns R) (right_columns L R));
    [discriminate | now intros [= <-]].
Qed.

Lemma pd_merge_outer (L R m : DataFrame) :
  pd_merge L R JOuter = Return m ->
  m = mkDataFrame (left_columns L R ++ right_columns L R)
        (sort_by_key (from_left L R true ++ unmatched_right L R)).
Proof. apply merge_result_inv. Qed.

Lemma outer_rows_In (L R : DataFrame) (x : Row) :
  In x (sort_by_key (from_left L R true ++ unmatched_right L R))
  <-> (exists l r, In l (rows L) /\ In r (rows R) /\ key l = key r
                   /\ x = both L R l r)
      \/ (exists l, In l (rows L) /\ ~ In (key l) (map key (rows R))
                    /\ x = left_only L R l)
      \/ (exists r, In r (rows R) /\ ~ In (key r) (map key (rows L))
                    /\ x = right_only L R r).
Proof.
  rewrite sort_by_key_In, in_app_iff, from_left_In, unmatched_right_In.
  split.
  - intros [[l [Hl [[r [Hr [Hk Hx]]] | [Hno Hx]]]] | H].
    + left. exists l, r. tauto.
    + right. left. exists l. tauto.
    + right. right. exact H.
  - intros [[l [r [Hl [Hr [Hk Hx]]]]] | [[l [Hl [Hno Hx]]] | H]].
    + left. exists l. split; [exact Hl |]. left. exists r. tauto.
    + left. exists l. tauto.
    + right. exact H.
Qed.

Lemma key_dec (a b : string * option string * Z) : {a = b} + {a <> b}.
Proof.
  destruct a as [[e1 c1] y1], b as [[e2 c2] y2].
  destruct (string_dec e1 e2) as [-> | He]; [| right; congruence].
  destruct (Z.eq_dec y1 y2) as [-> | Hy]; [| right; congruence].
  destruct c1 as [s1|], c2 as [s2|]; try (right; congruence); [| now left].
  destruct (string_dec s1 s2) as [-> | Hs]; [now left | right; congruence].
Qed.

(** The triples of an outer join are those of its two sides. *)
Lemma outer_keys (L R : DataFrame) (k : string * option string * Z) :
  In k (map key (sort_by_key (from_left L R true ++ unmatched_right L R)))
  <-> In k (map key (rows L)) \/ In k (map key (rows R)).
Proof.
  rewrite in_map_iff. split.
  - intros [x [<- Hx]]. apply outer_rows_In in Hx.
    destruct Hx as [[l [r [Hl [Hr [Hk ->]]]]] | [[l [Hl [_ ->]]] | [r [Hr [_ ->]]]]].
    + left. apply in_map_iff. exists l. tauto.
    + left. apply in_map_iff. exists l. tauto.
    + right. apply in_map_iff. exists r. tauto.
  - intros [H | H]; apply in_map_iff in H.
    + destruct H as [l [<- Hl]].
      destruct (in_dec key_dec (key l) (map key (rows R))) as [Hin | Hno].
      * apply in_map_iff in Hin. destruct Hin as [r [Hk Hr]].
        exists (both L R l r). split; [reflexivity |].
        apply outer_rows_In. left. exists l, r. auto.
      * exists (left_only L R l). split; [reflexivity |].
        apply outer_rows_In. right. left. exists l. auto.
    + destruct H as [r [<- Hr]].
      destruct (in_dec key_dec (key r) (map key (rows L))) as [Hin | Hno].
      * apply in_map_iff in Hin. destruct Hin as [l [Hk Hl]].
        exists (both L R l r). split; [unfold key; simpl; exact Hk |].
        apply outer_rows_In. left. exists l, r. auto.
      * exists (right_only L R r). split; [reflexivity |].
        apply outer_rows_In. right. right. exists r. auto.
Qed.

Lemma merge_loop_outer_cons (m t m' : DataFrame) (rest : list DataFrame) :
  merge_loop (Some m) (t :: rest) JOuter = Return (Some m') ->
  merge_loop
    (Some (mkDataFrame (left_columns m t ++ right_columns m t)
             (sort_by_key (from_left m t true ++ unmatched_right m t))))
    rest JOuter
  = Return (Some m').
Proof.
  cbn [merge_loop]. destruct (pd_merge m t JOuter) as [m1 | e] eqn:E.
  - apply pd_merge_outer in E. subst m1. now cbn [bind].
  - discriminate.
Qed.

Lemma merge_loop_keys (rest : list DataFrame) :
  forall m m',
    merge_loop (Some m) rest JOuter = Return (Some m') ->
    forall k, In k (map key (rows m'))
              <-> In k (map key (rows m))
                  \/ exists t, In t rest /\ In k (map key (rows t)).
Proof.
  induction rest as [|t rest IH]; intros m m' Hrun k.
  - injection Hrun as <-. split; [tauto |].
    intros [H | [t [[] _]]]. exact H.
  - apply merge_loop_outer_cons in Hrun.
    rewrite (IH _ _ Hrun). simpl rows.
    rewrite outer_keys. split.
    + intros [[H | H] | [u [Hu H]]].
      * now left.
      * right. exists t. split; [now left | exact H].
      * right. exists u. split; [now right | exact H].
    + intros [H | [u [[<- | Hu] H]]].
      * left. now left.
      * left. now right.
      * right. exists u. tauto.
Qed.

(** The loop over the tables either returns a table or stops at the
    duplicate column that a suffix made. *)
Lemma merge_loop_outer_outcome (rest : list DataFrame) :
  forall m,
    (exists m', merge_loop (Some m) rest JOuter = Return (Some m'))
    \/ merge_loop (Some m) rest JOuter = Raise duplicate_columns_error.
Proof.
  induction rest as [|t rest IH]; intros m.
  - left. now exists m.
  - cbn [merge_loop]. destruct (pd_merge m t JOuter) as [m1 | e] eqn:E.
    + cbn [bind]. apply IH.
    + right. apply merge_result_raises in E. now subst e.
Qed.

Lemma rename_nil (sfx c : string) : rename [] sfx c = c.
Proof. reflexivity. Qed.

Lemma rename_vals_nil (sfx : string) (l : list (string * float64)) :
  rename_vals [] sfx l = l.
Proof.
  unfold rename_vals. induction l as [|[k v] l IH]; simpl; [reflexivity |].
  now rewrite IH.
Qed.

Lemma overlap_disjoint (L R : DataFrame) :
  (forall c, In c (columns L) -> ~ In c (columns R)) -> overlap L R = [].
Proof.
  intros H. unfold overlap. apply filter_none. intros c Hc.
  apply mem_false. now apply H.
Qed.

Lemma lookup_app_l (c : string) (l1 l2 : list (string * float64)) :
  In c (map fst l1) -> lookup c (l1 ++ l2) = lookup c l1.
Proof.
  induction l1 as [|[k v] l1 IH]; simpl; intros H; [destruct H |].
  destruct (String.eqb_spec c k) as [-> | Hne]; [reflexivity |].
  apply IH. destruct H; congruence.
Qed.

Lemma lookup_app_r (c : string) (l1 l2 : list (string * float64)) :
  ~ In c (map fst l1) -> lookup c (l1 ++ l2) = lookup c l2.
Proof.
  induction l1 as [|[k v] l1 IH]; simpl; intros H; [reflexivity |].
  destruct (String.eqb_spec c k) as [-> | Hne]; [tauto |].
  apply IH. tauto.
Qed.

Lemma lookup_nan_vals (c : string) (cols : list string) :
  In c cols -> lookup c (nan_vals cols) = Some NaN.
Proof. apply (lookup_computed (fun _ => NaN)). Qed.

Lemma nan_vals_names (cols : list string) : map fst (nan_vals cols) = cols.
Proof. unfold nan_vals. rewrite map_map. simpl. apply map_id. Qed.

Lemma NoDup_app_disjoint {A : Type} (l l' : list A) (a : A) :
  NoDup (l ++ l') -> In a l -> ~ In a l'.
Proof.
  induction l as [|b l IH]; simpl; intros Hnd Hin; [destruct Hin |].
  inversion Hnd as [|? ? Hb Hnd']; subst. destruct Hin as [-> | Hin].
  - intros H. apply Hb. apply in_or_app. now right.
  - now apply IH.
Qed.

Lemma map_rename_nil (sfx : string) (l : list string) : map (rename [] sfx) l = l.
Proof. induction l as [|c l IH]; simpl; [reflexivity | now rewrite IH]. Qed.

Lemma cell_app_l (e : string) (o : option string) (y : Z)
  (l1 l2 : list (string * float64)) (c : string) :
  In c (map fst l1) -> cell (mkRow e o y (l1 ++ l2)) c = cell (mkRow e o y l1) c.
Proof. intros H. unfold cell. simpl. now rewrite lookup_app_l. Qed.

Lemma cell_app_r (e : string) (o : option string) (y : Z)
  (l1 l2 : list (string * float64)) (c : string) :
  ~ In c (map fst l1) -> cell (mkRow e o y (l1 ++ l2)) c = cell (mkRow e o y l2) c.
Proof. intros H. unfold cell. simpl. now rewrite lookup_app_r. Qed.

Lemma cell_nan_vals (e : string) (o : option string) (y : Z) (cols : list string)
  (c : string) :
  cell (mkRow e o y (nan_vals cols)) c = NaN.
Proof.
  unfold cell. simpl. destruct (in_dec string_dec c cols) as [H | H].
  - now rewrite lookup_nan_vals.
  - destruct (lookup c (nan_vals cols)) as [v|] eqn:E; [| reflexivity].
    exfalso. apply H. clear H. induction cols as [|d cols IH]; simpl in E.
    + discriminate E.
    + destruct (String.eqb_spec c d) as [-> | Hne]; [now left | right; auto].
Qed.

(** One more table merged into the frame: the frame stays the outer merge of
    the tables seen so far. *)
Lemma merged_from_step (ts : list DataFrame) (m t : DataFrame) :
  merged_from ts m ->
  well_formed t ->
  (forall c, In c (columns m) -> ~ In c (columns t)) ->
  merged_from (ts ++ [t])
    (mkDataFrame (left_columns m t ++ right_columns m t)
       (sort_by_key (from_left m t true ++ unmatched_right m t))).
Proof.
  intros [Hcols [Hwf [Hkeys Hnull]]] Hwft Hdisj.
  pose proof (overlap_disjoint m t Hdisj) as Hov.
  assert (Hl : left_columns m t = columns m)
    by (unfold left_columns; rewrite Hov; apply map_rename_nil).
  assert (Hr : right_columns m t = columns t)
    by (unfold right_columns; rewrite Hov; apply map_rename_nil).
  assert (Hboth : forall l r,
             both m t l r = mkRow (Entity l) (Code l) (Year l) (vals l ++ vals r))
    by (intros; unfold both; now rewrite Hov, !rename_vals_nil).
  assert (Hleft : forall l,
             left_only m t l
             = mkRow (Entity l) (Code l) (Year l) (vals l ++ nan_vals (columns t)))
    by (intros; unfold left_only; now rewrite Hov, Hr, rename_vals_nil).
  assert (Hright : forall r,
             right_only m t r
             = mkRow (Entity r) (Code r) (Year r) (nan_vals (columns m) ++ vals r))
    by (intros; unfold right_only; now rewrite Hov, Hl, rename_vals_nil).
  assert (Hsub : forall u c, In u ts -> In c (columns u) -> In c (columns m)).
  { intros u c Hu Hc. rewrite Hcols. apply in_flat_map. exists u. tauto. }
  unfold merged_from. simpl columns. simpl rows. rewrite Hl, Hr.
  split; [| split; [| split]].
  - rewrite flat_map_app, Hcols. simpl. now rewrite app_nil_r.
  - intros x Hx. simpl in Hx. simpl columns.
    apply outer_rows_In in Hx.
    destruct Hx as [[l [r [Hinl [Hinr [_ ->]]]]]
                   | [[l [Hinl [_ ->]]] | [r [Hinr [_ ->]]]]].
    + rewrite Hboth. simpl. now rewrite map_app, (Hwf l Hinl), (Hwft r Hinr).
    + rewrite Hleft. simpl. now rewrite map_app, (Hwf l Hinl), nan_vals_names.
    + rewrite Hright. simpl. now rewrite map_app, (Hwft r Hinr), nan_vals_names.
  - intros k. rewrite outer_keys, Hkeys. split.
    + intros [[u [Hu H]] | H].
      * exists u. split; [apply in_or_app; now left | exact H].
      * exists t. split; [apply in_or_app; right; now left | exact H].
    + intros [u [Hu H]]. apply in_app_or in Hu. destruct Hu as [Hu | [<- | []]].
      * left. exists u. tauto.
      * now right.
  - intros x u c Hx Hu Hno Hc. apply outer_rows_In in Hx. apply in_app_or in Hu.
    destruct Hx as [[l [r [Hinl [Hinr [Hk ->]]]]]
                   | [[l [Hinl [Hnot ->]]] | [r [Hinr [Hnot ->]]]]].
    + rewrite Hboth in *. destruct Hu as [Hu | [<- | []]].
      * rewrite cell_app_l by (rewrite (Hwf l Hinl); eauto).
        apply (Hnull l u c Hinl Hu Hno Hc).
      * exfalso. apply Hno. change (In (key l) (map key (rows t))).
        rewrite Hk. now apply in_map.
    + rewrite Hleft in *. destruct Hu as [Hu | [<- | []]].
      * rewrite cell_app_l by (rewrite (Hwf l Hinl); eauto).
        apply (Hnull l u c Hinl Hu Hno Hc).
      * rewrite cell_app_r.
        -- apply cell_nan_vals.
        -- rewrite (Hwf l Hinl). intros Hin. now apply (Hdisj c).
    + rewrite Hright in *. destruct Hu as [Hu | [<- | []]].
      * rewrite cell_app_l by (rewrite nan_vals_names; eauto).
        apply cell_nan_vals.
      * exfalso. apply Hno. change (In (key r) (map key (rows t))).
        now apply in_map.
Qed.

Lemma disjoint_columns (L R : DataFrame) :
  (forall c, In c (columns L) -> ~ In c (columns R)) ->
  left_columns L R = columns L /\ right_columns L R = columns R.
Proof.
  intros H. unfold left_columns, right_columns.
  rewrite (overlap_disjoint L R H). now rewrite !map_rename_nil.
Qed.

(** Two frames without a measurement column in common always merge. *)
Lemma merge_result_disjoint (L R : DataFrame) (joined : list Row) :
  (forall c, In c (columns L) -> ~ In c (columns R)) ->
  merge_result L R joined
  = Return (mkDataFrame (left_columns L R ++ right_columns L R) joined).
Proof.
  intros H. unfold merge_result.
  destruct (disjoint_columns L R H) as [-> ->].
  now rewrite !no_suffix_duplicates.
Qed.

Lemma merge_loop_returns (how : join) (rest : list DataFrame) :
  how <> JCross ->
  forall m,
    NoDup (columns m ++ flat_map columns rest) ->
    exists m', merge_loop (Some m) rest how = Return (Some m').
Proof.
  intros Hhow. induction rest as [|t rest IH]; intros m Hnd.
  - now exists m.
  - assert (Hdisj : forall c, In c (columns m) -> ~ In c (columns t)).
    { intros c Hc Hct. apply (NoDup_app_disjoint _ _ c Hnd Hc).
      simpl. apply in_or_app. now left. }
    assert (Hstep : forall joined,
               exists m', merge_loop
                            (Some (mkDataFrame
                                     (left_columns m t ++ right_columns m t) joined))
                            rest how
                          = Return (Some m')).
    { intros joined. apply IH. simpl columns.
      destruct (disjoint_columns m t Hdisj) as [-> ->].
      simpl in Hnd. now rewrite <- app_assoc. }
    cbn [merge_loop]. destruct how; try congruence; unfold pd_merge;
      rewrite (merge_result_disjoint m t _ Hdisj); cbn [bind]; apply Hstep.
Qed.

Lemma merge_loop_merged (rest : list DataFrame) :
  forall ts m,
    merged_from ts m ->
    (forall t, In t rest -> well_formed t) ->
    NoDup (flat_map columns ts ++ flat_map columns rest) ->
    exists m',
      merge_loop (Some m) rest JOuter = Return (Some m')
      /\ merged_from (ts ++ rest) m'.
Proof.
  induction rest as [|t rest IH]; intros ts m Hm Hwf Hnd.
  - exists m. split; [reflexivity | now rewrite app_nil_r].
  - assert (Hdisj : forall c, In c (columns m) -> ~ In c (columns t)).
    { intros c Hc Hct. destruct Hm as [Hcols _]. rewrite Hcols in Hc.
      apply (NoDup_app_disjoint _ _ c Hnd Hc).
      simpl. apply in_or_app. now left. }
    cbn [merge_loop]. unfold pd_merge.
    rewrite (merge_result_disjoint m t _ Hdisj). cbn [bind].
    replace (ts ++ t :: rest) with ((ts ++ [t]) ++ rest)
      by (rewrite <- app_assoc; reflexivity).
    apply IH.
    + apply merged_from_step; [exact Hm | apply Hwf; now left | exact Hdisj].
    + intros u Hu. apply Hwf. now right.
    + rewrite flat_map_app. simpl flat_map. rewrite app_nil_r, <- app_assoc.
      exact Hnd.
Qed.

Lemma merged_from_first (t : DataFrame) : well_formed t -> merged_from [t] t.
Proof.
  intros Hwf. unfold merged_from. simpl. rewrite app_nil_r.
  split; [reflexivity | split; [exact Hwf | split]].
  - intros k. split.
    + intros H. exists t. tauto.
    + intros [u [[<- | []] H]]. exact H.
  - intros x u c Hx [<- | []] Hno _. exfalso. apply Hno. now apply in_map.
Qed.

(** A cell that is present and reads as NaN holds the null marker. *)
Lemma present_null_cell (x : Row) (c : string) :
  In c (map fst (vals x)) -> cell x c = NaN -> lookup c (vals x) = Some NaN.
Proof.
  unfold cell. intros Hin Hc.
  destruct (lookup c (vals x)) as [v|] eqn:E; [now subst v |].
  exfalso. clear Hc. induction (vals x) as [|[k v] l IH]; simpl in *; [destruct Hin |].
  destruct (String.eqb_spec c k) as [-> | Hne]; [discriminate |].
  apply IH; [destruct Hin; congruence | exact E].
Qed.

(** *** The cells of a merged row, table by table *)

Lemma values_rename_vals (ov : list string) (sfx : string)
  (l : list (string * float64)) :
  map snd (rename_vals ov sfx l) = map snd l.
Proof. unfold rename_vals. rewrite map_map. reflexivity. Qed.

Lemma values_nan_vals (cols : list string) :
  all_nan (map snd (nan_vals cols))
  /\ List.length (map snd (nan_vals cols)) = List.length cols.
Proof.
  unfold nan_vals, all_nan. rewrite map_map. simpl. split.
  - apply Forall_forall. intros v Hv. apply in_map_iff in Hv.
    now destruct Hv as [c [<- _]].
  - apply length_map.
Qed.

Lemma values_both (L R : DataFrame) (l r : Row) :
  values (both L R l r) = values l ++ values r.
Proof. unfold values, both. simpl. now rewrite map_app, !values_rename_vals. Qed.

Lemma values_left_only (L R : DataFrame) (l : Row) :
  values (left_only L R l) = values l ++ map snd (nan_vals (right_columns L R)).
Proof. unfold values, left_only. simpl. now rewrite map_app, values_rename_vals. Qed.

Lemma values_right_only (L R : DataFrame) (r : Row) :
  values (right_only L R r) = map snd (nan_vals (left_columns L R)) ++ values r.
Proof. unfold values, right_only. simpl. now rewrite map_app, values_rename_vals. Qed.

Lemma sourced_length (k : string * option string * Z) (ts : list DataFrame) :
  forall vs, sourced k ts vs -> List.length vs = list_sum (map width ts).
Proof.
  induction ts as [|t ts IH]; intros vs H; simpl in *; [now subst vs |].
  destruct H as [Hw [_ Hrest]]. apply IH in Hrest.
  rewrite <- (firstn_skipn (width t) vs) at 1. rewrite length_app. lia.
Qed.

Lemma sourced_app (k : string * option string * Z) (ts ts' : list DataFrame)
  (vs' : list float64) :
  sourced k ts' vs' ->
  forall vs, sourced k ts vs -> sourced k (ts ++ ts') (vs ++ vs').
Proof.
  intros H'. induction ts as [|t ts IH]; intros vs H; simpl in *.
  - now subst vs.
  - destruct H as [Hw [Hnan Hrest]].
    assert (Hle : (width t <= List.length vs)%nat).
    { rewrite length_firstn in Hw. lia. }
    rewrite firstn_app, skipn_app.
    replace (width t - List.length vs)%nat with 0%nat by lia.
    simpl firstn. simpl skipn. rewrite app_nil_r.
    split; [exact Hw | split; [exact Hnan | now apply IH]].
Qed.

Lemma sourced_single (k : string * option string * Z) (t : DataFrame)
  (vs : list float64) :
  List.length vs = width t ->
  (~ In k (map key (rows t)) -> all_nan vs) ->
  sourced k [t] vs.
Proof.
  intros Hlen Hnan. simpl. rewrite <- Hlen, firstn_all, skipn_all. tauto.
Qed.

Lemma sourced_all_nan (k : string * option string * Z) (ts : list DataFrame) :
  forall vs, all_nan vs -> List.length vs = list_sum (map width ts) ->
             sourced k ts vs.
Proof.
  induction ts as [|t ts IH]; intros vs Hnan Hlen; simpl in *.
  - now apply length_zero_iff_nil.
  - unfold all_nan in *. rewrite <- (firstn_skipn (width t) vs) in Hnan.
    apply Forall_app in Hnan. destruct Hnan as [H1 H2].
    split; [rewrite length_firstn; lia | split; [intros _; exact H1 |]].
    apply IH; [exact H2 |]. rewrite length_skipn. lia.
Qed.

Lemma well_formed_width (t : DataFrame) (r : Row) :
  well_formed t -> In r (rows t) -> List.length (values r) = width t.
Proof.
  intros Hwf Hr. unfold values, width. rewrite <- (Hwf r Hr).
  now rewrite !length_map.
Qed.

Lemma laid_out_first (t : DataFrame) : well_formed t -> laid_out [t] t.
Proof.
  intros Hwf. split; [simpl; unfold width; lia |].
  intros x Hx. apply sourced_single; [now apply well_formed_width |].
  intros Hno. exfalso. apply Hno. now apply in_map.
Qed.

(** One more table merged in, whatever the names of its columns. *)
Lemma laid_out_step (ts : list DataFrame) (m t : DataFrame) :
  laid_out ts m ->
  well_formed t ->
  laid_out (ts ++ [t])
    (mkDataFrame (left_columns m t ++ right_columns m t)
       (sort_by_key (from_left m t true ++ unmatched_right m t))).
Proof.
  intros [Hcols Hrows] Hwf.
  assert (Hl : List.length (left_columns m t) = List.length (columns m))
    by apply length_map.
  assert (Hr : List.length (right_columns m t) = width t) by apply length_map.
  split.
  - simpl columns. rewrite length_app, map_app, list_sum_app. simpl. lia.
  - intros x Hx. simpl rows in Hx. apply outer_rows_In in Hx.
    destruct Hx as [[l [r [Hinl [Hinr [Hk ->]]]]]
                   | [[l [Hinl [Hnot ->]]] | [r [Hinr [Hnot ->]]]]].
    + rewrite values_both. change (key (both m t l r)) with (key l).
      apply sourced_app; [| now apply Hrows].
      apply sourced_single; [now apply well_formed_width |].
      intros Hno. exfalso. apply Hno. rewrite Hk. now apply in_map.
    + rewrite values_left_only. change (key (left_only m t l)) with (key l).
      destruct (values_nan_vals (right_columns m t)) as [Hnan Hlen].
      apply sourced_app; [| now apply Hrows].
      apply sourced_single; [now rewrite Hlen | now intros _].
    + rewrite values_right_only. change (key (right_only m t r)) with (key r).
      destruct (values_nan_vals (left_columns m t)) as [Hnan Hlen].
      apply sourced_app.
      * apply sourced_single; [now apply well_formed_width |].
        intros Hno. exfalso. apply Hno. now apply in_map.
      * apply sourced_all_nan; [exact Hnan |]. now rewrite Hlen, Hl.
Qed.

Lemma merge_loop_laid_out (rest : list DataFrame) :
  forall ts m m',
    laid_out ts m ->
    (forall t, In t rest -> well_formed t) ->
    merge_loop (Some m) rest JOuter = Return (Some m') ->
    laid_out (ts ++ rest) m'.
Proof.
  induction rest as [|t rest IH]; intros ts m m' Hm Hwf Hrun.
  - injection Hrun as <-. now rewrite app_nil_r.
  - apply merge_loop_outer_cons in Hrun.
    replace (ts ++ t :: rest) with ((ts ++ [t]) ++ rest)
      by (rewrite <- app_assoc; reflexivity).
    apply (IH _ _ _ (laid_out_step ts m t Hm (Hwf t (or_introl eq_refl)))).
    + intros u Hu. apply Hwf. now right.
    + exact Hrun.
Qed.

(** C7, as the code has it.  The merge of a non-empty mapping either returns a
    table or raises the [MergeError] of pandas for a duplicate column made by
    the suffixes; it returns whenever the measurement columns of the inputs
    are distinct.  Whenever it returns, the identifier triples of the result
    are exactly the triples found in some input, and the cells of every
    merged row lie table by table in the order of the mapping, the cells of a
    table that lacks the row's triple all holding the null marker.  With
    distinct column names, that is a null marker under every column name of
    such a table. *)
Theorem merge_outer_union (datasets : list (string * DataFrame)) :
  datasets <> [] ->
  ((exists m, merge_dict_datasets datasets JOuter = Return (Some m))
   \/ merge_dict_datasets datasets JOuter = Raise duplicate_columns_error)
  /\ (forall m,
        merge_dict_datasets datasets JOuter = Return (Some m) ->
        (forall k, In k (map key (rows m))
                   <-> exists t, In t (map snd datasets)
                                 /\ In k (map key (rows t)))
        /\ ((forall t, In t (map snd datasets) -> well_formed t) ->
            forall x, In x (rows m) ->
                      sourced (key x) (map snd datasets) (values x)))
  /\ ((forall t, In t (map snd datasets) -> well_formed t) ->
      NoDup (flat_map columns (map snd datasets)) ->
      exists m,
        merge_dict_datasets datasets JOuter = Return (Some m)
        /\ forall x t c,
             In x (rows m) -> In t (map snd datasets) ->
             ~ In (key x) (map key (rows t)) -> In c (columns t) ->
             lookup c (vals x) = Some NaN).
Proof.
  intros Hne. destruct datasets as [|[n0 t0] ds]; [congruence |].
  unfold merge_dict_datasets. simpl map. cbn [merge_loop].
  split; [apply merge_loop_outer_outcome | split].
  - intros m Hrun. split.
    + intros k. rewrite (merge_loop_keys _ _ _ Hrun). split.
      * intros [H | [t [Ht H]]].
        -- exists t0. split; [now left | exact H].
        -- exists t. split; [now right | exact H].
      * intros [t [[<- | Ht] H]]; [now left |]. right. exists t. tauto.
    + intros Hwf x Hx.
      assert (Hlaid : laid_out ([t0] ++ map snd ds) m).
      { apply (merge_loop_laid_out (map snd ds) [t0] t0).
        - apply laid_out_first. apply Hwf. now left.
        - intros u Hu. apply Hwf. now right.
        - exact Hrun. }
      now apply Hlaid.
  - intros Hwf Hnd.
    destruct (merge_loop_merged (map snd ds) [t0] t0) as [m [Hrun Hm]].
    + apply merged_from_first. apply Hwf. now left.
    + intros u Hu. apply Hwf. now right.
    + simpl. rewrite app_nil_r. exact Hnd.
    + exists m. split; [exact Hrun |]. intros x t c Hx Ht Hno Hc.
      destruct Hm as [Hcols [Hwfm [_ Hnull]]].
      apply present_null_cell.
      * rewrite (Hwfm x Hx), Hcols. apply in_flat_map. exists t. tauto.
      * apply (Hnull x t c Hx Ht Hno Hc).
Qed.

Lemma merge_outer_union_witness :
  exists m,
    merge_dict_datasets
      [("population", population_table); ("gdp", gdp_table)] JOuter
    = Return (Some m)
    /\ Forall (fun x => ~ In (key x) (map key (rows gdp_table)) ->
                        lookup "gdp" (vals x) = Some NaN)
              (rows m)
    /\ Forall (fun x => sourced (key x) [population_table; gdp_table] (values x))
              (rows m).
Proof.
  destruct (merge_outer_union
              [("population", population_table); ("gdp", gdp_table)])
    as [_ [Hret Hnull]]; [discriminate |].
  assert (Hwf : forall t, In t [population_table; gdp_table] -> well_formed t).
  { intros t [<- | [<- | []]] r [<- | [<- | []]]; reflexivity. }
  destruct (Hnull Hwf) as [m [Hrun Hcells]].
  { simpl. repeat constructor; simpl; intuition discriminate. }
  exists m. split; [exact Hrun |]. split.
  - apply Forall_forall. intros x Hx Hno.
    apply (Hcells x gdp_table "gdp"); try assumption.
    + simpl. right. now left.
    + simpl. now left.
  - apply Forall_forall. intros x Hx.
    now apply (proj2 (Hret m Hrun) Hwf).
Defined.

(** C7 fails as stated: a mapping of two tables on which the merge returns no
    table at all.  The second table's column [v] is found on both sides, the
    left one becomes [v_x], and the left table has a column [v_x] already. *)
Lemma merge_outer_can_raise :
  [("a", clash_left); ("b", clash_right)] <> []
  /\ merge_dict_datasets [("a", clash_left); ("b", clash_right)] JOuter
     = Raise duplicate_columns_error
  /\ ~ exists m,
         merge_dict_datasets [("a", clash_left); ("b", clash_right)] JOuter
         = Return (Some m).
Proof.
  split; [discriminate |].
  assert (H : merge_dict_datasets [("a", clash_left); ("b", clash_right)] JOuter
              = Raise duplicate_columns_error) by reflexivity.
  split; [exact H |]. intros [m Hm]. rewrite H in Hm. discriminate Hm.
Qed.

(** * Further properties of the pipeline *)

(** ** The row filters *)

Lemma filter_filter {A : Type} (f g : A -> bool) (l : list A) :
  filter f (filter g l) = filter (fun a => g a && f a) l.
Proof.
  induction l as [|a l IH]; simpl; [reflexivity |].
  destruct (g a); simpl; [destruct (f a) |]; now rewrite IH.
Qed.

Lemma filter_idem {A : Type} (f : A -> bool) (l : list A) :
  filter f (filter f l) = filter f l.
Proof. apply filter_all. intros a Ha. now apply filter_In in Ha. Qed.

Lemma code_present_spec (r : Row) :
  code_present r = true <-> exists s, Code r = Some s /\ s <> "".
Proof.
  unfold code_present. destruct (Code r) as [s|].
  - rewrite negb_true_iff. split.
    + intros H. exists s. split; [reflexivity |].
      intros ->. discriminate H.
    + intros [s' [Hs Hne]]. injection Hs as <-.
      destruct (String.eqb_spec s ""); congruence.
  - split; [discriminate | intros [s [H _]]; discriminate H].
Qed.

(** The identifier filter keeps exactly the rows that carry a code that is
    neither null nor empty, and filtering twice changes nothing more. *)
Theorem iso_filter_keeps_coded_rows (df : DataFrame) :
  (forall r, In r (rows (remove_entities_without_iso df))
             <-> In r (rows df) /\ exists s, Code r = Some s /\ s <> "")
  /\ remove_entities_without_iso (remove_entities_without_iso df)
     = remove_entities_without_iso df.
Proof.
  split.
  - intros r. unfold remove_entities_without_iso, select. simpl.
    now rewrite filter_In, code_present_spec.
  - unfold remove_entities_without_iso, select. simpl. now rewrite filter_idem.
Qed.

(** The year filter keeps exactly the rows whose year lies within the bounds
    that are given. *)
Theorem year_range_keeps_years_within (df : DataFrame) (lo hi : option Z) (r : Row) :
  In r (rows (select_year_range df lo hi))
  <-> In r (rows df) /\ above lo (Year r) /\ below hi (Year r).
Proof.
  unfold select_year_range, select, above, below.
  destruct lo as [l|], hi as [h|]; simpl; rewrite ?filter_In, ?Z.leb_le; tauto.
Qed.

(** ** The entity filters *)

Lemma group_select_entities (df : DataFrame) (S : list string) (e : string) :
  group (select (fun r => mem (Entity r) S) df) e
  = if mem e S then group df e else [].
Proof.
  unfold group, select. simpl. rewrite filter_filter.
  destruct (mem e S) eqn:E.
  - apply filter_ext_in. intros r _.
    destruct (String.eqb_spec (Entity r) e) as [-> | Hne];
      [now rewrite E | apply andb_false_r].
  - apply filter_none. intros r _.
    destruct (String.eqb_spec (Entity r) e) as [-> | Hne];
      [now rewrite E | apply andb_false_r].
Qed.

(** Both entity filters work by whole groups: an entity keeps all of its rows
    or loses all of them. *)
Theorem entity_filters_keep_whole_groups (df : DataFrame) (thr : Q) (e : string) :
  group (remove_high_null_entities df thr) e
  = (if mem e (keep_entities df thr) then group df e else [])
  /\ group (column_pct df thr) e
     = (if mem e (valid_entities df thr) then group df e else []).
Proof. split; apply group_select_entities. Qed.

Lemma Qltb_le_trans (a t1 t2 : Q) :
  (t1 <= t2)%Q -> Qltb a t1 = true -> Qltb a t2 = true.
Proof. rewrite !Qltb_lt. intros H1 H2. Lqa.lra. Qed.

(** Raising a threshold never removes a row that was kept. *)
Theorem entity_filters_monotone (df : DataFrame) (t1 t2 : Q) :
  (t1 <= t2)%Q ->
  Subsequence (rows (remove_high_null_entities df t1))
              (rows (remove_high_null_entities df t2))
  /\ Subsequence (rows (column_pct df t1)) (rows (column_pct df t2)).
Proof.
  intros Hle. split; apply Subsequence_filter_impl; intros r _ Hr;
    apply mem_In; apply mem_In in Hr.
  - unfold keep_entities in *. rewrite filter_In in *.
    destruct Hr as [He Hlt]. split; [exact He |]. now apply (Qltb_le_trans _ t1).
  - unfold valid_entities in *. rewrite filter_In in *.
    destruct Hr as [He Hall]. split; [exact He |].
    rewrite forallb_forall in *. intros m Hm.
    apply (Qltb_le_trans _ t1); auto.
Qed.

Lemma entity_filters_monotone_witness :
  Subsequence (rows (remove_high_null_entities half_null_panel (1 # 10)))
              (rows (remove_high_null_entities half_null_panel 60))
  /\ Subsequence (rows (column_pct half_null_panel (1 # 10)))
                 (rows (column_pct half_null_panel 60)).
Proof.
  apply (entity_filters_monotone half_null_panel (1 # 10) 60).
  unfold Qle. simpl. lia.
Defined.

Lemma null_means_bounds (cols : list string) (g : list Row) (m : Q) :
  In m (null_means cols g) -> (0 <= m <= 1)%Q.
Proof.
  unfold null_means. rewrite in_map_iff. intros [t [<- _]].
  unfold Qle. simpl. unfold count.
  pose proof (filter_length_le t g) as Hle.
  destruct (List.length g) as [|n] eqn:E.
  - assert (List.length (filter t g) = 0%nat) as -> by lia. simpl. lia.
  - rewrite Zpos_of_nat by lia. lia.
Qed.

Lemma Qsum_nonneg (l : list Q) :
  (forall m, In m l -> (0 <= m)%Q) -> (0 <= Qsum l)%Q.
Proof.
  induction l as [|a l IH]; intros H; unfold Qsum; simpl; [Lqa.lra |].
  assert (0 <= a)%Q by (apply H; now left).
  assert (0 <= Qsum l)%Q by (apply IH; intros m Hm; apply H; now right).
  unfold Qsum in *. Lqa.lra.
Qed.

Lemma Qmean_nonneg (l : list Q) :
  (forall m, In m l -> (0 <= m)%Q) -> (0 <= Qmean l)%Q.
Proof.
  intros H. unfold Qmean. destruct l as [|a l].
  - unfold Qsum, Qdiv, Qmult, Qle. simpl. lia.
  - apply Qle_shift_div_l.
    + change 0%Q with (inject_Z 0). rewrite <- Zlt_Qlt. simpl. lia.
    + rewrite Qmult_0_l. now apply Qsum_nonneg.
Qed.

(** Null fractions lie between 0 and 1.  So the coarse filter with a threshold
    above 1, like the fine filter with a threshold above 100, removes nothing,
    and either filter with a threshold of 0 or less removes every row. *)
Theorem entity_filters_at_the_bounds (df : DataFrame) (thr : Q) :
  ((1 < thr)%Q -> remove_high_null_entities df thr = df)
  /\ ((100 < thr)%Q -> column_pct df thr = df)
  /\ ((thr <= 0)%Q -> rows (remove_high_null_entities df thr) = []
                     /\ rows (column_pct df thr) = []).
Proof.
  assert (Hhere : forall r, In r (rows df) -> In (Entity r) (entities df)).
  { intros r Hr. apply entities_In. exists r. tauto. }
  split; [| split].
  - intros Hthr. destruct df as [cols rs]. unfold remove_high_null_entities, select.
    simpl columns. simpl rows. f_equal. apply filter_all. intros r Hr.
    apply mem_In. unfold keep_entities. apply filter_In.
    split; [now apply Hhere |]. apply Qltb_lt. apply Qmean_below.
    + apply null_means_nonempty.
    + intros m Hm. apply null_means_bounds in Hm. Lqa.lra.
  - intros Hthr. destruct df as [cols rs]. unfold column_pct, select.
    simpl columns. simpl rows. f_equal. apply filter_all. intros r Hr.
    apply mem_In. unfold valid_entities. apply filter_In.
    split; [now apply Hhere |]. apply forallb_forall. intros m Hm.
    apply Qltb_lt. apply null_means_bounds in Hm. Lqa.lra.
  - intros Hthr. split; apply filter_none; intros r Hr; apply mem_false; intros Hin.
    + unfold keep_entities in Hin. apply filter_In in Hin. destruct Hin as [_ Hlt].
      apply Qltb_lt in Hlt.
      assert (0 <= null_pct (columns df) (group df (Entity r)))%Q.
      { apply Qmean_nonneg. intros m Hm. now apply null_means_bounds in Hm. }
      Lqa.lra.
    + unfold valid_entities in Hin. apply filter_In in Hin. destruct Hin as [_ Hall].
      rewrite forallb_forall in Hall.
      destruct (null_means (columns df) (group df (Entity r))) as [|m ms] eqn:E;
        [now apply null_means_nonempty in E |].
      assert (Hm : In m (null_means (columns df) (group df (Entity r))))
        by (rewrite E; now left).
      pose proof (null_means_bounds _ _ _ Hm) as Hb.
      specialize (Hall m (or_introl eq_refl)).
      apply Qltb_lt in Hall. Lqa.lra.
Qed.

Lemma keep_entities_after_select (df : DataFrame) (S : list string) (thr : Q)
  (r : Row) :
  In r (rows df) -> mem (Entity r) S = true ->
  mem (Entity r) (keep_entities (select (fun r => mem (Entity r) S) df) thr)
  = mem (Entity r) (keep_entities df thr).
Proof.
  intros Hr HS.
  assert (Hiff : In (Entity r)
                   (keep_entities (select (fun r => mem (Entity r) S) df) thr)
                 <-> In (Entity r) (keep_entities df thr)).
  { unfold keep_entities. rewrite !filter_In, group_select_entities, HS.
    simpl columns. rewrite !entities_In. split; intros [_ H]; (split; [| exact H]).
    - exists r. tauto.
    - exists r. split; [| reflexivity]. simpl. apply filter_In. tauto. }
  destruct (mem (Entity r) (keep_entities df thr)) eqn:E.
  - apply mem_In, Hiff, mem_In, E.
  - apply mem_false. intros H. apply Hiff, mem_In in H. congruence.
Qed.

Lemma valid_entities_after_select (df : DataFrame) (S : list string) (thr : Q)
  (r : Row) :
  In r (rows df) -> mem (Entity r) S = true ->
  mem (Entity r) (valid_entities (select (fun r => mem (Entity r) S) df) thr)
  = mem (Entity r) (valid_entities df thr).
Proof.
  intros Hr HS.
  assert (Hiff : In (Entity r)
                   (valid_entities (select (fun r => mem (Entity r) S) df) thr)
                 <-> In (Entity r) (valid_entities df thr)).
  { unfold valid_entities. rewrite !filter_In, group_select_entities, HS.
    simpl columns. rewrite !entities_In. split; intros [_ H]; (split; [| exact H]).
    - exists r. tauto.
    - exists r. split; [| reflexivity]. simpl. apply filter_In. tauto. }
  destruct (mem (Entity r) (valid_entities df thr)) eqn:E.
  - apply mem_In, Hiff, mem_In, E.
  - apply mem_false. intros H. apply Hiff, mem_In in H. congruence.
Qed.

Lemma select_select_all (f g : Row -> bool) (df : DataFrame) :
  (forall r, In r (rows df) -> g r = true -> f r = true) ->
  select f (select g df) = select g df.
Proof.
  intros H. unfold select. simpl. f_equal. apply filter_all.
  intros r Hr. apply filter_In in Hr. destruct Hr as [Hr Hg]. now apply H.
Qed.

(** Each entity filter is idempotent: the entities it keeps have unchanged
    groups, so a second pass with the same threshold keeps them all. *)
Theorem entity_filters_idempotent (df : DataFrame) (thr : Q) :
  remove_high_null_entities (remove_high_null_entities df thr) thr
  = remove_high_null_entities df thr
  /\ column_pct (column_pct df thr) thr = column_pct df thr.
Proof.
  split.
  - unfold remove_high_null_entities. apply select_select_all.
    intros r Hr Hk. now rewrite keep_entities_after_select.
  - unfold column_pct. apply select_select_all.
    intros r Hr Hk. now rewrite valid_entities_after_select.
Qed.

Lemma valid_entities_within_keep (df : DataFrame) (col_thr null_thr : Q)
  (e : string) :
  (col_thr <= 100 * null_thr)%Q ->
  In e (valid_entities df col_thr) -> In e (keep_entities df null_thr).
Proof.
  intros Hthr He. apply valid_entities_spec in He. destruct He as [He Hall].
  unfold keep_entities. apply filter_In. split; [exact He |].
  apply Qltb_lt. unfold null_pct. apply Qmean_below.
  - apply null_means_nonempty.
  - intros m Hm. specialize (Hall m Hm). Lqa.lra.
Qed.

(** In the chain of [main] the coarse filter runs before the fine one.  When
    the fine threshold, a percentage, is at most a hundred times the coarse
    threshold, the coarse pass changes nothing in the outcome: the two filters
    in sequence give what the fine filter gives alone. *)
Theorem coarse_filter_redundant_before_fine (df : DataFrame) (col_thr null_thr : Q) :
  (col_thr <= 100 * null_thr)%Q ->
  column_pct (remove_high_null_entities df null_thr) col_thr = column_pct df col_thr.
Proof.
  intros Hthr. unfold column_pct at 1 2. unfold select. f_equal.
  unfold remove_high_null_entities at 2. unfold select. simpl rows.
  rewrite filter_filter. apply filter_ext_in. intros r Hr.
  destruct (mem (Entity r) (keep_entities df null_thr)) eqn:Ek.
  - simpl. unfold remove_high_null_entities.
    now rewrite valid_entities_after_select.
  - simpl. symmetry. apply mem_false. intros H.
    apply (valid_entities_within_keep df col_thr null_thr _ Hthr), mem_In in H.
    congruence.
Qed.

Lemma coarse_filter_redundant_before_fine_witness :
  column_pct (remove_high_null_entities half_null_panel (6 # 10)) 60
  = column_pct half_null_panel 60.
Proof.
  apply (coarse_filter_redundant_before_fine half_null_panel 60 (6 # 10)).
  unfold Qle. simpl. lia.
Defined.

(** ** The log transform, when it succeeds *)

Lemma cells_after_assign (df : DataFrame) (c d : string) (f : Row -> float64) :
  c <> d ->
  map (fun r => cell r d) (rows (assign df c f)) = map (fun r => cell r d) (rows df).
Proof.
  intros H. simpl. rewrite map_map. apply map_ext. intros r.
  now apply cell_set_cell_neq.
Qed.

Lemma log_transform_succeeds (base : R) (s : string) (cols : list string) :
  forall df,
    (forall c, In c cols -> In c (columns df)) ->
    (forall m, In m cols -> ~ In (m ++ s)%string cols) ->
    (forall c, In c cols -> any_negative (map (fun r => cell r c) (rows df)) = false) ->
    exists df', log_transform df cols base s = (df', Return tt).
Proof.
  induction cols as [|col rest IH]; intros df Hin Hfresh Hneg.
  - exists df. reflexivity.
  - simpl. rewrite (get_col_present df col) by (apply Hin; now left).
    rewrite (Hneg col) by now left.
    apply IH.
    + intros c Hc. apply columns_assign_incl. apply Hin. now right.
    + intros m Hm Hbad. apply (Hfresh m); now right.
    + intros c Hc. rewrite cells_after_assign; [apply Hneg; now right |].
      intros Heq. subst c. apply (Hfresh col); [now left | now right].
Qed.

Lemma flog1p_zero : flog1p (Fin 0) = Fin 0.
Proof.
  simpl. rewrite (Rltb_false 0 (-1)), (Reqb_false 0 (-1)) by lra.
  replace (1 + 0)%R with 1%R by lra. now rewrite ln_1.
Qed.

Lemma log_value_zero (base : R) :
  (0 < base)%R -> base <> 1%R -> log_value base (Fin 0) = Fin 0.
Proof.
  intros Hpos Hone. unfold log_value. rewrite flog1p_zero.
  destruct (Reqb base np_e); [reflexivity |].
  unfold flog. rewrite (Rltb_false base 0), (Reqb_false base 0) by lra.
  rewrite fdiv_Fin.
  - f_equal. unfold Rdiv. apply Rmult_0_l.
  - intros H. apply Hone. apply ln_inv; [exact Hpos | lra |]. now rewrite ln_1.
Qed.

(** When the requested columns exist, hold no negative value, and none of them
    bears the derived name of another, the log transform returns: the
    identifiers and the requested columns are as before, and each derived
    cell is [log1p] of its source cell in the requested base, a zero giving
    a zero. *)
Theorem log_transform_derives_logs
  (df : DataFrame) (cols : list string) (base : R) (s : string) :
  (forall c, In c cols -> In c (columns df)) ->
  (forall m, In m cols -> ~ In (m ++ s)%string cols) ->
  (forall c, In c cols -> any_negative (map (fun r => cell r c) (rows df)) = false) ->
  exists df',
    log_transform df cols base s = (df', Return tt)
    /\ (forall c, In c cols -> In (c ++ s)%string (columns df'))
    /\ Forall2
         (fun r r' =>
            key r' = key r
            /\ forall c, In c cols ->
                 cell r' c = cell r c
                 /\ cell r' (c ++ s) = log_value base (cell r c)
                 /\ ((0 < base)%R -> base <> 1%R -> cell r c = Fin 0 ->
                     cell r' (c ++ s) = Fin 0))
         (rows df) (rows df').
Proof.
  intros Hin Hfresh Hneg.
  destruct (log_transform_succeeds base s cols df Hin Hfresh Hneg) as [df' Hrun].
  exists df'. split; [exact Hrun |].
  destruct (log_transform_rows base s cols df df' Hrun) as [Hrows [_ Hnew]].
  split; [exact Hnew |]. rewrite Hrows. apply Forall2_map_r. intros r _.
  split.
  - destruct (log_row_ids base s cols r) as [He [Hc Hy]].
    unfold key. now rewrite He, Hc, Hy.
  - intros c Hc. split; [| split].
    + apply log_row_other. intros m Hm Heq. subst c. now apply (Hfresh m).
    + now apply log_row_derived.
    + intros Hpos Hone Hzero. rewrite log_row_derived by assumption.
      rewrite Hzero. now apply log_value_zero.
Qed.

Lemma log_transform_derives_logs_witness :
  exists df',
    log_transform two_entity_panel ["P"] 10 "_log" = (df', Return tt)
    /\ In "P_log" (columns df').
Proof.
  destruct (log_transform_derives_logs two_entity_panel ["P"] 10 "_log")
    as [df' [Hrun [Hnew _]]].
  - intros c [<- | []]. simpl. now left.
  - intros m [<- | []] [H | []]. discriminate H.
  - intros c [<- | []]. unfold any_negative, cell. simpl.
    now rewrite Rltb_false by lra.
  - exists df'. split; [exact Hrun |]. apply (Hnew "P"). now left.
Defined.

Lemma update_same (c : string) (v : float64) (l : list (string * float64)) :
  lookup c l = Some v -> update c v l = l.
Proof.
  induction l as [|[k w] l IH]; simpl; [discriminate |].
  destruct (String.eqb_spec c k) as [-> | Hne].
  - now intros [= ->].
  - intros H. now rewrite IH.
Qed.

Lemma set_cell_same (c : string) (v : float64) (r : Row) :
  lookup c (vals r) = Some v -> set_cell c v r = r.
Proof.
  intros H. unfold set_cell. rewrite update_same by exact H. now destruct r.
Qed.

Lemma log_row_lookup_other (base : R) (s c : string) (cols : list string) :
  forall r, (forall m, In m cols -> (m ++ s)%string <> c) ->
            lookup c (vals (log_row base s cols r)) = lookup c (vals r).
Proof.
  induction cols as [|col rest IH]; intros r H; [reflexivity |].
  rewrite log_row_cons, IH.
  - simpl. apply lookup_update_neq. apply H. now left.
  - intros m Hm. apply H. now right.
Qed.

Lemma log_row_lookup (base : R) (s n : string) (cols : list string) :
  forall r,
    (forall m, In m cols -> ~ In (m ++ s)%string cols) ->
    In n cols ->
    lookup (n ++ s) (vals (log_row base s cols r)) = Some (log_value base (cell r n)).
Proof.
  induction cols as [|col rest IH]; intros r Hfresh Hn; [destruct Hn |].
  rewrite log_row_cons.
  set (r1 := set_cell (col ++ s)%string (log_value base (cell r col)) r).
  assert (Hcol : forall c, In c (col :: rest) -> cell r1 c = cell r c).
  { intros c Hc. apply cell_set_cell_neq. intros Heq. subst c.
    apply (Hfresh col); [now left | exact Hc]. }
  destruct (in_dec string_dec n rest) as [Hin | Hnin].
  - rewrite IH.
    + rewrite Hcol; [reflexivity | now right].
    + intros m Hm Hbad. apply (Hfresh m); now right.
    + exact Hin.
  - destruct Hn as [<- | Hn]; [| contradiction].
    rewrite log_row_lookup_other.
    + apply lookup_update_eq.
    + intros m Hm Heq. apply append_cancel_r in Heq. subst m. contradiction.
Qed.

Lemma log_row_again (base : R) (s : string) (cols cs : list string) (r : Row) :
  (forall m, In m cols -> ~ In (m ++ s)%string cols) ->
  incl cs cols ->
  log_row base s cs (log_row base s cols r) = log_row base s cols r.
Proof.
  intros Hfresh. induction cs as [|c cs IH]; intros Hincl; [reflexivity |].
  assert (Hc : In c cols) by (apply Hincl; now left).
  rewrite log_row_cons, set_cell_same.
  - apply IH. intros d Hd. apply Hincl. now right.
  - rewrite log_row_lookup by assumption. f_equal. f_equal. symmetry.
    apply log_row_other. intros m Hm Heq. subst c. now apply (Hfresh m).
Qed.

Lemma log_transform_columns_same (base : R) (s : string) (cols : list string) :
  forall df df1,
    (forall c, In c cols -> In (c ++ s)%string (columns df)) ->
    log_transform df cols base s = (df1, Return tt) ->
    columns df1 = columns df.
Proof.
  induction cols as [|col rest IH]; intros df df1 Hin H; simpl in H.
  - now injection H as <-.
  - destruct (get_col df col) as [xs | e]; [| discriminate H].
    destruct (any_negative xs); [discriminate H |].
    assert (Hmem : mem (col ++ s) (columns df) = true)
      by (apply mem_In, Hin; now left).
    apply IH in H.
    + rewrite H. simpl. now rewrite Hmem.
    + intros c Hc. simpl. rewrite Hmem. apply Hin. now right.
Qed.

(** Deriving the logs a second time changes nothing: the derived columns are
    overwritten with the values they already hold. *)
Theorem log_transform_twice
  (df : DataFrame) (cols : list string) (base : R) (s : string) :
  (forall c, In c cols -> In c (columns df)) ->
  (forall m, In m cols -> ~ In (m ++ s)%string cols) ->
  (forall c, In c cols -> any_negative (map (fun r => cell r c) (rows df)) = false) ->
  exists df',
    log_transform df cols base s = (df', Return tt)
    /\ log_transform df' cols base s = (df', Return tt).
Proof.
  intros Hin Hfresh Hneg.
  destruct (log_transform_succeeds base s cols df Hin Hfresh Hneg) as [df' Hrun].
  exists df'. split; [exact Hrun |].
  destruct (log_transform_rows base s cols df df' Hrun) as [Hrows [Hcols Hnew]].
  destruct (log_transform_succeeds base s cols df') as [df'' Hrun'].
  - intros c Hc. apply Hcols. now apply Hin.
  - exact Hfresh.
  - intros c Hc. rewrite Hrows, map_map. rewrite <- (Hneg c Hc). f_equal.
    apply map_ext. intros r. apply log_row_other.
    intros m Hm Heq. subst c. now apply (Hfresh m).
  - rewrite Hrun'. f_equal.
    destruct (log_transform_rows base s cols df' df'' Hrun') as [Hrows' _].
    pose proof (log_transform_columns_same base s cols df' df'' Hnew Hrun') as Hc.
    destruct df'' as [c2 r2], df' as [c1 r1]. simpl in *. subst c2. f_equal.
    rewrite Hrows', Hrows, map_map. apply map_ext. intros r.
    apply log_row_again; [exact Hfresh | apply incl_refl].
Qed.

Lemma log_transform_twice_witness :
  exists df',
    log_transform two_entity_panel ["P"] 10 "_log" = (df', Return tt)
    /\ log_transform df' ["P"] 10 "_log" = (df', Return tt).
Proof.
  apply (log_transform_twice two_entity_panel ["P"] 10 "_log").
  - intros c [<- | []]. simpl. now left.
  - intros m [<- | []] [H | []]. discriminate H.
  - intros c [<- | []]. unfold any_negative, cell. simpl.
    now rewrite Rltb_false by lra.
Defined.

(** ** Missing columns *)





(** ** Interpolation: what is kept and what is filled *)

Lemma fills_only_nulls (G : Z * float64 -> float64) (l : list float64) :
  forall i,
    Forall2 (fun v o => o = None \/ isnan v = true) l
      (map (fun p => if isnan (snd p) then Some (G p) else None) (indexed i l)).
Proof.
  induction l as [|v l IH]; intros i; simpl; constructor; [| apply IH].
  destruct (isnan v); [now right | now left].
Qed.

Lemma fills_null_positions (l : list float64) :
  Forall2 (fun v o => o = None \/ isnan v = true) l (fills l).
Proof.
  unfold fills. destruct (valid_points l) as [|p pts].
  - induction l; simpl; constructor; [now left | assumption].
  - apply fills_only_nulls.
Qed.

Lemma Forall2_map_l {A B C : Type} (P : B -> C -> Prop) (f : A -> B)
  (l : list A) (l' : list C) :
  Forall2 P (map f l) l' -> Forall2 (fun a c => P (f a) c) l l'.
Proof.
  revert l'. induction l as [|a l IH]; intros l' H; inversion H; subst;
    constructor; auto.
Qed.

Lemma keeps_present_refl (r : Row) : keeps_present r r.
Proof. split; [reflexivity | auto]. Qed.

Lemma keeps_present_trans (r1 r2 r3 : Row) :
  keeps_present r1 r2 -> keeps_present r2 r3 -> keeps_present r1 r3.
Proof.
  intros [Hk1 H1] [Hk2 H2]. split; [congruence |].
  intros c Hc. rewrite H2; [now apply H1 |]. now rewrite H1.
Qed.

Lemma apply_fills_keeps_present (c : string) (fs : list (option float64)) :
  forall g,
    Forall2 (fun r o => o = None \/ isnan (cell r c) = true) g fs ->
    Forall2 keeps_present g (apply_fills c fs g).
Proof.
  induction fs as [|o fs IH]; intros g H; inversion H as [|r o' g' fs' Ho Hrest];
    subst; simpl.
  - constructor.
  - destruct o as [v|].
    + constructor; [| now apply IH]. destruct Ho as [Ho | Hnan]; [discriminate |].
      split; [reflexivity |]. intros d Hd.
      destruct (String.eqb_spec c d) as [<- | Hne].
      * unfold isnull in Hd. congruence.
      * now apply cell_set_cell_neq.
    + constructor; [apply keeps_present_refl | now apply IH].
Qed.

Lemma interpolate_column_keeps_present (c : string) (g : list Row) :
  Forall2 keeps_present g (interpolate_column c g).
Proof.
  unfold interpolate_column. apply apply_fills_keeps_present.
  apply Forall2_map_l with (f := fun r => cell r c)
                           (P := fun v o => o = None \/ isnan v = true).
  apply fills_null_positions.
Qed.

Lemma Forall2_trans {A : Type} (P : A -> A -> Prop) (l1 l2 l3 : list A) :
  (forall a b c, P a b -> P b c -> P a c) ->
  Forall2 P l1 l2 -> Forall2 P l2 l3 -> Forall2 P l1 l3.
Proof.
  intros Ht H12. revert l3. induction H12; intros l3 H23; inversion H23; subst;
    constructor; eauto.
Qed.

Lemma interpolate_group_keeps_present (cols : list string) :
  forall g, Forall2 keeps_present g (interpolate_group cols g).
Proof.
  unfold interpolate_group. induction cols as [|c cols IH]; intros g; simpl.
  - induction g; constructor; [apply keeps_present_refl | assumption].
  - apply (Forall2_trans keeps_present g (interpolate_column c g));
      [exact keeps_present_trans | apply interpolate_column_keeps_present | apply IH].
Qed.

(** Interpolation changes no identifier and no value that is present: row by
    row, the group of an entity afterwards carries the triples it had and
    every non-null cell it had; only nulls are replaced. *)
Theorem interpolation_keeps_present_values (df : DataFrame) (e : string) :
  Forall2 keeps_present (group df e) (group (interpolate_missing df) e).
Proof.
  rewrite interpolate_missing_group. apply interpolate_group_keeps_present.
Qed.

Lemma indexed_fst_ge {A : Type} (l : list A) :
  forall i q, In q (indexed i l) -> (i <= fst q)%Z.
Proof.
  induction l as [|a l IH]; intros i q H; simpl in H; [destruct H |].
  destruct H as [<- | H]; [simpl; lia |]. apply IH in H. lia.
Qed.

Lemma indexed_snd_In {A : Type} (l : list A) :
  forall i q, In q (indexed i l) -> In (snd q) l.
Proof.
  induction l as [|a l IH]; intros i q H; simpl in H; [destruct H |].
  destruct H as [<- | H]; [now left | right; now apply (IH (i + 1)%Z)].
Qed.

Lemma indexed_In {A : Type} (l : list A) (a : A) :
  forall i, In a l -> exists j, In (j, a) (indexed i l).
Proof.
  induction l as [|b l IH]; intros i H; [destruct H |].
  destruct H as [-> | H].
  - exists i. now left.
  - destruct (IH (i + 1)%Z H) as [j Hj]. exists j. now right.
Qed.

Lemma indexed_sorted (l : list float64) :
  forall i, StronglySorted by_position (indexed i l).
Proof.
  induction l as [|a l IH]; intros i; simpl; constructor; [apply IH |].
  apply Forall_forall. intros q Hq. apply indexed_fst_ge in Hq.
  unfold by_position. simpl. lia.
Qed.

Lemma StronglySorted_filter {A : Type} (R : A -> A -> Prop) (f : A -> bool)
  (l : list A) :
  StronglySorted R l -> StronglySorted R (filter f l).
Proof.
  induction 1 as [|a l Hl IH Ha]; simpl; [constructor |].
  destruct (f a); [| exact IH]. constructor; [exact IH |].
  apply Forall_forall. intros b Hb. apply filter_In in Hb.
  rewrite Forall_forall in Ha. now apply Ha.
Qed.

Lemma valid_points_sorted (l : list float64) : Sorted by_position (valid_points l).
Proof.
  apply StronglySorted_Sorted. unfold valid_points.
  apply StronglySorted_filter, indexed_sorted.
Qed.

Lemma interp_segment_finite (x x0 x1 : Z) (f0 f1 : float64) :
  (x0 < x1)%Z -> is_finite f0 = true -> is_finite f1 = true ->
  is_finite (interp_segment x x0 x1 f0 f1) = true.
Proof.
  intros Hlt H0 H1. destruct f0 as [| | |a]; try discriminate.
  destruct f1 as [| | |b]; try discriminate.
  unfold interp_segment, of_Z. cbv zeta.
  change (fsub (Fin b) (Fin a)) with (Fin (b + - a)).
  rewrite fdiv_Fin by (apply not_0_IZR; lia). reflexivity.
Qed.

Lemma np_interp_from_finite (x : Z) (pts : list (Z * float64)) :
  forall prev,
    is_finite (snd prev) = true ->
    (forall p, In p pts -> is_finite (snd p) = true) ->
    Sorted by_position (prev :: pts) ->
    is_finite (np_interp_from x prev pts) = true.
Proof.
  induction pts as [|p pts IH]; intros prev Hprev Hall Hs; simpl; [exact Hprev |].
  inversion Hs as [|? ? Hs' Hhd]; subst. inversion Hhd as [|? ? Hlt]; subst.
  destruct (x <? fst p)%Z.
  - apply interp_segment_finite; [exact Hlt | exact Hprev | apply Hall; now left].
  - apply IH; [apply Hall; now left | intros q Hq; apply Hall; now right | exact Hs'].
Qed.

Lemma np_interp_finite (x : Z) (pts : list (Z * float64)) :
  pts <> [] ->
  (forall p, In p pts -> is_finite (snd p) = true) ->
  Sorted by_position pts ->
  is_finite (np_interp x pts) = true.
Proof.
  intros Hne Hall Hs. destruct pts as [|p pts]; [congruence |]. simpl.
  destruct (x <=? fst p)%Z; [apply Hall; now left |].
  apply np_interp_from_finite;
    [apply Hall; now left | intros q Hq; apply Hall; now right | exact Hs].
Qed.

Lemma fills_finite (l : list float64) :
  (exists v, In v l /\ is_finite v = true) ->
  (forall v, In v l -> isnan v = false -> is_finite v = true) ->
  Forall2 (fun v o => match o with
                      | Some w => is_finite w = true
                      | None => is_finite v = true
                      end) l (fills l).
Proof.
  intros [v0 [Hin0 Hfin0]] Hall.
  assert (Hpts : forall p, In p (valid_points l) -> is_finite (snd p) = true).
  { intros p Hp. unfold valid_points in Hp. apply filter_In in Hp.
    destruct Hp as [Hp Hnan]. apply Hall; [now apply indexed_snd_In in Hp |].
    now apply negb_true_iff in Hnan. }
  assert (Hne : valid_points l <> []).
  { destruct (indexed_In l v0 0%Z Hin0) as [j Hj].
    assert (Hv : In (j, v0) (valid_points l)).
    { unfold valid_points. apply filter_In. split; [exact Hj |].
      simpl. now destruct v0. }
    intros E. rewrite E in Hv. destruct Hv. }
  pose proof (valid_points_sorted l) as Hs.
  unfold fills. destruct (valid_points l) as [|p pts] eqn:E; [congruence |].
  clear E Hin0. revert Hall. generalize 0%Z.
  induction l as [|v l IH]; intros i Hall; cbn [indexed map]; constructor.
  - cbn [snd fst]. destruct (isnan v) eqn:Ev.
    + now apply np_interp_finite.
    + apply Hall; [now left | exact Ev].
  - apply IH. intros w Hw. apply Hall. now right.
Qed.

Lemma apply_fills_finite (c : string) (fs : list (option float64)) :
  forall g,
    Forall2 (fun r o => match o with
                        | Some w => is_finite w = true
                        | None => is_finite (cell r c) = true
                        end) g fs ->
    Forall (fun r => is_finite (cell r c) = true) (apply_fills c fs g).
Proof.
  induction fs as [|o fs IH]; intros g H; inversion H as [|r o' g' fs' Ho Hrest];
    subst; simpl; [constructor |].
  destruct o as [w|]; constructor; try (now apply IH).
  - now rewrite cell_set_cell_eq.
  - exact Ho.
Qed.

Lemma interpolate_column_fills_all (c : string) (g : list Row) :
  (exists r, In r g /\ is_finite (cell r c) = true) ->
  (forall r, In r g -> isnull (cell r c) = false -> is_finite (cell r c) = true) ->
  Forall (fun r => is_finite (cell r c) = true) (interpolate_column c g).
Proof.
  intros [r0 [Hin0 Hfin0]] Hall. unfold interpolate_column.
  apply apply_fills_finite.
  apply Forall2_map_l with
    (f := fun r => cell r c)
    (P := fun v o => match o with
                     | Some w => is_finite w = true
                     | None => is_finite v = true
                     end).
  apply fills_finite.
  - exists (cell r0 c). split; [| exact Hfin0].
    apply in_map_iff. exists r0. tauto.
  - intros v Hv. apply in_map_iff in Hv. destruct Hv as [r [<- Hr]]. now apply Hall.
Qed.

Lemma Forall2_Forall_r {A : Type} (P : A -> A -> Prop) (Q Q' : A -> Prop)
  (l l' : list A) :
  (forall a b, P a b -> Q a -> Q' b) ->
  Forall2 P l l' -> Forall Q l -> Forall Q' l'.
Proof.
  intros HPQ H. induction H; intros HQ; inversion HQ; subst; constructor; eauto.
Qed.

Lemma finite_stays (c : string) (cols : list string) (g : list Row) :
  Forall (fun r => is_finite (cell r c) = true) g ->
  Forall (fun r => is_finite (cell r c) = true) (interpolate_group cols g).
Proof.
  apply (Forall2_Forall_r keeps_present) with (l := g).
  - intros a b [_ H] Ha. rewrite H; [exact Ha |].
    unfold isnull. now destruct (cell a c).
  - apply interpolate_group_keeps_present.
Qed.

Lemma interpolate_group_fills_all (c : string) (cols : list string) :
  forall g,
    In c cols ->
    (exists r, In r g /\ is_finite (cell r c) = true) ->
    (forall r, In r g -> isnull (cell r c) = false -> is_finite (cell r c) = true) ->
    Forall (fun r => is_finite (cell r c) = true) (interpolate_group cols g).
Proof.
  induction cols as [|d cols IH]; intros g Hc Hsome Hall; [destruct Hc |].
  change (interpolate_group (d :: cols) g)
    with (interpolate_group cols (interpolate_column d g)).
  destruct (String.eqb_spec d c) as [-> | Hne].
  - apply finite_stays. now apply interpolate_column_fills_all.
  - destruct Hc as [Hc | Hc]; [congruence |].
    pose proof (apply_fills_same_but d (fills (map (fun r => cell r d) g)) g) as Hsb.
    fold (interpolate_column d g) in Hsb.
    apply IH; [exact Hc | |].
    + destruct Hsome as [r [Hr Hfin]]. clear -Hsb Hr Hfin Hne.
      induction Hsb as [|a b l l' Hab _ IH']; [destruct Hr |].
      destruct Hr as [-> | Hr].
      * exists b. split; [now left |].
        destruct Hab as [_ [_ [_ Hcells]]]. rewrite Hcells by congruence. exact Hfin.
      * destruct (IH' Hr) as [b' [Hb' Hf]]. exists b'. split; [now right | exact Hf].
    + intros r' Hr' Hnn.
      destruct (Forall2_In_r _ _ _ r' Hsb Hr') as [r [Hr [_ [_ [_ Hcells]]]]].
      rewrite Hcells in * by congruence. now apply Hall.
Qed.

(** After interpolation a measurement column of an entity holds no null as
    soon as it held one value, leading and trailing gaps included (for finite
    values). *)
Theorem interpolation_leaves_no_null (df : DataFrame) (e c : string) :
  In c (columns df) ->
  (exists r, In r (group df e) /\ is_finite (cell r c) = true) ->
  (forall r, In r (group df e) -> isnull (cell r c) = false ->
             is_finite (cell r c) = true) ->
  Forall (fun r => is_finite (cell r c) = true) (group (interpolate_missing df) e).
Proof.
  intros Hc Hsome Hall. rewrite interpolate_missing_group.
  now apply interpolate_group_fills_all.
Qed.

Lemma interpolation_leaves_no_null_witness :
  Forall (fun r => is_finite (cell r "x") = true)
         (group (interpolate_missing midpoint_panel) "A").
Proof.
  apply (interpolation_leaves_no_null midpoint_panel "A" "x").
  - simpl. now left.
  - eexists. split; [left; reflexivity | reflexivity].
  - intros r [<- | [<- | [<- | []]]]; try reflexivity. discriminate.
Defined.

(** ** The global fit: nulls, constant abscissa, range of R-squared *)

Lemma combine_fst_snd {A B : Type} (l : list (A * B)) :
  combine (map fst l) (map snd l) = l.
Proof. induction l as [|[a b] l IH]; simpl; [reflexivity | now rewrite IH]. Qed.

Lemma valid_pairs_again (x y : list float64) :
  valid_pairs (map fst (valid_pairs x y)) (map snd (valid_pairs x y))
  = valid_pairs x y.
Proof.
  unfold valid_pairs at 1. rewrite combine_fst_snd.
  unfold valid_pairs. apply filter_idem.
Qed.

(** On two arrays of the same length the fit depends on the valid pairs only:
    it is the fit of the two sequences with every position dropped where
    either value is null. *)
Theorem fit_ignores_null_positions (x y : list float64) :
  List.length x = List.length y ->
  fit_log_log_regression x y
  = fit_log_log_regression (map fst (valid_pairs x y)) (map snd (valid_pairs x y)).
Proof.
  intros Hlen. rewrite (fit_equal_lengths x y Hlen).
  rewrite fit_equal_lengths by now rewrite !length_map.
  now rewrite valid_pairs_again.
Qed.

Lemma fit_ignores_null_positions_witness :
  fit_log_log_regression [Fin 1; NaN; Fin 2] [Fin 3; Fin 4; NaN]
  = fit_log_log_regression [Fin 1] [Fin 3].
Proof.
  apply (fit_ignores_null_positions [Fin 1; NaN; Fin 2] [Fin 3; Fin 4; NaN]).
  reflexivity.
Defined.

Lemma clamp_r_range (v : float64) : nan_or_within (-1) 1 (clamp_r v).
Proof.
  unfold clamp_r, fgtb, nan_or_within. destruct v as [| | |r]; simpl.
  - now left.
  - right. exists 1%R. split; [reflexivity | lra].
  - right. exists (-1)%R. split; [reflexivity | lra].
  - unfold Rltb. destruct (Rlt_dec 1 r); [right; exists 1%R; split; [reflexivity | lra] |].
    destruct (Rlt_dec r (-1)); right.
    + exists (-1)%R. split; [reflexivity | lra].
    + exists r. split; [reflexivity | lra].
Qed.

Lemma linregress_rvalue_range (x y : list float64) (res : LinregressResult) :
  linregress x y = Return res -> nan_or_within (-1) 1 (lr_rvalue res).
Proof.
  unfold linregress.
  destruct (is_empty x || is_empty y); [discriminate |].
  destruct (feqb (amax x) (amin x) && (1 <? List.length x)%nat); [discriminate |].
  match goal with
  | |- context [if ?c then Fin 0 else clamp_r ?v] =>
      assert (Hr : nan_or_within (-1) 1 (if c then Fin 0 else clamp_r v))
  end.
  { match goal with |- context [if ?c then _ else _] => destruct c end.
    - right. exists 0%R. split; [reflexivity | lra].
    - apply clamp_r_range. }
  destruct (Z.of_nat (List.length x) =? 2)%Z; intros [= <-]; exact Hr.
Qed.

(** A fit that returns reports an R-squared that is NaN or lies between 0
    and 1: the correlation is clamped to [-1, 1] before it is squared. *)
Theorem r_squared_between_0_and_1 (x y : list float64) :
  match fit_log_log_regression x y with
  | Return res => nan_or_within 0 1 (r_squared res)
  | Raise _ => True
  end.
Proof.
  unfold fit_log_log_regression.
  destruct (negb (List.length x =? List.length y)%nat); [exact I |].
  destruct (linregress (map fst (valid_pairs x y)) (map snd (valid_pairs x y)))
    as [res | e] eqn:E; simpl; [| exact I].
  destruct (linregress_rvalue_range _ _ _ E) as [-> | [q [-> Hq]]].
  - now left.
  - right. exists (q * q)%R. split; [reflexivity | nra].
Qed.

Lemma fltb_irrefl (v : float64) : fltb v v = false.
Proof. destruct v as [| | |r]; simpl; try reflexivity. apply Rltb_false. lra. Qed.

Lemma feqb_refl (v : float64) : isnan v = false -> feqb v v = true.
Proof. destruct v as [| | |r]; simpl; try discriminate; auto. intros _. apply Reqb_refl. Qed.

Lemma fold_constant (f : float64 -> float64 -> float64) (v : float64)
  (l : list float64) :
  f v v = v -> (forall w, In w l -> w = v) -> fold_left f l v = v.
Proof.
  intros Hf. induction l as [|w l IH]; intros H; simpl; [reflexivity |].
  rewrite (H w (or_introl eq_refl)), Hf. apply IH. intros u Hu. apply H. now right.
Qed.

Lemma amax_amin_constant (v : float64) (l : list float64) :
  isnan v = false -> (forall w, In w l -> w = v) ->
  feqb (amax (v :: l)) (amin (v :: l)) = true.
Proof.
  intros Hv H. simpl.
  rewrite (fold_constant fmax2), (fold_constant fmin2); auto.
  - now apply feqb_refl.
  - unfold fmin2. now rewrite Hv, fltb_irrefl.
  - unfold fmax2. now rewrite Hv, fltb_irrefl.
Qed.

(** On two arrays of the same length with two or more valid pairs that all
    share one abscissa, the fit raises the [ValueError] of [linregress] for
    identical x values. *)
Theorem fit_identical_x_raises (x y : list float64) (v : float64) :
  List.length x = List.length y ->
  (2 <= List.length (valid_pairs x y))%nat ->
  (forall p, In p (valid_pairs x y) -> fst p = v) ->
  fit_log_log_regression x y = Raise identical_x_error.
Proof.
  intros Heq Hlen Hall. rewrite (fit_equal_lengths x y Heq).
  pose proof (valid_pairs_not_nan x y) as Hnn.
  destruct (valid_pairs x y) as [|[a b] [|q l]] eqn:E; simpl in Hlen; try lia.
  assert (Ha : a = v) by (apply (Hall (a, b)); now left).
  assert (Hnan : isnan v = false).
  { rewrite <- Ha. apply (Hnn (a, b)). now left. }
  unfold linregress. simpl is_empty. simpl orb. cbv iota.
  simpl map. rewrite Ha, amax_amin_constant; [reflexivity | exact Hnan |].
  intros w Hw. destruct Hw as [<- | Hw].
  - apply (Hall q). right. now left.
  - apply in_map_iff in Hw. destruct Hw as [p [<- Hp]]. apply Hall. right. now right.
Qed.

Lemma fit_identical_x_raises_witness :
  fit_log_log_regression [Fin 1; NaN; Fin 1] [Fin 2; Fin 5; Fin 3]
  = Raise identical_x_error.
Proof.
  apply (fit_identical_x_raises _ _ (Fin 1)).
  - reflexivity.
  - simpl. lia.
  - intros p [<- | [<- | []]]; reflexivity.
Defined.

(** ** The global fit: when it returns *)

(** The order of the floats that are not NaN: [fltb b a = false] reads
    [a <= b]. *)
Lemma fltb_asym (a b : float64) : fltb a b = true -> fltb b a = false.
Proof.
  destruct a as [| | |r], b as [| | |s]; simpl; try reflexivity; try discriminate.
  unfold Rltb. destruct (Rlt_dec r s), (Rlt_dec s r); try reflexivity; try discriminate.
  lra.
Qed.

Lemma fle_trans (a b c : float64) :
  isnan a = false -> isnan b = false -> isnan c = false ->
  fltb b a = false -> fltb c b = false -> fltb c a = false.
Proof.
  destruct a as [| | |r], b as [| | |s], c as [| | |t]; simpl;
    try reflexivity; try discriminate.
  unfold Rltb. intros _ _ _.
  destruct (Rlt_dec s r), (Rlt_dec t s), (Rlt_dec t r);
    try reflexivity; try discriminate.
  lra.
Qed.

Lemma fle_antisym (a b : float64) :
  isnan a = false -> isnan b = false ->
  fltb a b = false -> fltb b a = false -> a = b.
Proof.
  destruct a as [| | |r], b as [| | |s]; simpl; try reflexivity; try discriminate.
  unfold Rltb. intros _ _.
  destruct (Rlt_dec r s), (Rlt_dec s r); try discriminate.
  intros _ _. f_equal. lra.
Qed.

Lemma feqb_eq (a b : float64) : feqb a b = true -> a = b.
Proof.
  destruct a as [| | |r], b as [| | |s]; simpl; try reflexivity; try discriminate.
  unfold Reqb. destruct (Req_dec_T r s); [now intros _; subst | discriminate].
Qed.

Lemma fmax2_bound (a b : float64) :
  isnan a = false -> isnan b = false ->
  isnan (fmax2 a b) = false
  /\ fltb (fmax2 a b) a = false /\ fltb (fmax2 a b) b = false.
Proof.
  intros Ha Hb. unfold fmax2. rewrite Ha, Hb. simpl.
  destruct (fltb a b) eqn:E.
  - split; [exact Hb | split; [now apply fltb_asym | apply fltb_irrefl]].
  - split; [exact Ha | split; [apply fltb_irrefl | exact E]].
Qed.

Lemma fmin2_bound (a b : float64) :
  isnan a = false -> isnan b = false ->
  isnan (fmin2 a b) = false
  /\ fltb a (fmin2 a b) = false /\ fltb b (fmin2 a b) = false.
Proof.
  intros Ha Hb. unfold fmin2. rewrite Ha, Hb. simpl.
  destruct (fltb b a) eqn:E.
  - split; [exact Hb | split; [now apply fltb_asym | apply fltb_irrefl]].
  - split; [exact Ha | split; [apply fltb_irrefl | exact E]].
Qed.

(** No value of the array exceeds [np.amax], none is below [np.amin]. *)
Lemma fold_max_bound (l : list float64) :
  forall a,
    isnan a = false -> (forall w, In w l -> isnan w = false) ->
    isnan (fold_left fmax2 l a) = false
    /\ forall w, In w (a :: l) -> fltb (fold_left fmax2 l a) w = false.
Proof.
  induction l as [|b l IH]; intros a Ha Hl; simpl fold_left.
  - split; [exact Ha |]. intros w [<- | []]. apply fltb_irrefl.
  - assert (Hb : isnan b = false) by (apply Hl; now left).
    destruct (fmax2_bound a b Ha Hb) as [Hn [H1 H2]].
    destruct (IH (fmax2 a b) Hn) as [HM Hall].
    { intros w Hw. apply Hl. now right. }
    split; [exact HM |].
    assert (Htop : fltb (fold_left fmax2 l (fmax2 a b)) (fmax2 a b) = false)
      by (apply Hall; now left).
    intros w [<- | [<- | Hw]].
    + now apply (fle_trans _ (fmax2 a b)).
    + now apply (fle_trans _ (fmax2 a b)).
    + apply Hall. now right.
Qed.

Lemma fold_min_bound (l : list float64) :
  forall a,
    isnan a = false -> (forall w, In w l -> isnan w = false) ->
    isnan (fold_left fmin2 l a) = false
    /\ forall w, In w (a :: l) -> fltb w (fold_left fmin2 l a) = false.
Proof.
  induction l as [|b l IH]; intros a Ha Hl; simpl fold_left.
  - split; [exact Ha |]. intros w [<- | []]. apply fltb_irrefl.
  - assert (Hb : isnan b = false) by (apply Hl; now left).
    destruct (fmin2_bound a b Ha Hb) as [Hn [H1 H2]].
    destruct (IH (fmin2 a b) Hn) as [Hm Hall].
    { intros w Hw. apply Hl. now right. }
    split; [exact Hm |].
    assert (Hbot : fltb (fmin2 a b) (fold_left fmin2 l (fmin2 a b)) = false)
      by (apply Hall; now left).
    intros w [<- | [<- | Hw]].
    + now apply (fle_trans _ (fmin2 a b)).
    + now apply (fle_trans _ (fmin2 a b)).
    + apply Hall. now right.
Qed.

(** An array without NaN whose maximum equals its minimum is constant. *)
Lemma amax_amin_equal (l : list float64) (u v : float64) :
  (forall w, In w l -> isnan w = false) ->
  In u l -> In v l ->
  feqb (amax l) (amin l) = true -> u = v.
Proof.
  intros Hl Hu Hv Heq. destruct l as [|a l]; [destruct Hu |].
  simpl amax in Heq. simpl amin in Heq.
  assert (Ha : isnan a = false) by (apply Hl; now left).
  assert (Hl' : forall w, In w l -> isnan w = false)
    by (intros w Hw; apply Hl; now right).
  destruct (fold_max_bound l a Ha Hl') as [HM Hmax].
  destruct (fold_min_bound l a Ha Hl') as [Hm Hmin].
  apply feqb_eq in Heq. rewrite <- Heq in Hmin, Hm.
  assert (Hall : forall w, In w (a :: l) -> w = fold_left fmax2 l a).
  { intros w Hw. apply fle_antisym; auto. }
  now rewrite (Hall u Hu), (Hall v Hv).
Qed.

Lemma linregress_returns (x y : list float64) :
  x <> [] -> y <> [] -> feqb (amax x) (amin x) = false ->
  exists res, linregress x y = Return res.
Proof.
  intros Hx Hy Hne. unfold linregress.
  destruct x as [|a x]; [congruence |]. destruct y as [|b y]; [congruence |].
  simpl is_empty. simpl orb. cbv iota. rewrite Hne. simpl andb. cbv iota.
  destruct (Z.of_nat (List.length (a :: x)) =? 2)%Z; eexists; reflexivity.
Qed.

(** On two arrays of the same length with two valid pairs of different
    abscissas, the fit raises nothing: it returns a result. *)
Theorem fit_returns_with_distinct_x (x y : list float64) (p q : float64 * float64) :
  List.length x = List.length y ->
  In p (valid_pairs x y) -> In q (valid_pairs x y) -> fst p <> fst q ->
  exists res, fit_log_log_regression x y = Return res.
Proof.
  intros Heq Hp Hq Hne. rewrite (fit_equal_lengths x y Heq).
  destruct (linregress_returns (map fst (valid_pairs x y))
              (map snd (valid_pairs x y))) as [res Hres].
  - intros H. apply (in_map fst) in Hp. rewrite H in Hp. destruct Hp.
  - intros H. apply (in_map snd) in Hp. rewrite H in Hp. destruct Hp.
  - destruct (feqb (amax (map fst (valid_pairs x y)))
                   (amin (map fst (valid_pairs x y)))) eqn:E; [| reflexivity].
    exfalso. apply Hne.
    apply (amax_amin_equal (map fst (valid_pairs x y))); [| | | exact E].
    + intros w Hw. apply in_map_iff in Hw. destruct Hw as [r [<- Hr]].
      now apply (valid_pairs_not_nan x y).
    + now apply in_map.
    + now apply in_map.
  - rewrite Hres. simpl. eexists. reflexivity.
Qed.

Lemma fit_returns_with_distinct_x_witness :
  exists res,
    fit_log_log_regression [Fin 1; NaN; Fin 2] [Fin 3; Fin 4; Fin 5] = Return res.
Proof.
  apply (fit_returns_with_distinct_x [Fin 1; NaN; Fin 2] [Fin 3; Fin 4; Fin 5]
           (Fin 1, Fin 3) (Fin 2, Fin 5)).
  - reflexivity.
  - simpl. now left.
  - simpl. right. now left.
  - simpl. intros H. injection H. lra.
Defined.

(** ** The fit per entity: sizes of the result *)

Lemma by_entity_loop_sizes (data : DataFrame) (lx ly : string) (es : list string) :
  forall betas adjusted,
    match by_entity_loop data lx ly es betas adjusted with
    | Return (betas', adjusted') =>
        List.length betas'
        = (List.length betas + List.length (fitted_entities data es))%nat
        /\ List.length adjusted'
           = (List.length adjusted + List.length (fitted_entities data es))%nat
    | Raise _ => True
    end.
Proof.
  induction es as [|e es IH]; intros betas adjusted.
  - simpl. lia.
  - simpl by_entity_loop. unfold fitted_entities. simpl filter.
    destruct (1 <? List.length (group data e))%nat.
    + destruct (get_col _ lx) as [xs | ?]; simpl; [| exact I].
      destruct (get_col _ ly) as [ys | ?]; simpl; [| exact I].
      destruct (linregress xs ys) as [res | ?]; simpl; [| exact I].
      destruct (adjusted_r_squared _ _ _) as [adj | ?]; simpl; [| exact I].
      specialize (IH (betas ++ [lr_slope res]) (adjusted ++ [adj])).
      destruct (by_entity_loop data lx ly es _ _) as [[b' a'] | ?]; [| exact I].
      fold (fitted_entities data es) in *. rewrite !length_app in IH. simpl in *. lia.
    + apply IH.
Qed.

(** When the analysis per entity returns, it has one slope and one adjusted
    R-squared for each entity with more than one row, and nothing for the
    others; if no entity has more than one row it returns two empty lists. *)
Theorem by_entity_result_sizes (data : DataFrame) (lx ly : string) :
  match scaling_analysis_by_entity data lx ly with
  | Return (betas, adjusted) =>
      List.length betas = List.length (fitted_entities data (entities data))
      /\ List.length adjusted = List.length (fitted_entities data (entities data))
  | Raise _ => True
  end
  /\ ((forall e, In e (entities data) -> (List.length (group data e) < 2)%nat) ->
      scaling_analysis_by_entity data lx ly = Return ([], [])).
Proof.
  split.
  - unfold scaling_analysis_by_entity.
    pose proof (by_entity_loop_sizes data lx ly (entities data) [] []) as H.
    destruct (by_entity_loop data lx ly (entities data) [] []) as [[b a] | ?];
      [simpl in H; exact H | exact I].
  - unfold scaling_analysis_by_entity. generalize (entities data).
    induction l as [|e es IH]; intros H; [reflexivity |].
    rewrite by_entity_loop_skips_sparse by (apply H; now left).
    apply IH. intros e' He'. apply H. now right.
Qed.

(** ** The loop over the scaling pairs *)

Lemma dict_set_keys {V : Type} (k k' : string) (v : V) (d : list (string * V)) :
  In k (map fst (dict_set k' v d)) <-> k = k' \/ In k (map fst d).
Proof.
  induction d as [|[k0 v0] d IH]; simpl.
  - intuition.
  - destruct (String.eqb_spec k' k0) as [-> | Hne]; simpl.
    + intuition.
    + rewrite IH. intuition.
Qed.

Lemma run_pairs_keys (df world : DataFrame) (pairs : list ScalingPair) :
  forall res0 wres0,
    (forall k, In k (map fst res0) ->
               In k (map fst (fst (run_pairs df world pairs res0 wres0))))
    /\ (forall k, In k (map fst (snd (run_pairs df world pairs res0 wres0))) ->
          In k (map fst wres0)
          \/ exists sp r w,
               In sp pairs
               /\ k = (title sp ++ " (World)")%string
               /\ analyze_scaling df (x_col sp) (y_col sp) = Return r
               /\ analyze_scaling world (x_col sp) (y_col sp) = Return w
               /\ In (title sp)
                    (map fst (fst (run_pairs df world pairs res0 wres0)))).
Proof.
  induction pairs as [|sp rest IH]; intros res0 wres0; simpl.
  - split; [tauto | intros k H; now left].
  - destruct (analyze_scaling df (x_col sp) (y_col sp)) as [r | e] eqn:Er.
    + destruct (analyze_scaling world (x_col sp) (y_col sp)) as [w | e] eqn:Ew.
      * destruct (IH (dict_set (title sp) r res0)
                     (dict_set (title sp ++ " (World)")%string w wres0))
          as [Hres Hw].
        split.
        -- intros k Hk. apply Hres. apply dict_set_keys. now right.
        -- intros k Hk. destruct (Hw k Hk) as [H | [sp' [r' [w' [Hin H]]]]].
           ++ apply dict_set_keys in H. destruct H as [-> | H]; [| now left].
              right. exists sp, r, w. repeat split; auto.
              apply Hres. apply dict_set_keys. now left.
           ++ right. exists sp', r', w'. split; [now right | exact H].
      * destruct (IH (dict_set (title sp) r res0) wres0) as [Hres Hw].
        split.
        -- intros k Hk. apply Hres. apply dict_set_keys. now right.
        -- intros k Hk. destruct (Hw k Hk) as [H | [sp' [r' [w' [Hin H]]]]];
             [now left |].
           right. exists sp', r', w'. split; [now right | exact H].
    + destruct (IH res0 wres0) as [Hres Hw]. split; [exact Hres |].
      intros k Hk. destruct (Hw k Hk) as [H | [sp' [r' [w' [Hin H]]]]];
        [now left |].
      right. exists sp', r', w'. split; [now right | exact H].
Qed.

(** A world result is reported only for a pair whose fit on the panel and
    whose fit on the world frame both returned, under the pair's title
    followed by " (World)", and the panel result of that pair is reported
    too. *)
Theorem world_results_follow_panel_results
  (df world : DataFrame) (pairs : list ScalingPair) :
  Forall
    (fun k =>
       exists sp r w,
         In sp pairs
         /\ k = (title sp ++ " (World)")%string
         /\ analyze_scaling df (x_col sp) (y_col sp) = Return r
         /\ analyze_scaling world (x_col sp) (y_col sp) = Return w
         /\ In (title sp) (map fst (fst (run_pairs df world pairs [] []))))
    (map fst (snd (run_pairs df world pairs [] []))).
Proof.
  apply Forall_forall. intros k Hk.
  destruct (run_pairs_keys df world pairs [] []) as [_ H].
  destruct (H k Hk) as [[] | Hex]. exact Hex.
Qed.

(** ** The chain of filters and the transform *)

Lemma Subsequence_map {A B : Type} (f : A -> B) (l l' : list A) :
  Subsequence l l' -> Subsequence (map f l) (map f l').
Proof.
  induction 1; simpl; [apply sub_nil | now apply sub_skip | now apply sub_keep].
Qed.

Lemma select_year_range_rows (df : DataFrame) (lo hi : option Z) (r : Row) :
  In r (rows (select_year_range df lo hi))
  <-> In r (rows df) /\ above lo (Year r) /\ below hi (Year r).
Proof.
  unfold select_year_range, select, above, below.
  destruct lo as [l|], hi as [h|]; simpl; rewrite ?filter_In, ?Z.leb_le; tauto.
Qed.

Lemma select_year_range_sub (df : DataFrame) (lo hi : option Z) :
  Subsequence (rows (select_year_range df lo hi)) (rows df).
Proof.
  unfold select_year_range, select. destruct lo, hi; simpl.
  - eapply Subsequence_trans; apply Subsequence_filter.
  - apply Subsequence_filter.
  - apply Subsequence_filter.
  - apply Subsequence_refl.
Qed.

Lemma log_row_key (base : R) (s : string) (cols : list string) (r : Row) :
  key (log_row base s cols r) = key r.
Proof.
  destruct (log_row_ids base s cols r) as [He [Hc Hy]].
  unfold key. now rewrite He, Hc, Hy.
Qed.

(** When the chain of [main] returns, it has only removed rows and added
    columns: the identifier triples left are triples of the input in their
    original order, every row left has a code and a year within the
    configured range, and each of the six transformed columns has its log
    column. *)
Theorem filter_and_transform_result (df df' : DataFrame) (p : AnalysisParams) :
  filter_and_transform df p = (df', Return tt) ->
  Subsequence (map key (rows df')) (map key (rows df))
  /\ Forall (fun r => code_present r = true
                      /\ above (year_min p) (Year r)
                      /\ below (year_max p) (Year r))
            (rows df')
  /\ (forall c, In c LOG_COLUMNS -> In (c ++ "_log")%string (columns df')).
Proof.
  unfold filter_and_transform. intros H.
  apply log_transform_rows in H. destruct H as [Hrows [_ Hnew]].
  set (kept := column_pct
                 (remove_high_null_entities
                    (select_year_range (remove_entities_without_iso df)
                       (year_min p) (year_max p))
                    (null_threshold p))
                 (column_threshold p)) in *.
  assert (Hin : forall r, In r (rows kept) ->
                          In r (rows df) /\ code_present r = true
                          /\ above (year_min p) (Year r)
                          /\ below (year_max p) (Year r)).
  { intros r Hr. unfold kept, column_pct, remove_high_null_entities, select in Hr.
    simpl in Hr. apply filter_In in Hr. destruct Hr as [Hr _].
    apply filter_In in Hr. destruct Hr as [Hr _].
    apply select_year_range_rows in Hr. destruct Hr as [Hr [Hlo Hhi]].
    unfold remove_entities_without_iso, select in Hr. simpl in Hr.
    apply filter_In in Hr. tauto. }
  assert (Hsub : Subsequence (rows kept) (rows df)).
  { unfold kept, column_pct, remove_high_null_entities, select. simpl rows.
    eapply Subsequence_trans; [apply Subsequence_filter |].
    eapply Subsequence_trans; [apply Subsequence_filter |].
    eapply Subsequence_trans; [apply select_year_range_sub |].
    apply Subsequence_filter. }
  split; [| split; [| exact Hnew]].
  - rewrite Hrows, map_map.
    replace (map (fun r => key (log_row (log_base p) "_log" LOG_COLUMNS r)) (rows kept))
      with (map key (rows kept))
      by (apply map_ext; intros r; symmetry; apply log_row_key).
    now apply Subsequence_map.
  - rewrite Hrows. apply Forall_forall. intros r' Hr'.
    apply in_map_iff in Hr'. destruct Hr' as [r [<- Hr]].
    destruct (Hin r Hr) as [_ [Hc [Hlo Hhi]]].
    destruct (log_row_ids (log_base p) "_log" LOG_COLUMNS r) as [_ [Hcode Hyear]].
    unfold code_present. rewrite Hcode, Hyear. auto.
Qed.

Lemma full_panel_filtered :
  column_pct
    (remove_high_null_entities
       (select_year_range (remove_entities_without_iso full_panel)
          (year_min default_params) (year_max default_params))
       (null_threshold default_params))
    (column_threshold default_params)
  = full_panel_kept.
Proof. reflexivity. Qed.

Lemma full_panel_transformed :
  exists df', filter_and_transform full_panel default_params = (df', Return tt).
Proof.
  destruct (log_transform_succeeds np_e "_log" LOG_COLUMNS full_panel_kept)
    as [df' Hrun].
  - intros c Hc. exact Hc.
  - intros m Hm. apply mem_false.
    simpl in Hm. decompose [or] Hm; subst; try reflexivity; contradiction.
  - intros c Hc.
    change (map (fun r => cell r c) (rows full_panel_kept))
      with [cell (mkRow "A" (Some "AAA") 2000
                    (map (fun c => (c, Fin 1)) LOG_COLUMNS)) c].
    unfold cell. cbn [vals].
    rewrite (lookup_computed (fun _ => Fin 1) c LOG_COLUMNS Hc).
    simpl. now rewrite Rltb_false by lra.
  - exists df'. unfold filter_and_transform. cbv zeta.
    rewrite full_panel_filtered. exact Hrun.
Qed.

Lemma filter_and_transform_result_witness :
  exists df',
    filter_and_transform full_panel default_params = (df', Return tt)
    /\ Subsequence (map key (rows df')) (map key (rows full_panel)).
Proof.
  destruct full_panel_transformed as [df' Hrun].
  exists df'. split; [exact Hrun |].
  apply (filter_and_transform_result full_panel df' default_params Hrun).
Defined.

(** ** The world frame *)

Lemma insert_Z_In (z x : Z) (l : list Z) :
  In x (insert_Z z l) <-> x = z \/ In x l.
Proof.
  induction l as [|t l IH]; simpl.
  - intuition.
  - destruct (z <=? t)%Z; simpl; [intuition |]. rewrite IH. intuition.
Qed.

Lemma insert_Z_sorted (z : Z) (l : list Z) :
  ~ In z l -> StronglySorted Z.lt l -> StronglySorted Z.lt (insert_Z z l).
Proof.
  induction l as [|t l IH]; intros Hz Hs; simpl.
  - constructor; constructor.
  - inversion Hs as [|? ? Hs' Ht]; subst. rewrite Forall_forall in Ht.
    destruct (Z.leb_spec z t) as [Hle | Hgt].
    + assert (z < t)%Z by (assert (z <> t) by (intros ->; apply Hz; now left); lia).
      constructor; [exact Hs |]. apply Forall_forall.
      intros x [<- | Hx]; [assumption |]. specialize (Ht x Hx). lia.
    + constructor.
      * apply IH; [intros H; apply Hz; now right | exact Hs'].
      * apply Forall_forall. intros x Hx. apply insert_Z_In in Hx.
        destruct Hx as [-> | Hx]; [lia | now apply Ht].
Qed.

Lemma sorted_unique_Z_In (x : Z) (l : list Z) :
  In x (sorted_unique_Z l) <-> In x l.
Proof.
  unfold sorted_unique_Z. rewrite <- (nodup_In Z.eq_dec l x).
  induction (nodup Z.eq_dec l) as [|t l' IH]; simpl; [tauto |].
  rewrite insert_Z_In, IH. intuition.
Qed.

Lemma sorted_unique_Z_sorted (l : list Z) : StronglySorted Z.lt (sorted_unique_Z l).
Proof.
  unfold sorted_unique_Z. pose proof (NoDup_nodup Z.eq_dec l) as H.
  induction H as [|t l' Ht Hl IH]; simpl; [constructor |].
  apply insert_Z_sorted; [| exact IH].
  intros Hin. apply Ht. clear -Hin.
  induction l' as [|u l' IH]; simpl in *; [assumption |].
  apply insert_Z_In in Hin. destruct Hin as [-> | Hin]; [now left | right; auto].
Qed.

(** The world frame has the columns of the panel and exactly one row for each
    year that occurs in the panel, the years in strictly increasing order. *)
Theorem world_one_row_per_year (df : DataFrame) :
  columns (groupby_year_sum df) = columns df
  /\ StronglySorted Z.lt (map Year (rows (groupby_year_sum df)))
  /\ forall y, In y (map Year (rows (groupby_year_sum df)))
               <-> exists r, In r (rows df) /\ Year r = y.
Proof.
  assert (H : map Year (rows (groupby_year_sum df)) = years df).
  { unfold groupby_year_sum. simpl. rewrite map_map. simpl. apply map_id. }
  rewrite H. split; [reflexivity | split].
  - apply sorted_unique_Z_sorted.
  - intros y. unfold years. rewrite sorted_unique_Z_In, in_map_iff.
    split; intros [r [H1 H2]]; exists r; tauto.
Qed.

(** ** Inner and left merges, and the columns of the outer merge *)

Lemma from_left_keys (L R : DataFrame) (keep : bool) (k : string * option string * Z) :
  In k (map key (from_left L R keep))
  <-> In k (map key (rows L)) /\ (keep = true \/ In k (map key (rows R))).
Proof.
  unfold from_left. rewrite in_map_iff. split.
  - intros [x [<- Hx]]. apply in_flat_map in Hx. destruct Hx as [l [Hl Hx]].
    destruct (filter (key_eqb l) (rows R)) as [|r0 ms] eqn:E.
    + destruct keep; [| destruct Hx]. destruct Hx as [<- | []].
      change (key (left_only L R l)) with (key l).
      split; [now apply in_map | now left].
    + apply in_map_iff in Hx. destruct Hx as [r [<- Hr]].
      rewrite <- E in Hr. apply filter_In in Hr. destruct Hr as [Hr Hk].
      apply key_eqb_eq in Hk. change (key (both L R l r)) with (key l).
      split; [now apply in_map |].
      right. rewrite Hk. now apply in_map.
  - intros [HL HR]. apply in_map_iff in HL. destruct HL as [l [<- Hl]].
    destruct (filter (key_eqb l) (rows R)) as [|r0 ms] eqn:E.
    + destruct HR as [-> | HR].
      * exists (left_only L R l). split; [reflexivity |].
        apply in_flat_map. exists l. split; [exact Hl |]. rewrite E. now left.
      * exfalso. apply in_map_iff in HR. destruct HR as [r [Hk Hr]].
        assert (Hf : In r (filter (key_eqb l) (rows R))).
        { apply filter_In. split; [exact Hr | apply key_eqb_eq; congruence]. }
        rewrite E in Hf. destruct Hf.
    + exists (both L R l r0). split; [reflexivity |].
      apply in_flat_map. exists l. split; [exact Hl |]. rewrite E. now left.
Qed.

Lemma merge_loop_inner_cons (m t m' : DataFrame) (rest : list DataFrame) :
  merge_loop (Some m) (t :: rest) JInner = Return (Some m') ->
  merge_loop
    (Some (mkDataFrame (left_columns m t ++ right_columns m t)
             (from_left m t false)))
    rest JInner
  = Return (Some m').
Proof.
  cbn [merge_loop]. destruct (pd_merge m t JInner) as [m1 | e] eqn:E.
  - apply merge_result_inv in E. subst m1. now cbn [bind].
  - discriminate.
Qed.

Lemma merge_loop_left_cons (m t m' : DataFrame) (rest : list DataFrame) :
  merge_loop (Some m) (t :: rest) JLeft = Return (Some m') ->
  merge_loop
    (Some (mkDataFrame (left_columns m t ++ right_columns m t)
             (from_left m t true)))
    rest JLeft
  = Return (Some m').
Proof.
  cbn [merge_loop]. destruct (pd_merge m t JLeft) as [m1 | e] eqn:E.
  - apply merge_result_inv in E. subst m1. now cbn [bind].
  - discriminate.
Qed.

Lemma merge_loop_inner_keys (rest : list DataFrame) :
  forall m m',
    merge_loop (Some m) rest JInner = Return (Some m') ->
    forall k, In k (map key (rows m'))
              <-> In k (map key (rows m))
                  /\ forall t, In t rest -> In k (map key (rows t)).
Proof.
  induction rest as [|t rest IH]; intros m m' Hrun k.
  - injection Hrun as <-. split; [| tauto].
    intros H. split; [exact H | intros t []].
  - apply merge_loop_inner_cons in Hrun.
    rewrite (IH _ _ Hrun). simpl rows.
    rewrite from_left_keys. split.
    + intros [[Hm [Hf | Ht]] Hrest]; [discriminate |].
      split; [exact Hm |]. intros u [<- | Hu]; auto.
    + intros [Hm Hall]. split; [split; [exact Hm | right; apply Hall; now left] |].
      intros u Hu. apply Hall. now right.
Qed.

Lemma merge_loop_left_keys (rest : list DataFrame) :
  forall m m',
    merge_loop (Some m) rest JLeft = Return (Some m') ->
    forall k, In k (map key (rows m')) <-> In k (map key (rows m)).
Proof.
  induction rest as [|t rest IH]; intros m m' Hrun k.
  - injection Hrun as <-. tauto.
  - apply merge_loop_left_cons in Hrun.
    rewrite (IH _ _ Hrun). simpl rows.
    rewrite from_left_keys. tauto.
Qed.

(** Whenever the merge returns a table, with [join='inner'] the merged
    triples are those found in every input, and with [join='left'] they are
    those of the first input.  It returns when no measurement column is found
    in two inputs; a suffix that makes a duplicate column stops it with a
    [MergeError]. *)
Theorem merge_inner_and_left_keys
  (name : string) (first : DataFrame) (others : list (string * DataFrame)) :
  (forall m,
     merge_dict_datasets ((name, first) :: others) JInner = Return (Some m) ->
     forall k, In k (map key (rows m))
               <-> forall t, In t (first :: map snd others) ->
                             In k (map key (rows t)))
  /\ (forall m,
        merge_dict_datasets ((name, first) :: others) JLeft = Return (Some m) ->
        forall k, In k (map key (rows m)) <-> In k (map key (rows first)))
  /\ (NoDup (flat_map columns (first :: map snd others)) ->
      (exists m,
         merge_dict_datasets ((name, first) :: others) JInner = Return (Some m))
      /\ (exists m,
            merge_dict_datasets ((name, first) :: others) JLeft = Return (Some m))).
Proof.
  unfold merge_dict_datasets. simpl map. cbn [merge_loop]. split; [| split].
  - intros m Hrun k. rewrite (merge_loop_inner_keys _ _ _ Hrun). split.
    + intros [H1 H2] t [<- | Ht]; auto.
    + intros H. split; [apply H; now left | intros t Ht; apply H; now right].
  - intros m Hrun. apply (merge_loop_left_keys _ _ _ Hrun).
  - intros Hnd. split; apply merge_loop_returns; try discriminate; exact Hnd.
Qed.

(** The outer merge of well-formed tables with distinct measurement columns
    has the columns of its inputs, in the order of the mapping, and a cell in
    every row for each of them. *)
Theorem merge_outer_columns (datasets : list (string * DataFrame)) :
  datasets <> [] ->
  (forall t, In t (map snd datasets) -> well_formed t) ->
  NoDup (flat_map columns (map snd datasets)) ->
  exists m,
    merge_dict_datasets datasets JOuter = Return (Some m)
    /\ columns m = flat_map columns (map snd datasets)
    /\ well_formed m.
Proof.
  intros Hne Hwf Hnd. destruct datasets as [|[n0 t0] ds]; [congruence |].
  unfold merge_dict_datasets. simpl map. simpl merge_loop.
  destruct (merge_loop_merged (map snd ds) [t0] t0) as [m [Hrun Hm]].
  - apply merged_from_first. apply Hwf. now left.
  - intros u Hu. apply Hwf. now right.
  - simpl. rewrite app_nil_r. exact Hnd.
  - exists m. split; [exact Hrun |]. destruct Hm as [Hcols [Hw _]].
    split; [exact Hcols | exact Hw].
Qed.

Lemma merge_outer_columns_witness :
  exists m,
    merge_dict_datasets
      [("population", population_table); ("gdp", gdp_table)] JOuter
    = Return (Some m)
    /\ columns m = ["pop"; "gdp"].
Proof.
  destruct (merge_outer_columns
              [("population", population_table); ("gdp", gdp_table)])
    as [m [Hrun [Hcols _]]].
  - discriminate.
  - intros t [<- | [<- | []]] r [<- | [<- | []]]; reflexivity.
  - simpl. repeat constructor; simpl; intuition discriminate.
  - exists m. split; [exact Hrun | exact Hcols].
Defined.

(** ** What [check_nulls] reports *)

Lemma insert_string_length (s : string) (l : list string) :
  List.length (insert_string s l) = S (List.length l).
Proof.
  induction l as [|t l IH]; simpl; [reflexivity |].
  destruct (String.leb s t); simpl; [reflexivity | now rewrite IH].
Qed.

Lemma sorted_unique_length (l : list string) :
  List.length (sorted_unique l) = List.length (nodup string_dec l).
Proof.
  unfold sorted_unique. induction (nodup string_dec l) as [|t l' IH]; simpl;
    [reflexivity |].
  now rewrite insert_string_length, IH.
Qed.

(** [check_nulls] reports as many entities as [groupby('Entity')] has groups,
    and one percentage for each of the three identifier columns and each
    measurement column, between 0 and 100 when the frame has rows. *)
Theorem check_nulls_report (df : DataFrame) :
  fst (check_nulls df) = List.length (entities df)
  /\ List.length (snd (check_nulls df)) = (3 + List.length (columns df))%nat
  /\ (rows df <> [] ->
      Forall (fun pct => (0 <= pct <= 100)%Q) (snd (check_nulls df))).
Proof.
  unfold check_nulls. cbn [fst snd]. split; [| split].
  - unfold entities. now rewrite sorted_unique_length.
  - unfold null_means, null_tests. rewrite !length_map, length_app, length_map.
    reflexivity.
  - intros _. apply Forall_forall. intros pct H. apply in_map_iff in H.
    destruct H as [m [<- Hm]]. apply null_means_bounds in Hm. Lqa.lra.
Qed.

(** ** The column adjustments of [main] *)

Lemma lookup_filter_neq (c d : string) (l : list (string * float64)) :
  c <> d ->
  lookup d (filter (fun kv => negb (String.eqb c (fst kv))) l) = lookup d l.
Proof.
  intros Hne. induction l as [|[k v] l IH]; simpl; [reflexivity |].
  destruct (String.eqb_spec c k) as [<- | Hck]; simpl.
  - destruct (String.eqb_spec d c); [congruence | exact IH].
  - destruct (String.eqb d k); [reflexivity | exact IH].
Qed.

Lemma drop_column_cells (df : DataFrame) (c d : string) :
  c <> d ->
  map (fun r => cell r d) (rows (drop_column df c)) = map (fun r => cell r d) (rows df).
Proof.
  intros Hne. unfold drop_column. simpl. rewrite map_map. apply map_ext.
  intros r. unfold cell. simpl. now rewrite lookup_filter_neq.
Qed.

Lemma drop_column_gone (df : DataFrame) (c : string) :
  ~ In c (columns (drop_column df c)).
Proof.
  unfold drop_column. simpl. rewrite filter_In. intros [_ H].
  now rewrite String.eqb_refl in H.
Qed.

Lemma drop_column_keeps (df : DataFrame) (c d : string) :
  c <> d -> In d (columns df) -> In d (columns (drop_column df c)).
Proof.
  intros Hne H. unfold drop_column. simpl. apply filter_In. split; [exact H |].
  destruct (String.eqb_spec c d); [congruence | reflexivity].
Qed.

(** The adjustments of [main] keep every row and its identifiers.  With the
    first toggle on, the medium-variant column is gone afterwards; with the
    second on and the TWh column present, the kWh column holds the TWh value
    times 10^9 in every row; every other column reads as before. *)
Theorem data_processing_effect (df : DataFrame) (dp : DataProcessing) :
  map key (rows (data_processing df dp)) = map key (rows df)
  /\ (remove_medium_variant dp = true ->
      ~ In MEDIUM_VARIANT (columns (data_processing df dp)))
  /\ (convert_energy_units dp = true -> In ENERGY_TWH (columns df) ->
      In ENERGY_KWH (columns (data_processing df dp))
      /\ Forall (fun r => cell r ENERGY_KWH = fmul (cell r ENERGY_TWH) (of_Z (10 ^ 9)))
                (rows (data_processing df dp)))
  /\ (forall c, c <> MEDIUM_VARIANT -> c <> ENERGY_KWH ->
        map (fun r => cell r c) (rows (data_processing df dp))
        = map (fun r => cell r c) (rows df)).
Proof.
  assert (Hmk : MEDIUM_VARIANT <> ENERGY_KWH) by discriminate.
  assert (Hmt : MEDIUM_VARIANT <> ENERGY_TWH) by discriminate.
  assert (Hkt : ENERGY_KWH <> ENERGY_TWH) by discriminate.
  unfold data_processing.
  set (df1 := if remove_medium_variant dp && mem MEDIUM_VARIANT (columns df)
              then drop_column df MEDIUM_VARIANT else df).
  assert (Hkeys1 : map key (rows df1) = map key (rows df)).
  { unfold df1. destruct (_ && _); [| reflexivity].
    unfold drop_column. simpl. rewrite map_map. reflexivity. }
  assert (Hgone1 : remove_medium_variant dp = true -> ~ In MEDIUM_VARIANT (columns df1)).
  { intros Hon. unfold df1. rewrite Hon. simpl andb.
    destruct (mem MEDIUM_VARIANT (columns df)) eqn:E.
    - apply drop_column_gone.
    - now apply mem_false. }
  assert (Htwh1 : In ENERGY_TWH (columns df) -> In ENERGY_TWH (columns df1)).
  { intros H. unfold df1. destruct (_ && _); [| exact H].
    now apply drop_column_keeps. }
  assert (Hcells1 : forall c, c <> MEDIUM_VARIANT ->
             map (fun r => cell r c) (rows df1) = map (fun r => cell r c) (rows df)).
  { intros c Hc. unfold df1. destruct (_ && _); [| reflexivity].
    apply drop_column_cells. congruence. }
  destruct (convert_energy_units dp && mem ENERGY_TWH (columns df1)) eqn:Econv.
  - apply andb_true_iff in Econv. destruct Econv as [Hon Hmem].
    split; [| split; [| split]].
    + simpl rows. rewrite map_map. exact Hkeys1.
    + intros Hrm Hin. simpl in Hin.
      destruct (mem ENERGY_KWH (columns df1)); [now apply (Hgone1 Hrm) |].
      apply in_app_or in Hin. destruct Hin as [Hin | [Hin | []]];
        [now apply (Hgone1 Hrm) | congruence].
    + intros _ _. split; [apply columns_assign_new |].
      simpl rows. apply Forall_forall. intros r' Hr'.
      apply in_map_iff in Hr'. destruct Hr' as [r [<- _]].
      rewrite cell_set_cell_eq, cell_set_cell_neq by exact Hkt. reflexivity.
    + intros c Hc1 Hc2. rewrite cells_after_assign by congruence. now apply Hcells1.
  - split; [exact Hkeys1 | split; [exact Hgone1 | split; [| now auto]]].
    intros Hon Hin. rewrite Hon in Econv. simpl in Econv.
    apply Htwh1, mem_In in Hin. congruence.
Qed.
